(** * The multi-account registry of the antigravity-auth plugin

    A shallow embedding of [plugins/antigravity-auth/lib/account-manager.ts]
    and the properties of its rotation / fail-over registry.

    Modelling conventions.
    - A JavaScript [number] holding an index, a cursor or a millisecond
      timestamp is a [Z]; the doubles' loss of precision above 2^53 is not
      modelled.
    - [nowMs()] is the argument [now] of every operation that reads the
      clock: one operation observes one instant.
    - [rateLimitResetTimes] (a [Partial<Record<QuotaKey, number>>]) is a
      [gmap QuotaKey Z].
    - The account objects live in the [accounts] array of the manager and
      are handed to callers by reference.  A reference is the position of
      the object in [accounts]; an operation that mutates an account
      rewrites the array at that position.
    - The optional logger only prints; it is left out. *)

From Stdlib Require Import ZArith Lia.
From stdpp Require Import base tactics option list gmap strings fin_maps pretty.

Local Open Scope Z_scope.

(** ** Types *)

Inductive ModelFamily := Claude | Gemini.
Inductive HeaderStyle := Antigravity | GeminiCli.
Inductive QuotaKey := QClaude | QGeminiAntigravity | QGeminiCli.
Inductive SwitchReason := RateLimit | Initial | Rotation.

#[global] Instance ModelFamily_eq_dec : EqDecision ModelFamily.
Proof. solve_decision. Defined.

#[global] Instance HeaderStyle_eq_dec : EqDecision HeaderStyle.
Proof. solve_decision. Defined.

#[global] Instance QuotaKey_eq_dec : EqDecision QuotaKey.
Proof. solve_decision. Defined.

Definition QuotaKey_code (k : QuotaKey) : nat :=
  match k with QClaude => 0 | QGeminiAntigravity => 1 | QGeminiCli => 2 end%nat.

Definition QuotaKey_of_code (n : nat) : QuotaKey :=
  match n with O => QClaude | S O => QGeminiAntigravity | _ => QGeminiCli end.

#[global] Instance QuotaKey_countable : Countable QuotaKey.
Proof.
  refine (inj_countable' QuotaKey_code QuotaKey_of_code _).
  intros []; reflexivity.
Defined.

Record ManagedAccount := mkAccount {
  index : Z;
  email : option string;
  projectId : string;
  refreshToken : string;
  accessToken : option string;
  expiresAt : option Z;
  addedAt : Z;
  lastUsed : Z;
  rateLimitResetTimes : gmap QuotaKey Z;
  lastSwitchReason : option SwitchReason
}.

(** Field assignments [account.f = v]. *)
Definition set_index (v : Z) (a : ManagedAccount) : ManagedAccount :=
  mkAccount v (email a) (projectId a) (refreshToken a) (accessToken a)
    (expiresAt a) (addedAt a) (lastUsed a) (rateLimitResetTimes a)
    (lastSwitchReason a).

Definition set_lastUsed (v : Z) (a : ManagedAccount) : ManagedAccount :=
  mkAccount (index a) (email a) (projectId a) (refreshToken a) (accessToken a)
    (expiresAt a) (addedAt a) v (rateLimitResetTimes a) (lastSwitchReason a).

Definition set_rateLimitResetTimes (v : gmap QuotaKey Z) (a : ManagedAccount)
  : ManagedAccount :=
  mkAccount (index a) (email a) (projectId a) (refreshToken a) (accessToken a)
    (expiresAt a) (addedAt a) (lastUsed a) v (lastSwitchReason a).

Definition set_lastSwitchReason (v : option SwitchReason) (a : ManagedAccount)
  : ManagedAccount :=
  mkAccount (index a) (email a) (projectId a) (refreshToken a) (accessToken a)
    (expiresAt a) (addedAt a) (lastUsed a) (rateLimitResetTimes a) v.

Definition set_tokens (at_ : option string) (ex : option Z) (a : ManagedAccount)
  : ManagedAccount :=
  mkAccount (index a) (email a) (projectId a) (refreshToken a) at_ ex
    (addedAt a) (lastUsed a) (rateLimitResetTimes a) (lastSwitchReason a).

(** The persisted schema [AccountStorageData]. *)
Module Stored.

Record Account := mk {
  email : option string;
  projectId : string;
  refreshToken : string;
  addedAt : Z;
  lastUsed : Z;
  rateLimitResetTimes : option (gmap QuotaKey Z)
}.

End Stored.

(** [activeIndexByFamily]; the loader reads it through [?.] and [??], so
    both the object and each of its fields may be missing. *)
Record ActiveIndex := mkActiveIndex {
  active_claude : option Z;
  active_gemini : option Z
}.

Record AccountStorageData := mkStorage {
  stored_accounts : list Stored.Account;
  activeIndexByFamily : option ActiveIndex
}.

(** Modelled from the spec: the declaration of [AntigravityTokens] lives in
    [./types], which is not among the sources.  The fields are the five
    that [addAccount] reads; [email] is optional ([tokens.email || 'unknown']),
    [access_token] and [expires_at] are the optional cached bearer
    credential of the data model. *)
Record AntigravityTokens := mkTokens {
  tk_email : option string;
  refresh_token : string;
  project_id : string;
  access_token : option string;
  expires_at : option Z
}.

(** ** Helper functions *)

Definition getQuotaKey (family : ModelFamily) (headerStyle : HeaderStyle)
  : QuotaKey :=
  match family with
  | Claude => QClaude
  | Gemini =>
      match headerStyle with
      | GeminiCli => QGeminiCli
      | Antigravity => QGeminiAntigravity
      end
  end.

Definition isRateLimitedForQuotaKey (now : Z) (account : ManagedAccount)
    (key : QuotaKey) : bool :=
  match rateLimitResetTimes account !! key with
  | Some resetTime => now <? resetTime
  | None => false
  end.

Definition isRateLimitedForFamily (now : Z) (account : ManagedAccount)
    (family : ModelFamily) : bool :=
  match family with
  | Claude => isRateLimitedForQuotaKey now account QClaude
  | Gemini =>
      isRateLimitedForQuotaKey now account QGeminiAntigravity &&
      isRateLimitedForQuotaKey now account QGeminiCli
  end.

(** [Object.keys(m)]: the keys present when the loop starts. *)
Definition Object_keys (m : gmap QuotaKey Z) : list QuotaKey :=
  (map_to_list m).*1.

(** One iteration of the loop of [clearExpiredRateLimits]. *)
Definition clear_step (now : Z) (m : gmap QuotaKey Z) (key : QuotaKey)
  : gmap QuotaKey Z :=
  match m !! key with
  | Some resetTime => if now >=? resetTime then delete key m else m
  | None => m
  end.

Definition clearExpiredRateLimits (now : Z) (account : ManagedAccount)
  : ManagedAccount :=
  set_rateLimitResetTimes
    (foldl (clear_step now) (rateLimitResetTimes account)
       (Object_keys (rateLimitResetTimes account)))
    account.

(** ** The manager *)

(** [currentAccountIndexByFamily : Record<ModelFamily, number>]. *)
Record FamilyIndex := mkFamilyIndex { claude : Z; gemini : Z }.

Definition get_family (r : FamilyIndex) (family : ModelFamily) : Z :=
  match family with Claude => claude r | Gemini => gemini r end.

Definition set_family (family : ModelFamily) (v : Z) (r : FamilyIndex)
  : FamilyIndex :=
  match family with
  | Claude => mkFamilyIndex v (gemini r)
  | Gemini => mkFamilyIndex (claude r) v
  end.

Record AccountManager := mkManager {
  accounts : list ManagedAccount;
  cursor : Z;
  currentAccountIndexByFamily : FamilyIndex
}.

(** The field initialisers of the class. *)
Definition initial : AccountManager :=
  mkManager [] 0 (mkFamilyIndex (-1) (-1)).

Definition with_accounts (l : list ManagedAccount) (st : AccountManager)
  : AccountManager :=
  mkManager l (cursor st) (currentAccountIndexByFamily st).

(** *** Persistence *)

Definition hydrate (i : nat) (acc : Stored.Account) : ManagedAccount :=
  mkAccount (Z.of_nat i) (Stored.email acc) (Stored.projectId acc)
    (Stored.refreshToken acc) None None (Stored.addedAt acc)
    (Stored.lastUsed acc)
    (default ∅ (Stored.rateLimitResetTimes acc)) None.

(** [data.activeIndexByFamily?.claude ?? 0] and its gemini twin. *)
Definition stored_active (data : AccountStorageData) (family : ModelFamily)
  : Z :=
  match activeIndexByFamily data with
  | Some ai =>
      default 0 (match family with
                 | Claude => active_claude ai
                 | Gemini => active_gemini ai
                 end)
  | None => 0
  end.

Definition loadFromStorage (data : option AccountStorageData)
    (st : AccountManager) : AccountManager :=
  match data with
  | None => mkManager [] 0 (mkFamilyIndex (-1) (-1))
  | Some d =>
      if (length (stored_accounts d) =? 0)%nat
      then mkManager [] 0 (mkFamilyIndex (-1) (-1))
      else
        let accs := imap hydrate (stored_accounts d) in
        let n := Z.max 1 (Z.of_nat (length accs)) in
        let c := Z.rem (Z.max 0 (stored_active d Claude)) n in
        let g := Z.rem (Z.max 0 (stored_active d Gemini)) n in
        mkManager accs c (mkFamilyIndex c g)
  end.

Definition dehydrate (acc : ManagedAccount) : Stored.Account :=
  Stored.mk (email acc) (projectId acc) (refreshToken acc) (addedAt acc)
    (lastUsed acc)
    (if (0 <? length (Object_keys (rateLimitResetTimes acc)))%nat
     then Some (rateLimitResetTimes acc)
     else None).

Definition toStorageData (st : AccountManager) : AccountStorageData :=
  mkStorage (dehydrate <$> accounts st)
    (Some (mkActiveIndex
             (Some (Z.max 0 (claude (currentAccountIndexByFamily st))))
             (Some (Z.max 0 (gemini (currentAccountIndexByFamily st)))))).

(** *** Adding and removing *)

(** [Array.prototype.find], returning the position of the element found. *)
Fixpoint find_pos {A} (f : A → bool) (l : list A) : option nat :=
  match l with
  | [] => None
  | x :: rest => if f x then Some O else S <$> find_pos f rest
  end.

(** The callback of [find] in [addAccount]:
    [(tokens.email && a.email === tokens.email) ||
     a.refreshToken === tokens.refresh_token].
    [tokens.email] is truthy when it is a non-empty string. *)
Definition same_credential (tokens : AntigravityTokens) (a : ManagedAccount)
  : bool :=
  match tk_email tokens with
  | Some (String c e) =>
      match email a with
      | Some e' => String.eqb e' (String c e)
      | None => false
      end
  | _ => false
  end
  || String.eqb (refreshToken a) (refresh_token tokens).

Definition overwrite (tokens : AntigravityTokens) (existing : ManagedAccount)
  : ManagedAccount :=
  mkAccount (index existing) (tk_email tokens) (project_id tokens)
    (refresh_token tokens) (access_token tokens) (expires_at tokens)
    (addedAt existing) (lastUsed existing) (rateLimitResetTimes existing)
    (lastSwitchReason existing).

(** Returns the reference of the account that was updated or appended. *)
Definition addAccount (now : Z) (tokens : AntigravityTokens)
    (st : AccountManager) : nat * AccountManager :=
  match find_pos (same_credential tokens) (accounts st) with
  | Some p => (p, with_accounts (alter (overwrite tokens) p (accounts st)) st)
  | None =>
      let account :=
        mkAccount (Z.of_nat (length (accounts st))) (tk_email tokens)
          (project_id tokens) (refresh_token tokens) (access_token tokens)
          (expires_at tokens) now 0 ∅ None in
      let accs := accounts st ++ [account] in
      (length (accounts st),
       mkManager accs (cursor st)
         (if (length accs =? 1)%nat then mkFamilyIndex 0 0
          else currentAccountIndexByFamily st))
  end.

(** The body of the loop over the two families in [removeAccount]. *)
Definition adjust_pointer (idx newLength current : Z) : Z :=
  let current := if current >=? idx then Z.max 0 (current - 1) else current in
  Z.min current (newLength - 1).

Definition reindex (l : list ManagedAccount) : list ManagedAccount :=
  imap (λ i acc, set_index (Z.of_nat i) acc) l.

Definition removeAccount (idx : Z) (st : AccountManager)
  : bool * AccountManager :=
  if (idx <? 0) || (idx >=? Z.of_nat (length (accounts st)))
  then (false, st)
  else
    let accs := reindex (delete (Z.to_nat idx) (accounts st)) in
    if (length accs =? 0)%nat
    then (true, mkManager accs 0 (mkFamilyIndex (-1) (-1)))
    else
      let n := Z.of_nat (length accs) in
      let cur := currentAccountIndexByFamily st in
      (true,
       mkManager accs (Z.min (cursor st) (n - 1))
         (mkFamilyIndex (adjust_pointer idx n (claude cur))
                        (adjust_pointer idx n (gemini cur)))).

Definition getAccountCount (st : AccountManager) : Z :=
  Z.of_nat (length (accounts st)).

Definition getAccounts (st : AccountManager) : list ManagedAccount :=
  accounts st.

(** *** Selection *)

Definition getCurrentAccountForFamily (st : AccountManager)
    (family : ModelFamily) : option nat :=
  let idx := get_family (currentAccountIndexByFamily st) family in
  if (0 <=? idx) && (idx <? Z.of_nat (length (accounts st)))
  then (λ _, Z.to_nat idx) <$> accounts st !! Z.to_nat idx
  else None.

(** The [filter] of [getNextForFamily]: its callback purges every account
    it visits, then tests it.  Returns the array after the purge and the
    references of the accounts kept, in order. *)
Fixpoint filter_available (now : Z) (family : ModelFamily) (pos : nat)
    (l : list ManagedAccount) : list ManagedAccount * list nat :=
  match l with
  | [] => ([], [])
  | a :: rest =>
      let a' := clearExpiredRateLimits now a in
      let '(rest', available) := filter_available now family (S pos) rest in
      (a' :: rest',
       if negb (isRateLimitedForFamily now a' family)
       then pos :: available else available)
  end.

(** [available[cursor % available.length]]; [%] is JavaScript's remainder
    (sign of the dividend), and a negative subscript reads [undefined]. *)
Definition pick (cur : Z) (available : list nat) : option nat :=
  let k := Z.rem cur (Z.of_nat (length available)) in
  if k <? 0 then None else available !! Z.to_nat k.

Definition getNextForFamily (now : Z) (family : ModelFamily)
    (st : AccountManager) : option nat * AccountManager :=
  let '(accs, available) := filter_available now family 0 (accounts st) in
  let st1 := with_accounts accs st in
  if (length available =? 0)%nat then (None, st1)
  else
    match pick (cursor st) available with
    | None => (None, st1)
    | Some p =>
        (Some p,
         mkManager (alter (set_lastUsed now) p accs) (cursor st + 1)
           (currentAccountIndexByFamily st))
    end.

(** The tail of [getCurrentOrNextForFamily]: rotate and move the family's
    sticky pointer to [next.index]. *)
Definition switch_to_next (now : Z) (family : ModelFamily)
    (st : AccountManager) : option nat * AccountManager :=
  let '(next, st1) := getNextForFamily now family st in
  match next with
  | Some q =>
      match accounts st1 !! q with
      | Some acc =>
          (Some q,
           mkManager
             (alter (set_lastSwitchReason (Some RateLimit)) q (accounts st1))
             (cursor st1)
             (set_family family (index acc) (currentAccountIndexByFamily st1)))
      | None => (Some q, st1)
      end
  | None => (None, st1)
  end.

Definition getCurrentOrNextForFamily (now : Z) (family : ModelFamily)
    (st : AccountManager) : option nat * AccountManager :=
  match getCurrentAccountForFamily st family with
  | Some p =>
      match accounts st !! p with
      | Some current =>
          let current := clearExpiredRateLimits now current in
          if negb (isRateLimitedForFamily now current family)
          then (Some p,
                with_accounts (<[p := set_lastUsed now current]> (accounts st))
                  st)
          else switch_to_next now family
                 (with_accounts (<[p := current]> (accounts st)) st)
      | None => switch_to_next now family st
      end
  | None => switch_to_next now family st
  end.

(** *** Quota tracking *)

(** On the account object: the header style and the purged account. *)
Definition availableHeaderStyle (now : Z) (account : ManagedAccount)
    (family : ModelFamily) : option HeaderStyle * ManagedAccount :=
  let account := clearExpiredRateLimits now account in
  (match family with
   | Claude =>
       if isRateLimitedForQuotaKey now account QClaude then None
       else Some Antigravity
   | Gemini =>
       if negb (isRateLimitedForQuotaKey now account QGeminiAntigravity)
       then Some Antigravity
       else if negb (isRateLimitedForQuotaKey now account QGeminiCli)
       then Some GeminiCli
       else None
   end, account).

(** On the account of the registry that the reference [p] denotes.  A
    reference that denotes no account of the registry stands for an object
    the registry does not hold: the registry is then unchanged, and the
    answer is not modelled. *)
Definition getAvailableHeaderStyle (now : Z) (p : nat) (family : ModelFamily)
    (st : AccountManager) : option HeaderStyle * AccountManager :=
  match accounts st !! p with
  | Some account =>
      let '(r, account') := availableHeaderStyle now account family in
      (r, with_accounts (<[p := account']> (accounts st)) st)
  | None => (None, st)
  end.

Definition rateLimit (now retryAfterMs : Z) (family : ModelFamily)
    (headerStyle : option HeaderStyle) (account : ManagedAccount)
  : ManagedAccount :=
  let key := getQuotaKey family (default Antigravity headerStyle) in
  set_rateLimitResetTimes
    (<[key := now + retryAfterMs]> (rateLimitResetTimes account)) account.

Definition markRateLimited (now : Z) (p : nat) (retryAfterMs : Z)
    (family : ModelFamily) (headerStyle : option HeaderStyle)
    (st : AccountManager) : AccountManager :=
  with_accounts
    (alter (rateLimit now retryAfterMs family headerStyle) p (accounts st)) st.

Definition updateAccountTokens (p : nat) (accessToken' : string)
    (expiresAt' : Z) (st : AccountManager) : AccountManager :=
  with_accounts
    (alter (set_tokens (Some accessToken') (Some expiresAt')) p (accounts st))
    st.

(** [accounts.every(...)]: stops at the first account whose callback
    answers false; the accounts visited so far have been purged. *)
Fixpoint every_limited (now : Z) (family : ModelFamily)
    (l : list ManagedAccount) : bool * list ManagedAccount :=
  match l with
  | [] => (true, [])
  | a :: rest =>
      let a' := clearExpiredRateLimits now a in
      if isRateLimitedForFamily now a' family
      then let '(b, rest') := every_limited now family rest in (b, a' :: rest')
      else (false, a' :: rest)
  end.

Definition allAccountsRateLimited (now : Z) (family : ModelFamily)
    (st : AccountManager) : bool * AccountManager :=
  let '(b, accs) := every_limited now family (accounts st) in
  (b, with_accounts accs st).

(** [Math.min] over wait times, [None] standing for [Infinity]. *)
Definition min_wait (a b : option Z) : option Z :=
  match a, b with
  | Some x, Some y => Some (Z.min x y)
  | Some x, None => Some x
  | None, o => o
  end.

Definition time_left (now : Z) (account : ManagedAccount) (key : QuotaKey)
  : option Z :=
  (λ t, Z.max 0 (t - now)) <$> rateLimitResetTimes account !! key.

Definition getMinWaitTime (now : Z) (family : ModelFamily)
    (st : AccountManager) : Z :=
  let waitTimes :=
    omap (λ account,
            match family with
            | Claude => time_left now account QClaude
            | Gemini => min_wait (time_left now account QGeminiAntigravity)
                                 (time_left now account QGeminiCli)
            end) (accounts st) in
  match waitTimes with
  | [] => 0
  | w :: ws => foldl Z.min w ws
  end.

(** ** Histories of calls *)

(** One call of a public method that can change the registry. *)
Inductive Call :=
| CallLoad (data : option AccountStorageData)
| CallAdd (tokens : AntigravityTokens)
| CallRemove (idx : Z)
| CallCurrentOrNext (family : ModelFamily)
| CallNext (family : ModelFamily)
| CallHeaderStyle (p : nat) (family : ModelFamily)
| CallMark (p : nat) (retryAfterMs : Z) (family : ModelFamily)
    (headerStyle : option HeaderStyle)
| CallUpdateTokens (p : nat) (accessToken' : string) (expiresAt' : Z)
| CallAllLimited (family : ModelFamily).

(** The registry after the call, made at the instant [now]. *)
Definition exec (now : Z) (c : Call) (st : AccountManager) : AccountManager :=
  match c with
  | CallLoad data => loadFromStorage data st
  | CallAdd tokens => (addAccount now tokens st).2
  | CallRemove idx => (removeAccount idx st).2
  | CallCurrentOrNext family => (getCurrentOrNextForFamily now family st).2
  | CallNext family => (getNextForFamily now family st).2
  | CallHeaderStyle p family => (getAvailableHeaderStyle now p family st).2
  | CallMark p retryAfterMs family headerStyle =>
      markRateLimited now p retryAfterMs family headerStyle st
  | CallUpdateTokens p a e => updateAccountTokens p a e st
  | CallAllLimited family => (allAccountsRateLimited now family st).2
  end.

Definition run (history : list (Z * Call)) (st : AccountManager)
  : AccountManager :=
  foldl (λ st tc, exec tc.1 tc.2 st) st history.

(** The states a freshly constructed manager can be driven into. *)
Definition reachable (st : AccountManager) : Prop :=
  ∃ history, st = run history initial.

(** [n] calls of [getNextForFamily], one at each instant of [times]. *)
Fixpoint nextN (family : ModelFamily) (times : list Z) (st : AccountManager)
  : list (option nat) * AccountManager :=
  match times with
  | [] => ([], st)
  | now :: rest =>
      let '(r, st1) := getNextForFamily now family st in
      let '(rs, st2) := nextN family rest st1 in
      (r :: rs, st2)
  end.

(** Likewise for [getCurrentOrNextForFamily]. *)
Fixpoint currentOrNextN (family : ModelFamily) (times : list Z)
    (st : AccountManager) : list (option nat) * AccountManager :=
  match times with
  | [] => ([], st)
  | now :: rest =>
      let '(r, st1) := getCurrentOrNextForFamily now family st in
      let '(rs, st2) := currentOrNextN family rest st1 in
      (r :: rs, st2)
  end.

(** ** Sample data *)

Definition tokens_of (mail : option string) (rt : string) : AntigravityTokens :=
  mkTokens mail rt "proj" (Some "tok") (Some 3600).

Definition alice := tokens_of (Some "alice@example.com") "rt-a".
Definition bob := tokens_of (Some "bob@example.com") "rt-b".
Definition carol := tokens_of None "rt-c".

Definition three : AccountManager :=
  run [(100, CallAdd alice); (101, CallAdd bob); (102, CallAdd carol)] initial.

(** An account with the given rate-limit entries. *)
Definition account_with (m : list (QuotaKey * Z)) : ManagedAccount :=
  mkAccount 0 None "proj" "rt" None None 0 0 (list_to_map m) None.

(** At instant 10: the gemini-antigravity pool closed, one stale entry. *)
Definition antigravity_closed : ManagedAccount :=
  account_with [(QGeminiAntigravity, 50); (QClaude, 5)].

Definition holding (l : list ManagedAccount) : AccountManager :=
  mkManager l 0 (mkFamilyIndex 0 0).

(** ** Vocabulary of the properties *)

(** What the purge at [now] leaves of an entry. *)
Definition purge (now : Z) (o : option Z) : option Z :=
  match o with
  | Some t => if now >=? t then None else Some t
  | None => None
  end.

(** The pool [key] of the account is closed at [now]: its entry is present
    and unexpired. *)
Definition pool_limited (now : Z) (account : ManagedAccount) (key : QuotaKey)
  : Prop :=
  ∃ resetTime, rateLimitResetTimes account !! key = Some resetTime
               ∧ now < resetTime.

(** A rate-limit map without the entries whose [resetTime <= now]. *)
Definition unexpired (now : Z) (m : gmap QuotaKey Z) : gmap QuotaKey Z :=
  filter (λ kv, now < kv.2) m.

(** The rate-limit maps of the registry, by position. *)
Definition limits (st : AccountManager) : list (gmap QuotaKey Z) :=
  rateLimitResetTimes <$> accounts st.

(** How many accounts the callback of [every] is run on: the leading
    rate-limited ones and the first that is not. *)
Fixpoint visited (now : Z) (family : ModelFamily) (l : list ManagedAccount)
  : nat :=
  match l with
  | [] => O
  | a :: rest =>
      if isRateLimitedForFamily now a family
      then S (visited now family rest) else 1%nat
  end.

(** The sticky account of the family, when there is one and it is not
    rate-limited for the family at [now]. *)
Definition sticky_eligible (now : Z) (family : ModelFamily)
    (st : AccountManager) : option nat :=
  p ← getCurrentAccountForFamily st family;
  current ← accounts st !! p;
  if isRateLimitedForFamily now current family then None else Some p.

(** Every [index] field equals the position of its account. *)
Definition indexed (l : list ManagedAccount) : Prop :=
  ∀ p a, l !! p = Some a → index a = Z.of_nat p.

(** The pointers of a registry: with no account the sticky indices are the
    sentinel [-1] and the cursor is [0]; otherwise the sticky indices are
    positions of accounts and the cursor is a natural number. *)
Definition pointers_ok (st : AccountManager) : Prop :=
  if decide (accounts st = [])
  then cursor st = 0 ∧ currentAccountIndexByFamily st = mkFamilyIndex (-1) (-1)
  else 0 ≤ cursor st
       ∧ ∀ family,
           0 ≤ get_family (currentAccountIndexByFamily st) family
             < getAccountCount st.

Definition wf (st : AccountManager) : Prop :=
  indexed (accounts st) ∧ pointers_ok st.

(** The credentials name the account: they carry an email, which is the
    account's, or their refresh token is the account's. *)
Definition credential_matches (tokens : AntigravityTokens)
    (a : ManagedAccount) : Prop :=
  (∃ e, tk_email tokens = Some e ∧ e ≠ EmptyString ∧ email a = Some e)
  ∨ refreshToken a = refresh_token tokens.

(** The account at position [p] exists and is not rate-limited for the
    family at [now]. *)
Definition eligible_at (now : Z) (family : ModelFamily)
    (l : list ManagedAccount) (p : nat) : bool :=
  match l !! p with
  | Some a => negb (isRateLimitedForFamily now a family)
  | None => false
  end.

(** The positions of the accounts that are not rate-limited for the family
    at [now], in store order. *)
Definition eligible_positions (now : Z) (family : ModelFamily)
    (l : list ManagedAccount) : list nat :=
  filter (λ p, eligible_at now family l p = true) (seq 0 (length l)).

(** The other model family. *)
Definition other_family (family : ModelFamily) : ModelFamily :=
  match family with Claude => Gemini | Gemini => Claude end.

(** Three accounts, the first of which has been used for gemini and then
    marked rate-limited in both gemini pools. *)
Definition first_exhausted : AccountManager :=
  run [(200, CallCurrentOrNext Gemini);
       (201, CallMark 0 60000 Gemini (Some Antigravity));
       (202, CallMark 0 60000 Gemini (Some GeminiCli))] three.

(** What [getMinWaitTime] collects for one account: the time left on the
    claude pool, or the smaller of the times left on the gemini pools,
    when an entry is present. *)
Definition account_wait (now : Z) (family : ModelFamily)
    (account : ManagedAccount) : option Z :=
  match family with
  | Claude => time_left now account QClaude
  | Gemini => min_wait (time_left now account QGeminiAntigravity)
                       (time_left now account QGeminiCli)
  end.

(** Stored data as [toStorageData] writes it: at least one account, no
    empty rate-limit map, both active indices present and positions of
    accounts. *)
Definition canonical_storage (d : AccountStorageData) : Prop :=
  stored_accounts d ≠ []
  ∧ (∀ acc, acc ∈ stored_accounts d →
            Stored.rateLimitResetTimes acc ≠ Some ∅)
  ∧ ∃ c g,
      activeIndexByFamily d = Some (mkActiveIndex (Some c) (Some g))
      ∧ 0 ≤ c < Z.of_nat (length (stored_accounts d))
      ∧ 0 ≤ g < Z.of_nat (length (stored_accounts d)).

(** * Request transformation

    The pure helpers of [plugins/antigravity-auth/lib/request-transform.ts].

    - A string whose characters the code inspects (a URL, a tool name) is
      the list of its UTF-16 code units; a string that is only compared or
      copied is a [string].
    - A JSON value is a [json]; an object is the list of its own
      enumerable entries in enumeration order, the keys distinct: what
      [Object.entries], [Object.keys] and [JSON.stringify] read, and all
      that this code reads of an object it has built.  A number is only
      copied here. *)

#[warnings="-register-all"]
Inductive json :=
| JNull
| JBool (b : bool)
| JNumber (x : Z)
| JString (s : string)
| JArray (elements : list json)
| JObject (entries : list (string * json)).

(** [typeof v === 'object' && v !== null]. *)
Definition is_object (v : json) : bool :=
  match v with JArray _ | JObject _ => true | _ => false end.

(** [object[key]] for an own property. *)
Fixpoint obj_get (key : string) (entries : list (string * json))
  : option json :=
  match entries with
  | [] => None
  | (k, v) :: rest => if String.eqb k key then Some v else obj_get key rest
  end.

(** [object[key] = v]: in place when the key is present, appended if not. *)
Fixpoint obj_set (key : string) (v : json) (entries : list (string * json))
  : list (string * json) :=
  match entries with
  | [] => [(key, v)]
  | (k, w) :: rest =>
      if String.eqb k key then (k, v) :: rest
      else (k, w) :: obj_set key v rest
  end.

(** [Object.entries] of an array: the indices in decimal. *)
Definition array_entries (l : list json) : list (string * json) :=
  imap (λ i v, (pretty i, v)) l.

(** [Object.entries(v)] for an object or an array. *)
Definition object_entries (v : json) : list (string * json) :=
  match v with
  | JObject entries => entries
  | JArray elements => array_entries elements
  | _ => []
  end.

Definition allowedKeys : list string :=
  ["type"; "properties"; "required"; "items"; "enum"; "description";
   "minimum"; "maximum"; "minLength"; "maxLength"; "pattern";
   "additionalProperties"; "oneOf"; "anyOf"; "allOf"].

(** [props[name] = v] on the object [props] that [cleanJSONSchema] builds
    from the empty object literal: an own property, unless the name is
    [__proto__].  That assignment runs the setter inherited from
    [Object.prototype], which replaces the prototype of [props] when [v] is
    an object or null and does nothing otherwise: in no case does [props]
    get an entry. *)
Definition own_property (name : string) (v : json)
  : option (string * json) :=
  if String.eqb name "__proto__" then None else Some (name, v).

(** [cleanJSONSchema]: the entries of the object it returns.  It is called
    on objects and arrays only; no allowed key is a property of an array
    or of [Object.prototype], so an array yields the empty object.  The
    recursion runs over the entries of the schema; the equation
    [cleanJSONSchema_object] below has the shape of the source, a loop over
    [allowedKeys]. *)
Fixpoint cleanJSONSchema (schema : json) : list (string * json) :=
  match schema with
  | JObject entries =>
      let nested pv :=
        if is_object pv then JObject (cleanJSONSchema pv) else pv in
      let field kv :=
        match kv with
        | (key, value) =>
            (key,
             if String.eqb key "properties" then
               match value with
               | JObject props =>
                   JObject (omap (λ nv, match nv with
                                        | (name, pv) =>
                                            own_property name (nested pv)
                                        end) props)
               | JArray elements =>
                   JObject (array_entries (nested <$> elements))
               | _ => value
               end
             else if String.eqb key "items" then nested value
             else value)
        end in
      let cleaned := field <$> entries in
      omap (λ key, (λ v, (key, v)) <$> obj_get key cleaned) allowedKeys
  | _ => []
  end.

(** The branches of the loop body of [cleanJSONSchema]. *)
Definition clean_nested (pv : json) : json :=
  if is_object pv then JObject (cleanJSONSchema pv) else pv.

Definition clean_value (key : string) (value : json) : json :=
  if String.eqb key "properties" && is_object value then
    JObject (omap (λ nv, own_property nv.1 (clean_nested nv.2))
               (object_entries value))
  else if String.eqb key "items" && is_object value then
    JObject (cleanJSONSchema value)
  else value.

Definition EMPTY_SCHEMA_PLACEHOLDER_NAME : string := "_placeholder".
Definition EMPTY_SCHEMA_PLACEHOLDER_DESCRIPTION : string :=
  "Placeholder. Always pass true.".

Definition placeholder_properties : json :=
  JObject [(EMPTY_SCHEMA_PLACEHOLDER_NAME,
            JObject [("type", JString "boolean");
                     ("description",
                      JString EMPTY_SCHEMA_PLACEHOLDER_DESCRIPTION)])].

Definition createPlaceholderSchema : list (string * json) :=
  [("type", JString "object");
   ("properties", placeholder_properties);
   ("required", JArray [JString EMPTY_SCHEMA_PLACEHOLDER_NAME])].

(** [cleaned.properties && typeof cleaned.properties === 'object' &&
     Object.keys(cleaned.properties).length > 0]. *)
Definition hasProperties (cleaned : list (string * json)) : bool :=
  match obj_get "properties" cleaned with
  | Some (JObject (_ :: _)) | Some (JArray (_ :: _)) => true
  | _ => false
  end.

Definition cleanSchemaForClaude (schema : option json)
  : list (string * json) :=
  match schema with
  | Some v =>
      if is_object v then
        let cleaned := cleanJSONSchema v in
        let has := hasProperties cleaned in
        let cleaned := obj_set "type" (JString "object") cleaned in
        if has then cleaned
        else
          obj_set "required" (JArray [JString EMPTY_SCHEMA_PLACEHOLDER_NAME])
            (obj_set "properties" placeholder_properties cleaned)
      else createPlaceholderSchema
  | None => createPlaceholderSchema
  end.

(** [/[^a-zA-Z0-9_-]/] on one code unit, negated. *)
Definition is_tool_name_char (c : N) : bool :=
  ((97 <=? c) && (c <=? 122) || (65 <=? c) && (c <=? 90)
   || (48 <=? c) && (c <=? 57) || (c =? 95) || (c =? 45))%N.

Definition sanitizeToolName (name : list N) : list N :=
  take 64 ((λ c, if is_tool_name_char c then c else 95%N) <$> name).

Record OpenAITool := mkOpenAITool {
  tool_type : string;
  tool_name : list N;
  tool_description : option string;
  tool_parameters : option json
}.

Record GeminiFunctionDeclaration := mkDeclaration {
  decl_name : list N;
  decl_description : string;
  decl_parameters : option json
}.

Record GeminiTool := mkGeminiTool {
  functionDeclarations : list GeminiFunctionDeclaration
}.

Definition convertToolsToFunctionDeclarations (tools : list OpenAITool)
    (isClaude : bool) : list GeminiTool :=
  let functionDeclarations :=
    omap (λ tool,
            if String.eqb (tool_type tool) "function" then
              let parameters := tool_parameters tool in
              let parameters :=
                if isClaude
                then Some (JObject (cleanSchemaForClaude parameters))
                else parameters in
              Some (mkDeclaration (sanitizeToolName (tool_name tool))
                      (default EmptyString (tool_description tool))
                      parameters)
            else None) tools in
  match functionDeclarations with
  | [] => []
  | _ => [mkGeminiTool functionDeclarations]
  end.

(** The regular expression [/\/models\/([^:/?]+)/] of
    [extractModelFromUrl]. *)
Definition models_prefix : list N := [47; 109; 111; 100; 101; 108; 115; 47]%N.

Definition is_model_char (c : N) : bool :=
  negb ((c =? 58) || (c =? 47) || (c =? 63))%N.

Fixpoint match_literal (literal s : list N) : option (list N) :=
  match literal, s with
  | [], _ => Some s
  | c :: literal', d :: s' =>
      if (c =? d)%N then match_literal literal' s' else None
  | _ :: _, [] => None
  end.

Fixpoint take_while {A} (f : A → bool) (l : list A) : list A :=
  match l with
  | [] => []
  | x :: rest => if f x then x :: take_while f rest else []
  end.

(** The match attempted at the start of [s]: the capture group. *)
Definition match_model_here (s : list N) : option (list N) :=
  match match_literal models_prefix s with
  | Some rest =>
      match take_while is_model_char rest with
      | [] => None
      | model => Some model
      end
  | None => None
  end.

(** The leftmost match. *)
Fixpoint extractModelFromUrl (url : list N) : option (list N) :=
  match match_model_here url with
  | Some model => Some model
  | None =>
      match url with
      | [] => None
      | _ :: rest => extractModelFromUrl rest
      end
  end.

(** Two tools, one of them not a function, named [get weather!] and
    [calc]. *)
Definition sample_tools : list OpenAITool :=
  [mkOpenAITool "function"
     [103; 101; 116; 32; 119; 101; 97; 116; 104; 101; 114; 33]%N
     None (Some (JObject [("title", JString "t")]));
   mkOpenAITool "retrieval" [99; 97; 108; 99]%N (Some "unused") None].

(** [https://h/v1/models/gemini-pro:generate] as code units. *)
Definition sample_url : list N :=
  [104; 116; 116; 112; 115; 58; 47; 47; 104; 47; 118; 49;
   47; 109; 111; 100; 101; 108; 115; 47;
   103; 101; 109; 105; 110; 105; 45; 112; 114; 111;
   58; 103; 101; 110; 101; 114; 97; 116; 101]%N.

(** ** Messages *)

Inductive OpenAIRole := RoleSystem | RoleUser | RoleAssistant.

#[global] Instance OpenAIRole_eq_dec : EqDecision OpenAIRole.
Proof. solve_decision. Defined.

Record ContentBlock := mkBlock {
  block_type : string;
  block_text : option string;
  block_image_url : option string
}.

(** [content: string | Array<...>]. *)
Inductive MessageContent :=
| TextContent (text : string)
| BlockContent (blocks : list ContentBlock).

Record ToolCall := mkToolCall {
  call_id : string;
  call_name : string;
  call_arguments : string
}.

Record OpenAIMessage := mkMessage {
  msg_role : OpenAIRole;
  msg_content : MessageContent;
  msg_tool_calls : option (list ToolCall);
  msg_tool_call_id : option string;
  msg_name : option string
}.

Inductive GeminiPart :=
| TextPart (text : string)
| FunctionCallPart (name : string) (args : json) (id : string)
| FunctionResponsePart (name : string) (result : string) (id : string).

Inductive GeminiRole := GeminiUser | GeminiModel.

Record GeminiContent := mkContent {
  content_role : GeminiRole;
  content_parts : list GeminiPart
}.

(** A string in a condition: true when it is not empty. *)
Definition truthy (s : string) : bool :=
  match s with EmptyString => false | _ => true end.

Definition newline : string := String (Ascii.ascii_of_nat 10) EmptyString.

(** The text of a system message; [join] prints a missing [text] as the
    empty string. *)
Definition system_text (content : MessageContent) : string :=
  match content with
  | TextContent text => text
  | BlockContent blocks =>
      String.concat newline
        ((λ c, default EmptyString (block_text c))
           <$> filter (λ c, block_type c = "text") blocks)
  end.

Definition content_text_parts (content : MessageContent) : list GeminiPart :=
  match content with
  | TextContent text => if truthy text then [TextPart text] else []
  | BlockContent blocks =>
      omap (λ block,
              if String.eqb (block_type block) "text" then
                match block_text block with
                | Some text => if truthy text then Some (TextPart text)
                               else None
                | None => None
                end
              else None) blocks
  end.

Section Messages.

(** [JSON.parse] ([None] when it throws) and [JSON.stringify] on a content
    array are the runtime's. *)
Variable JSON_parse : string → option json.
Variable JSON_stringify : list ContentBlock → string.

Definition tool_call_parts (calls : option (list ToolCall))
  : list GeminiPart :=
  match calls with
  | Some l =>
      (λ toolCall,
         FunctionCallPart (call_name toolCall)
           (default (JObject []) (JSON_parse (call_arguments toolCall)))
           (call_id toolCall)) <$> l
  | None => []
  end.

Definition tool_response_parts (message : OpenAIMessage)
  : list GeminiPart :=
  match msg_role message, msg_tool_call_id message with
  | RoleUser, Some id =>
      if truthy id then
        let responseContent :=
          match msg_content message with
          | TextContent text => text
          | BlockContent blocks => JSON_stringify blocks
          end in
        [FunctionResponsePart
           (match msg_name message with
            | Some n => if truthy n then n else "unknown"
            | None => "unknown"
            end)
           responseContent id]
      else []
  | _, _ => []
  end.

(** The parts collected for a message that is not a system message. *)
Definition message_parts (message : OpenAIMessage) : list GeminiPart :=
  content_text_parts (msg_content message)
  ++ tool_call_parts (msg_tool_calls message)
  ++ tool_response_parts message.

(** One iteration of the loop: the contents and the parts of
    [systemInstruction] so far. *)
Definition convert_message
    (acc : list GeminiContent * option (list string))
    (message : OpenAIMessage) : list GeminiContent * option (list string) :=
  match msg_role message with
  | RoleSystem =>
      let text := system_text (msg_content message) in
      (acc.1,
       Some (match acc.2 with
             | Some parts => parts ++ [text]
             | None => [text]
             end))
  | _ =>
      let role :=
        match msg_role message with
        | RoleAssistant => GeminiModel
        | _ => GeminiUser
        end in
      let parts := message_parts message in
      if (0 <? length parts)%nat
      then (acc.1 ++ [mkContent role parts], acc.2)
      else acc
  end.

Definition convertMessagesToContents (messages : list OpenAIMessage)
  : list GeminiContent * option (list string) :=
  foldl convert_message ([], None) messages.

(** The content a message contributes, if any. *)
Definition content_of (message : OpenAIMessage) : option GeminiContent :=
  match msg_role message with
  | RoleSystem => None
  | RoleAssistant =>
      match message_parts message with
      | [] => None
      | parts => Some (mkContent GeminiModel parts)
      end
  | RoleUser =>
      match message_parts message with
      | [] => None
      | parts => Some (mkContent GeminiUser parts)
      end
  end.

(** The texts of the system messages, in order. *)
Definition system_texts (messages : list OpenAIMessage) : list string :=
  (system_text ∘ msg_content)
    <$> filter (λ m, msg_role m = RoleSystem) messages.

End Messages.

(** [systemInstruction] after more system texts have been pushed. *)
Definition push_system_texts (instruction : option (list string))
    (texts : list string) : option (list string) :=
  match texts with
  | [] => instruction
  | _ => Some (default [] instruction ++ texts)
  end.

(** A small conversation: a system prompt, an empty user message, an
    assistant message with a tool call and the tool's answer. *)
Definition sample_messages : list OpenAIMessage :=
  [mkMessage RoleSystem (TextContent "be brief") None None None;
   mkMessage RoleUser (TextContent EmptyString) None None None;
   mkMessage RoleAssistant (TextContent EmptyString)
     (Some [mkToolCall "call-1" "lookup" "{}"]) None None;
   mkMessage RoleUser (TextContent "42") None (Some "call-1") None].

(** * The user agent

    The pure helpers of [plugins/antigravity-auth/lib/antigravity-headers.ts].
    Texts are lists of UTF-16 code units. *)

(** The code units of an ASCII literal. *)
Definition units (s : string) : list N :=
  Ascii.N_of_ascii <$> String.list_ascii_of_string s.

(** [\d] and [\w]. *)
Definition is_digit (c : N) : bool := ((48 <=? c) && (c <=? 57))%N.

Definition is_word_char (c : N) : bool :=
  (is_digit c || (97 <=? c) && (c <=? 122) || (65 <=? c) && (c <=? 90)
   || (c =? 95))%N.

(** Matching under the [i] flag against a lower-case ASCII pattern: only
    the two ASCII cases of a letter canonicalize to it. *)
Definition to_lower_ascii (c : N) : N :=
  if ((65 <=? c) && (c <=? 90))%N then (c + 32)%N else c.

Fixpoint match_literal_ci (literal s : list N) : option (list N) :=
  match literal, s with
  | [], _ => Some s
  | c :: literal', d :: s' =>
      if (c =? to_lower_ascii d)%N then match_literal_ci literal' s' else None
  | _ :: _, [] => None
  end.

(** [\d+\.] at the start of [s]: the digits and what follows the dot.  The
    greedy [\d+] takes the whole run of digits; a shorter run is followed
    by a digit, not by the dot. *)
Definition digits_then_dot (s : list N) : option (list N * list N) :=
  let digits := take_while is_digit s in
  match digits, drop (length digits) s with
  | _ :: _, c :: rest => if (c =? 46)%N then Some (digits, rest) else None
  | _, _ => None
  end.

(** [(\d+\.\d+\.\d+)] at the start of [s]: the capture and the rest. *)
Definition version_here (s : list N) : option (list N * list N) :=
  match digits_then_dot s with
  | Some (major, s1) =>
      match digits_then_dot s1 with
      | Some (minor, s2) =>
          match take_while is_digit s2 with
          | [] => None
          | patch =>
              Some (major ++ [46%N] ++ minor ++ [46%N] ++ patch,
                    drop (length patch) s2)
          end
      | None => None
      end
  | None => None
  end.

Definition ua_prefix : list N := units "antigravity/".

(** [text.match(UA_VERSION_REGEX)?.[1]], the regular expression being
    [/antigravity\/(\d+\.\d+\.\d+)/i]. *)
Fixpoint ua_version_match (text : list N) : option (list N) :=
  let here :=
    match match_literal_ci ua_prefix text with
    | Some rest => fst <$> version_here rest
    | None => None
    end in
  match here with
  | Some version => Some version
  | None =>
      match text with
      | [] => None
      | _ :: rest => ua_version_match rest
      end
  end.

(** [text.match(VERSION_REGEX)?.[1]], the regular expression being
    [/\b(\d+\.\d+\.\d+)\b/]; [previous] is the code unit before [text].
    Before a digit [\b] asks for no word character in front; after the
    last digit it asks for none behind, and giving back digits of the
    greedy run does not help. *)
Fixpoint version_match (previous : option N) (text : list N)
  : option (list N) :=
  let boundary :=
    match previous with
    | Some p => negb (is_word_char p)
    | None => true
    end in
  let here :=
    if boundary then
      match version_here text with
      | Some (version, rest) =>
          match rest with
          | [] => Some version
          | c :: _ => if is_word_char c then None else Some version
          end
      | None => None
      end
    else None in
  match here with
  | Some version => Some version
  | None =>
      match text with
      | [] => None
      | c :: rest => version_match (Some c) rest
      end
  end.

Definition parseVersionFromText (text : list N) : option (list N) :=
  match ua_version_match text with
  | Some version => Some version
  | None => version_match None text
  end.

Definition list_eqb (a b : list N) : bool := bool_decide (a = b).

(** [buildPlatformTag], of [process.platform] and [process.arch]. *)
Definition buildPlatformTag (platform arch : list N) : list N :=
  let platform' :=
    if list_eqb platform (units "win32") then units "windows"
    else if list_eqb platform (units "darwin") then units "Darwin"
    else if list_eqb platform (units "linux") then units "linux"
    else platform in
  let arch' :=
    if list_eqb arch (units "x64") then units "amd64"
    else if list_eqb arch (units "arm64") then units "arm64"
    else if list_eqb arch (units "ia32") then units "386"
    else arch in
  platform' ++ units "/" ++ arch'.

(** [getAntigravityUserAgent], of the cached version and the platform. *)
Definition getAntigravityUserAgent (cachedVersion platform arch : list N)
  : list N :=
  units "antigravity/" ++ cachedVersion ++ units " "
  ++ buildPlatformTag platform arch.

(** A version number: three non-empty runs of digits separated by dots. *)
Definition is_version (v : list N) : Prop :=
  ∃ major minor patch,
    v = major ++ [46%N] ++ minor ++ [46%N] ++ patch
    ∧ major ≠ [] ∧ minor ≠ [] ∧ patch ≠ []
    ∧ Forall (λ c, is_digit c = true) major
    ∧ Forall (λ c, is_digit c = true) minor
    ∧ Forall (λ c, is_digit c = true) patch.

Definition DEFAULT_ANTIGRAVITY_VERSION : list N := units "1.15.8".

(** Where a version may stand.  [tagged before]: the text in front of it
    ends with the product name and a slash, in any case.  [delimited before
    after]: no word character touches it on either side. *)
Definition tagged (before : list N) : Prop :=
  ∃ front name, before = front ++ name ∧ to_lower_ascii <$> name = ua_prefix.

Definition boundary_before (previous : option N) (before : list N) : Prop :=
  match last before, previous with
  | Some c, _ | None, Some c => is_word_char c = false
  | None, None => True
  end.

Definition boundary_after (after : list N) : Prop :=
  match after with
  | c :: _ => is_word_char c = false
  | [] => True
  end.

Definition delimited (before after : list N) : Prop :=
  boundary_before None before ∧ boundary_after after.

(** * Properties *)

(** ** Purging expired limits *)

Example clear_ex :
  rateLimitResetTimes (clearExpiredRateLimits 10
    (mkAccount 0 None "p" "r" None None 0 0
       (<[QClaude := 10]> (<[QGeminiCli := 11]> ∅)) None))
  = <[QGeminiCli := 11]> ∅.
Proof. vm_compute. reflexivity. Qed.

Lemma purge_idemp now o : purge now (purge now o) = purge now o.
Proof.
  destruct o as [t|]; simpl; [|done].
  destruct (now >=? t) eqn:E; simpl; [done | by rewrite E].
Qed.

Lemma clear_step_lookup now (m : gmap QuotaKey Z) key k :
  clear_step now m key !! k =
  if decide (k = key) then purge now (m !! k) else m !! k.
Proof.
  unfold clear_step. case_decide as Hk.
  - subst k. destruct (m !! key) as [t|] eqn:E; simpl.
    + destruct (now >=? t); [by rewrite lookup_delete_eq | done].
    + done.
  - destruct (m !! key) as [t|]; [|done].
    destruct (now >=? t); [by rewrite lookup_delete_ne | done].
Qed.

Lemma foldl_clear_step_lookup now keys (m : gmap QuotaKey Z) k :
  foldl (clear_step now) m keys !! k =
  if decide (k ∈ keys) then purge now (m !! k) else m !! k.
Proof.
  revert m. induction keys as [|key keys IH]; intros m.
  - destruct (decide (k ∈ [])) as [H|_]; [by apply elem_of_nil in H | done].
  - change (foldl (clear_step now) m (key :: keys))
      with (foldl (clear_step now) (clear_step now m key) keys).
    rewrite IH, clear_step_lookup.
    destruct (decide (k = key)) as [->|Hne].
    + rewrite purge_idemp.
      destruct (decide (key ∈ key :: keys)) as [_|Hn].
      * by case_decide.
      * exfalso. apply Hn. apply list_elem_of_here.
    + destruct (decide (k ∈ keys)) as [Hin|Hnin];
        destruct (decide (k ∈ key :: keys)) as [Hin'|Hnin']; try done.
      * exfalso. apply Hnin'. by apply list_elem_of_further.
      * apply elem_of_cons in Hin' as [?|?]; done.
Qed.

Lemma clearExpiredRateLimits_lookup now account k :
  rateLimitResetTimes (clearExpiredRateLimits now account) !! k =
  purge now (rateLimitResetTimes account !! k).
Proof.
  unfold clearExpiredRateLimits; simpl.
  rewrite foldl_clear_step_lookup. case_decide as Hin; [done|].
  destruct (rateLimitResetTimes account !! k) as [t|] eqn:E; [|done].
  exfalso. apply Hin. unfold Object_keys.
  apply list_elem_of_fmap. exists (k, t). split; [done|].
  by apply elem_of_map_to_list.
Qed.


Lemma clearExpiredRateLimits_unexpired now account :
  rateLimitResetTimes (clearExpiredRateLimits now account) =
  unexpired now (rateLimitResetTimes account).
Proof.
  apply map_eq; intros k. rewrite clearExpiredRateLimits_lookup.
  apply option_eq; intros t. unfold unexpired.
  rewrite map_lookup_filter_Some; simpl.
  destruct (rateLimitResetTimes account !! k) as [t'|]; simpl.
  - destruct (now >=? t') eqn:E.
    + split; [done|]. intros [[= ->] ?]. lia.
    + split; [intros [= ->]; split; [done|lia] | by intros [? _]].
  - split; [done | by intros [? _]].
Qed.

Lemma clearExpiredRateLimits_fields now a :
  clearExpiredRateLimits now a =
  set_rateLimitResetTimes (unexpired now (rateLimitResetTimes a)) a.
Proof.
  rewrite <- clearExpiredRateLimits_unexpired. by destruct a.
Qed.

(** ** Eligibility *)

Lemma isRateLimitedForQuotaKey_spec now account key :
  isRateLimitedForQuotaKey now account key = true
  ↔ pool_limited now account key.
Proof.
  unfold isRateLimitedForQuotaKey, pool_limited.
  destruct (rateLimitResetTimes account !! key) as [t|].
  - rewrite Z.ltb_lt. split; [by exists t | by intros (? & [= ->] & ?)].
  - split; [done | by intros (? & ? & _)].
Qed.

Lemma isRateLimitedForQuotaKey_open now account key :
  isRateLimitedForQuotaKey now account key = false
  ↔ ¬ pool_limited now account key.
Proof.
  rewrite <- isRateLimitedForQuotaKey_spec.
  by destruct (isRateLimitedForQuotaKey now account key).
Qed.

Lemma isRateLimitedForQuotaKey_clear now account key :
  isRateLimitedForQuotaKey now (clearExpiredRateLimits now account) key =
  isRateLimitedForQuotaKey now account key.
Proof.
  unfold isRateLimitedForQuotaKey.
  rewrite clearExpiredRateLimits_lookup.
  destruct (rateLimitResetTimes account !! key) as [t|]; simpl; [|done].
  destruct (now >=? t) eqn:E; [|done].
  symmetry. apply Z.ltb_ge. lia.
Qed.

Lemma isRateLimitedForFamily_clear now account family :
  isRateLimitedForFamily now (clearExpiredRateLimits now account) family =
  isRateLimitedForFamily now account family.
Proof.
  destruct family; simpl; by rewrite !isRateLimitedForQuotaKey_clear.
Qed.

(** Fewer entries never close a pool. *)
Lemma isRateLimitedForQuotaKey_mono now a a' key :
  rateLimitResetTimes a' ⊆ rateLimitResetTimes a →
  isRateLimitedForQuotaKey now a key = false →
  isRateLimitedForQuotaKey now a' key = false.
Proof.
  intros Hsub. unfold isRateLimitedForQuotaKey.
  destruct (rateLimitResetTimes a' !! key) as [t|] eqn:E; [|done].
  by rewrite (lookup_weaken _ _ _ _ E Hsub).
Qed.

Lemma isRateLimitedForFamily_mono now a a' family :
  rateLimitResetTimes a' ⊆ rateLimitResetTimes a →
  isRateLimitedForFamily now a family = false →
  isRateLimitedForFamily now a' family = false.
Proof.
  intros Hsub. destruct family; simpl.
  - by apply isRateLimitedForQuotaKey_mono.
  - intros [H|H]%andb_false_iff; apply andb_false_iff; [left|right];
      by eapply isRateLimitedForQuotaKey_mono.
Qed.

Lemma clearExpiredRateLimits_subseteq now a :
  rateLimitResetTimes (clearExpiredRateLimits now a) ⊆ rateLimitResetTimes a.
Proof.
  rewrite clearExpiredRateLimits_unexpired. apply map_filter_subseteq.
Qed.

(** C3: an account is rate-limited for gemini exactly when both gemini
    pools are closed (entry present and unexpired); for gemini,
    [getAvailableHeaderStyle] answers antigravity when the
    gemini-antigravity pool is open, otherwise gemini-cli when that pool is
    open, otherwise null. *)
Theorem gemini_dual_pool now account :
  (isRateLimitedForFamily now account Gemini = true
   ↔ pool_limited now account QGeminiAntigravity
     ∧ pool_limited now account QGeminiCli)
  ∧ ∀ p st,
      accounts st !! p = Some account →
      (¬ pool_limited now account QGeminiAntigravity →
       (getAvailableHeaderStyle now p Gemini st).1 = Some Antigravity)
      ∧ (pool_limited now account QGeminiAntigravity →
         ¬ pool_limited now account QGeminiCli →
         (getAvailableHeaderStyle now p Gemini st).1 = Some GeminiCli)
      ∧ (pool_limited now account QGeminiAntigravity →
         pool_limited now account QGeminiCli →
         (getAvailableHeaderStyle now p Gemini st).1 = None).
Proof.
  split.
  { simpl. rewrite andb_true_iff. by rewrite !isRateLimitedForQuotaKey_spec. }
  intros p st Hp.
  unfold getAvailableHeaderStyle, availableHeaderStyle. rewrite Hp. simpl.
  rewrite !isRateLimitedForQuotaKey_clear.
  split; [|split].
  - intros H%isRateLimitedForQuotaKey_open. by rewrite H.
  - intros H1%isRateLimitedForQuotaKey_spec H2%isRateLimitedForQuotaKey_open.
    by rewrite H1, H2.
  - intros H1%isRateLimitedForQuotaKey_spec H2%isRateLimitedForQuotaKey_spec.
    by rewrite H1, H2.
Qed.

Lemma gemini_dual_pool_witness :
  (getAvailableHeaderStyle 10 0 Gemini (holding [antigravity_closed])).1
  = Some GeminiCli.
Proof.
  refine (proj1 (proj2 (proj2 (gemini_dual_pool 10 antigravity_closed) 0%nat
    (holding [antigravity_closed]) eq_refl)) _ _).
  - exists 50. split; [reflexivity | lia].
  - intros (t & Ht & _). vm_compute in Ht. discriminate Ht.
Defined.

(** ** Lists of accounts *)

Lemma fmap_alter_preserved {A B} (h : A → B) (g : A → A) p (l : list A) :
  (∀ x, h (g x) = h x) → h <$> alter g p l = h <$> l.
Proof.
  intros Hg. revert p. induction l as [|x l IH]; intros [|p]; simpl; try done.
  - by rewrite Hg.
  - f_equal. apply IH.
Qed.

Lemma fmap_insert_preserved {A B} (h : A → B) p x y (l : list A) :
  l !! p = Some x → h y = h x → h <$> <[p := y]> l = h <$> l.
Proof.
  intros Hp Hh. rewrite list_fmap_insert, Hh.
  apply list_insert_id. by rewrite list_lookup_fmap, Hp.
Qed.

Lemma insert_as_alter {A} (g : A → A) p x (l : list A) :
  l !! p = Some x → <[p := g x]> l = alter g p l.
Proof.
  revert p. induction l as [|y l IH]; intros [|p] H; simpl in *;
    simplify_eq; f_equal; auto.
Qed.

Lemma alter_out_of_range {A} (g : A → A) p (l : list A) :
  l !! p = None → alter g p l = l.
Proof.
  revert p. induction l as [|y l IH]; intros [|p] H; try done.
  simpl in *. f_equal. by apply IH.
Qed.

Lemma indexed_fmap l l' :
  index <$> l' = index <$> l → indexed l → indexed l'.
Proof.
  intros Heq Hl p a' Hp.
  assert ((index <$> l') !! p = Some (index a')) as H
    by (by rewrite list_lookup_fmap, Hp).
  rewrite Heq, list_lookup_fmap in H.
  destruct (l !! p) as [a|] eqn:E; [|done].
  injection H as <-. by apply Hl.
Qed.

Lemma filter_available_accounts now family pos l :
  (filter_available now family pos l).1 = clearExpiredRateLimits now <$> l.
Proof.
  revert pos. induction l as [|a l IH]; intros pos; simpl; [done|].
  specialize (IH (S pos)).
  destruct (filter_available now family (S pos) l) as [rest' available].
  simpl in *. by rewrite IH.
Qed.

Lemma filter_available_bound now family pos l q :
  q ∈ (filter_available now family pos l).2 → (pos ≤ q < pos + length l)%nat.
Proof.
  revert pos. induction l as [|a l IH]; intros pos; simpl.
  - by intros ?%elem_of_nil.
  - specialize (IH (S pos)).
    destruct (filter_available now family (S pos) l) as [rest' available].
    simpl in *.
    destruct (negb _); [intros [->|Hq]%elem_of_cons | intros Hq];
      try specialize (IH Hq); lia.
Qed.

Lemma filter_available_all now family pos l :
  Forall (λ a, isRateLimitedForFamily now a family = false) l →
  (filter_available now family pos l).2 = seq pos (length l).
Proof.
  intros Hall. revert pos.
  induction Hall as [|a l Ha _ IH]; intros pos; simpl; [done|].
  specialize (IH (S pos)).
  destruct (filter_available now family (S pos) l) as [rest' available].
  simpl in *. rewrite isRateLimitedForFamily_clear, Ha. simpl. by rewrite IH.
Qed.

Lemma pick_elem cur available p :
  pick cur available = Some p → p ∈ available.
Proof.
  unfold pick. destruct (_ <? 0); [done|].
  intros H. apply list_elem_of_lookup. eauto.
Qed.

(** The two outcomes of a rotation step. *)
Lemma getNextForFamily_cases now family st :
  let accs := clearExpiredRateLimits now <$> accounts st in
  getNextForFamily now family st = (None, with_accounts accs st)
  ∨ ∃ p, (p < length (accounts st))%nat
         ∧ p ∈ (filter_available now family 0 (accounts st)).2
         ∧ getNextForFamily now family st =
           (Some p,
            mkManager (alter (set_lastUsed now) p accs) (cursor st + 1)
              (currentAccountIndexByFamily st)).
Proof.
  intros accs. unfold getNextForFamily.
  pose proof (filter_available_accounts now family 0 (accounts st)) as Hacc.
  pose proof (filter_available_bound now family 0 (accounts st)) as Hb.
  destruct (filter_available now family 0 (accounts st)) as [accs' available].
  simpl in *. subst accs'. fold accs.
  destruct (length available =? 0)%nat; [by left|].
  destruct (pick (cursor st) available) as [p|] eqn:Hpick; [|by left].
  right. exists p. apply pick_elem in Hpick.
  split; [apply Hb in Hpick; lia | done].
Qed.

Lemma every_limited_result now family l :
  (every_limited now family l).1 =
  forallb (λ a, isRateLimitedForFamily now a family) l.
Proof.
  induction l as [|a l IH]; simpl; [done|].
  rewrite isRateLimitedForFamily_clear.
  destruct (isRateLimitedForFamily now a family); [|done].
  by destruct (every_limited now family l).
Qed.

Lemma every_limited_index now family l :
  index <$> (every_limited now family l).2 = index <$> l.
Proof.
  induction l as [|a l IH]; simpl; [done|].
  destruct (isRateLimitedForFamily now _ family); [|done].
  destruct (every_limited now family l) as [b rest]. simpl in *.
  by f_equal.
Qed.

Lemma every_limited_limits now family l :
  rateLimitResetTimes <$> (every_limited now family l).2 =
  (unexpired now <$> take (visited now family l) (rateLimitResetTimes <$> l))
  ++ drop (visited now family l) (rateLimitResetTimes <$> l).
Proof.
  induction l as [|a l IH]; simpl; [done|].
  rewrite isRateLimitedForFamily_clear.
  destruct (isRateLimitedForFamily now a family); simpl.
  - destruct (every_limited now family l) as [b rest]. simpl in *.
    rewrite <- clearExpiredRateLimits_unexpired. simpl. by f_equal.
  - by rewrite <- clearExpiredRateLimits_unexpired.
Qed.

(** ** The empty store *)

(** C1, as the code has it: with zero accounts [allAccountsRateLimited]
    answers true, the vacuous truth of [Array.prototype.every], and leaves
    the registry as it was; telling the empty store from an exhausted one
    is left to the caller's test of [getAccountCount]. *)
Theorem allAccountsRateLimited_empty now family st :
  getAccountCount st = 0 →
  allAccountsRateLimited now family st = (true, st).
Proof.
  unfold getAccountCount, allAccountsRateLimited. intros H.
  destruct st as [[|a l] c cur]; simpl in *; [done | lia].
Qed.

Lemma allAccountsRateLimited_empty_witness :
  getAccountCount initial = 0
  ∧ allAccountsRateLimited 7 Gemini initial = (true, initial).
Proof.
  split; [reflexivity|].
  apply (allAccountsRateLimited_empty 7 Gemini initial). reflexivity.
Defined.

(** The claim that an empty store is never reported as all rate limited
    fails on the freshly constructed manager. *)
Lemma empty_store_reported_limited :
  getAccountCount initial = 0
  ∧ (allAccountsRateLimited 7 Claude initial).1 ≠ false.
Proof. split; [reflexivity | discriminate]. Qed.

(** ** Lazy expiry *)

Lemma unexpired_lookup now (m : gmap QuotaKey Z) k t :
  unexpired now m !! k = Some t ↔ m !! k = Some t ∧ now < t.
Proof. unfold unexpired. by rewrite map_lookup_filter_Some. Qed.

Lemma clearExpiredRateLimits_idemp now a :
  clearExpiredRateLimits now (clearExpiredRateLimits now a) =
  clearExpiredRateLimits now a.
Proof.
  rewrite (clearExpiredRateLimits_fields now (clearExpiredRateLimits now a)).
  rewrite clearExpiredRateLimits_unexpired.
  rewrite (clearExpiredRateLimits_fields now a).
  unfold set_rateLimitResetTimes; simpl. f_equal.
  apply map_eq; intros k. apply option_eq; intros t.
  rewrite !unexpired_lookup. tauto.
Qed.

Lemma limits_clear now (l : list ManagedAccount) :
  rateLimitResetTimes <$> (clearExpiredRateLimits now <$> l) =
  unexpired now <$> (rateLimitResetTimes <$> l).
Proof.
  rewrite <- !list_fmap_compose. apply list_fmap_ext.
  intros i a _. apply clearExpiredRateLimits_unexpired.
Qed.

Lemma limits_clear_at now p (l : list ManagedAccount) :
  rateLimitResetTimes <$> alter (clearExpiredRateLimits now) p l =
  alter (unexpired now) p (rateLimitResetTimes <$> l).
Proof.
  apply list_fmap_alter, Forall_forall. intros a _.
  apply clearExpiredRateLimits_unexpired.
Qed.

Lemma getNextForFamily_limits now family st :
  limits (getNextForFamily now family st).2 = unexpired now <$> limits st.
Proof.
  unfold limits.
  destruct (getNextForFamily_cases now family st) as [->|(p & _ & _ & ->)];
    simpl.
  - apply limits_clear.
  - rewrite fmap_alter_preserved by done. apply limits_clear.
Qed.

Lemma switch_to_next_limits now family st :
  limits (switch_to_next now family st).2 = unexpired now <$> limits st.
Proof.
  unfold switch_to_next.
  pose proof (getNextForFamily_limits now family st) as H.
  destruct (getNextForFamily now family st) as [[q|] st1]; simpl in *;
    [|done].
  destruct (accounts st1 !! q); [|done].
  unfold limits in *. simpl. by rewrite fmap_alter_preserved.
Qed.

Lemma getCurrentOrNextForFamily_limits now family st :
  limits (getCurrentOrNextForFamily now family st).2 =
  match sticky_eligible now family st with
  | Some p => alter (unexpired now) p (limits st)
  | None => unexpired now <$> limits st
  end.
Proof.
  unfold getCurrentOrNextForFamily, sticky_eligible.
  destruct (getCurrentAccountForFamily st family) as [p|]; simpl;
    [|apply switch_to_next_limits].
  destruct (accounts st !! p) as [current|] eqn:Hp; simpl;
    [|apply switch_to_next_limits].
  rewrite isRateLimitedForFamily_clear.
  destruct (isRateLimitedForFamily now current family); simpl.
  - rewrite switch_to_next_limits. unfold limits; simpl.
    rewrite <- !limits_clear. f_equal.
    rewrite list_fmap_insert, clearExpiredRateLimits_idemp.
    apply list_insert_id. by rewrite list_lookup_fmap, Hp.
  - unfold limits; simpl.
    rewrite (insert_as_alter (λ a, set_lastUsed now
                                     (clearExpiredRateLimits now a)) _ _ _ Hp).
    apply list_fmap_alter, Forall_forall. intros a _. simpl.
    apply clearExpiredRateLimits_unexpired.
Qed.

Lemma getAvailableHeaderStyle_limits now p family st :
  limits (getAvailableHeaderStyle now p family st).2 =
  alter (unexpired now) p (limits st).
Proof.
  unfold getAvailableHeaderStyle, limits.
  destruct (accounts st !! p) as [account|] eqn:Hp; simpl.
  - rewrite (insert_as_alter (clearExpiredRateLimits now) _ _ _ Hp).
    apply limits_clear_at.
  - symmetry. apply alter_out_of_range. by rewrite list_lookup_fmap, Hp.
Qed.

Lemma allAccountsRateLimited_limits now family st :
  limits (allAccountsRateLimited now family st).2 =
  (unexpired now <$> take (visited now family (accounts st)) (limits st))
  ++ drop (visited now family (accounts st)) (limits st).
Proof.
  unfold allAccountsRateLimited, limits.
  pose proof (every_limited_limits now family (accounts st)) as H.
  by destruct (every_limited now family (accounts st)).
Qed.

Lemma limits_reindex l :
  rateLimitResetTimes <$> reindex l = rateLimitResetTimes <$> l.
Proof.
  unfold reindex. apply list_eq; intros i.
  rewrite !list_lookup_fmap, list_lookup_imap.
  by destruct (l !! i).
Qed.

Lemma removeAccount_limits idx st :
  limits (removeAccount idx st).2 =
  if (idx <? 0) || (idx >=? getAccountCount st) then limits st
  else delete (Z.to_nat idx) (limits st).
Proof.
  unfold removeAccount, limits, getAccountCount.
  destruct ((idx <? 0) || _); [done|].
  destruct (length _ =? 0)%nat; simpl;
    by rewrite limits_reindex, list_fmap_delete.
Qed.

Lemma addAccount_limits now tokens st :
  limits (addAccount now tokens st).2 =
  match find_pos (same_credential tokens) (accounts st) with
  | Some _ => limits st
  | None => limits st ++ [∅]
  end.
Proof.
  unfold addAccount, limits.
  destruct (find_pos _ _); simpl.
  - by rewrite fmap_alter_preserved.
  - by rewrite fmap_app.
Qed.

Lemma expired_entry_ignored now account key resetTime k :
  rateLimitResetTimes account !! key = Some resetTime →
  resetTime ≤ now →
  isRateLimitedForQuotaKey now account k =
  isRateLimitedForQuotaKey now
    (set_rateLimitResetTimes (delete key (rateLimitResetTimes account))
       account) k.
Proof.
  intros Hkey Hle. unfold isRateLimitedForQuotaKey; simpl.
  destruct (decide (key = k)) as [->|Hne].
  - rewrite Hkey, lookup_delete_eq. apply Z.ltb_ge. lia.
  - by rewrite lookup_delete_ne.
Qed.

Lemma availableHeaderStyle_result now account family :
  (availableHeaderStyle now account family).1 =
  match family with
  | Claude =>
      if isRateLimitedForQuotaKey now account QClaude then None
      else Some Antigravity
  | Gemini =>
      if negb (isRateLimitedForQuotaKey now account QGeminiAntigravity)
      then Some Antigravity
      else if negb (isRateLimitedForQuotaKey now account QGeminiCli)
      then Some GeminiCli
      else None
  end.
Proof.
  unfold availableHeaderStyle; simpl.
  by rewrite !isRateLimitedForQuotaKey_clear.
Qed.

(** C6: an entry whose [resetTime <= now] changes the answer of no
    eligibility check, and the four selecting methods delete exactly such
    entries from every account they check: [getNextForFamily] from all
    accounts, [getAvailableHeaderStyle] from its argument,
    [allAccountsRateLimited] from the accounts [every] visits,
    [getCurrentOrNextForFamily] from the sticky account when that one is
    eligible and from all accounts otherwise.  No other method deletes an
    entry from the map of an account that stays in the registry. *)
Theorem lazy_expiry now family st :
  (∀ account key resetTime,
     rateLimitResetTimes account !! key = Some resetTime →
     resetTime ≤ now →
     let without :=
       set_rateLimitResetTimes (delete key (rateLimitResetTimes account))
         account in
     ∀ fam k,
       isRateLimitedForQuotaKey now account k =
         isRateLimitedForQuotaKey now without k
       ∧ isRateLimitedForFamily now account fam =
           isRateLimitedForFamily now without fam
       ∧ (availableHeaderStyle now account fam).1 =
           (availableHeaderStyle now without fam).1)
  ∧ (∀ (m : gmap QuotaKey Z) k t,
       unexpired now m !! k = Some t ↔ m !! k = Some t ∧ ¬ t ≤ now)
  ∧ limits (getCurrentOrNextForFamily now family st).2 =
      match sticky_eligible now family st with
      | Some p => alter (unexpired now) p (limits st)
      | None => unexpired now <$> limits st
      end
  ∧ limits (getNextForFamily now family st).2 = unexpired now <$> limits st
  ∧ (∀ p, limits (getAvailableHeaderStyle now p family st).2 =
          alter (unexpired now) p (limits st))
  ∧ limits (allAccountsRateLimited now family st).2 =
      (unexpired now <$> take (visited now family (accounts st)) (limits st))
      ++ drop (visited now family (accounts st)) (limits st)
  ∧ (∀ tokens, limits (addAccount now tokens st).2 = limits st
               ∨ limits (addAccount now tokens st).2 = limits st ++ [∅])
  ∧ (∀ idx, limits (removeAccount idx st).2 = limits st
            ∨ limits (removeAccount idx st).2 =
              delete (Z.to_nat idx) (limits st))
  ∧ (∀ p retryAfterMs fam headerStyle,
       limits (markRateLimited now p retryAfterMs fam headerStyle st) =
       alter (insert (getQuotaKey fam (default Antigravity headerStyle))
                (now + retryAfterMs)) p (limits st))
  ∧ (∀ p accessToken' expiresAt',
       limits (updateAccountTokens p accessToken' expiresAt' st) = limits st).
Proof.
  split.
  { intros account key resetTime Hkey Hle without fam k.
    pose proof (λ k, expired_entry_ignored now account key resetTime k
                       Hkey Hle) as E.
    fold without in E. split; [apply E | split].
    - destruct fam; simpl; by rewrite <- !E.
    - rewrite !availableHeaderStyle_result.
      destruct fam; by rewrite <- !E. }
  split.
  { intros m k t. rewrite unexpired_lookup.
    split; (intros [? ?]; split; [done | lia]). }
  split; [apply getCurrentOrNextForFamily_limits|].
  split; [apply getNextForFamily_limits|].
  split; [intros p; apply getAvailableHeaderStyle_limits|].
  split; [apply allAccountsRateLimited_limits|].
  split.
  { intros tokens. rewrite addAccount_limits.
    destruct (find_pos _ _); [by left | by right]. }
  split.
  { intros idx. rewrite removeAccount_limits.
    destruct (_ || _); [by left | by right]. }
  split.
  - intros p r fam hs. unfold markRateLimited, limits; simpl.
    apply list_fmap_alter, Forall_forall. by intros a _.
  - intros p a e. unfold updateAccountTokens, limits; simpl.
    by apply fmap_alter_preserved.
Qed.

Lemma lazy_expiry_witness :
  isRateLimitedForFamily 10 antigravity_closed Claude = false
  ∧ limits (getNextForFamily 10 Gemini (holding [antigravity_closed])).2
    = [{[QGeminiAntigravity := 50]}].
Proof.
  split.
  - destruct (proj1 (lazy_expiry 10 Gemini (holding [antigravity_closed]))
      antigravity_closed QClaude 5 eq_refl ltac:(lia) Claude QClaude)
      as (_ & -> & _).
    reflexivity.
  - destruct (lazy_expiry 10 Gemini (holding [antigravity_closed]))
      as (_ & _ & _ & -> & _).
    vm_compute. reflexivity.
Defined.

(** ** The pointers stay valid *)

(** [st'] has the accounts of [st] up to fields other than [index], the
    same sticky pointers, and a cursor that stood still or, the store not
    being empty, advanced by one. *)
Lemma wf_same_shape st st' :
  index <$> accounts st' = index <$> accounts st →
  currentAccountIndexByFamily st' = currentAccountIndexByFamily st →
  cursor st' = cursor st ∨ (accounts st ≠ [] ∧ cursor st' = cursor st + 1) →
  wf st → wf st'.
Proof.
  intros Hidx Hcur Hc [Hi Hp]. split; [by eapply indexed_fmap|].
  assert (length (accounts st') = length (accounts st)) as Hlen.
  { apply (f_equal length) in Hidx. by rewrite !length_fmap in Hidx. }
  unfold pointers_ok, getAccountCount in *. rewrite Hcur, Hlen.
  destruct (decide (accounts st = [])) as [He|Hne].
  - rewrite decide_True.
    + destruct Hp as [Hp1 Hp2]. split; [|done].
      destruct Hc as [->|[? _]]; done.
    + apply length_zero_iff_nil. rewrite Hlen, He. done.
  - rewrite decide_False.
    + destruct Hp as [Hp1 Hp2]. split; [|done].
      destruct Hc as [->|[_ ->]]; lia.
    + intros He. apply Hne, length_zero_iff_nil.
      by rewrite <- Hlen, He.
Qed.

Lemma wf_initial : wf initial.
Proof. split; [by intros p a ?|]. unfold pointers_ok. by rewrite decide_True. Qed.

Lemma wf_loadFromStorage data st : wf (loadFromStorage data st).
Proof.
  unfold loadFromStorage.
  destruct data as [d|]; [|apply wf_initial].
  destruct (length (stored_accounts d) =? 0)%nat eqn:E; [apply wf_initial|].
  apply Nat.eqb_neq in E.
  split; simpl.
  - intros p a. rewrite list_lookup_imap.
    destruct (stored_accounts d !! p); [|done]. by intros [= <-].
  - unfold pointers_ok, getAccountCount; simpl.
    rewrite decide_False.
    2:{ intros He. apply (f_equal length) in He.
        rewrite length_imap in He. simpl in He. lia. }
    rewrite length_imap.
    set (n := Z.of_nat (length (stored_accounts d))).
    assert (Z.max 1 n = n) as -> by lia.
    assert (∀ x, 0 ≤ Z.rem (Z.max 0 x) n < n) as Hb.
    { intros x. apply Z.rem_bound_pos; lia. }
    split; [apply Hb|]. intros []; simpl; apply Hb.
Qed.

Lemma indexed_snoc l a :
  indexed l → index a = Z.of_nat (length l) → indexed (l ++ [a]).
Proof.
  intros Hi Ha q b Hq. apply lookup_app_Some in Hq as [Hq|[Hge Hq]].
  - by apply Hi.
  - apply list_lookup_singleton_Some in Hq as [Hq <-]. lia.
Qed.

Lemma wf_addAccount now tokens st : wf st → wf (addAccount now tokens st).2.
Proof.
  intros Hwf. unfold addAccount.
  destruct (find_pos _ _) as [p|]; simpl.
  - apply (wf_same_shape st); simpl;
      [by apply fmap_alter_preserved | done | by left | done].
  - destruct Hwf as [Hi Hp].
    destruct (length _ =? 1)%nat eqn:E1;
      rewrite length_app in E1; simpl in E1;
      [apply Nat.eqb_eq in E1 | apply Nat.eqb_neq in E1];
      (split; simpl; [by apply indexed_snoc|]);
      unfold pointers_ok, getAccountCount in *; simpl;
      (rewrite decide_False by (by destruct (accounts st)));
      rewrite length_app; simpl.
    + assert (accounts st = []) as He
        by (apply length_zero_iff_nil; lia).
      rewrite decide_True in Hp by done. destruct Hp as [-> _].
      split; [done|]. rewrite He. intros []; simpl; lia.
    + assert (accounts st ≠ []) as Hne.
      { intros He. rewrite He in E1. simpl in E1. lia. }
      rewrite decide_False in Hp by done. destruct Hp as [Hc Hs].
      split; [done|]. intros f. specialize (Hs f). lia.
Qed.

Lemma indexed_reindex l : indexed (reindex l).
Proof.
  intros p a. unfold reindex. rewrite list_lookup_imap.
  destruct (l !! p); [|done]. by intros [= <-].
Qed.

Lemma adjust_pointer_range idx n current :
  0 < n → 0 ≤ current → 0 ≤ adjust_pointer idx n current < n.
Proof.
  intros Hn Hc. unfold adjust_pointer.
  destruct (current >=? idx); lia.
Qed.

Lemma wf_removeAccount idx st : wf st → wf (removeAccount idx st).2.
Proof.
  intros Hwf. unfold removeAccount.
  destruct ((idx <? 0) || _) eqn:Hrange; [done|].
  apply orb_false_iff in Hrange as [H1 H2].
  apply Z.ltb_ge in H1. rewrite Z.geb_leb in H2. apply Z.leb_gt in H2.
  destruct (length _ =? 0)%nat eqn:E; simpl.
  - apply Nat.eqb_eq, length_zero_iff_nil in E. rewrite E.
    apply wf_initial.
  - apply Nat.eqb_neq in E. split; simpl; [apply indexed_reindex|].
    destruct Hwf as [_ Hp].
    unfold pointers_ok, getAccountCount in *; simpl.
    rewrite decide_False by (intros He; by rewrite He in E).
    rewrite decide_False in Hp.
    2:{ intros He. rewrite He in H2. simpl in H2. lia. }
    destruct Hp as [Hc Hs].
    set (n := Z.of_nat (length (reindex (delete (Z.to_nat idx) (accounts st))))).
    assert (0 < n) as Hn by (unfold n; lia).
    split; [lia|].
    intros f.
    pose proof (Hs Claude) as HC. pose proof (Hs Gemini) as HG.
    destruct f; simpl in *; apply adjust_pointer_range; lia.
Qed.

Lemma index_clear now (l : list ManagedAccount) :
  index <$> (clearExpiredRateLimits now <$> l) = index <$> l.
Proof. rewrite <- list_fmap_compose. by apply list_fmap_ext. Qed.

Lemma wf_getNextForFamily now family st :
  wf st → wf (getNextForFamily now family st).2.
Proof.
  intros Hwf.
  destruct (getNextForFamily_cases now family st) as [->|(p & Hp & _ & ->)];
    simpl.
  - apply (wf_same_shape st); simpl;
      [apply index_clear | done | by left | done].
  - apply (wf_same_shape st); simpl; [|done| |done].
    + rewrite fmap_alter_preserved by done. apply index_clear.
    + right. split; [|done]. intros He. rewrite He in Hp. simpl in Hp. lia.
Qed.

Lemma wf_switch_to_next now family st :
  wf st → wf (switch_to_next now family st).2.
Proof.
  intros Hwf. unfold switch_to_next.
  pose proof (wf_getNextForFamily now family st Hwf) as Hwf1.
  destruct (getNextForFamily now family st) as [[q|] st1]; simpl in *;
    [|done].
  destruct (accounts st1 !! q) as [acc|] eqn:Hq; [|done].
  destruct Hwf1 as [Hi Hp]. split; simpl.
  - eapply indexed_fmap; [|exact Hi]. by apply fmap_alter_preserved.
  - pose proof (Hi q acc Hq) as Hidx.
    pose proof (lookup_lt_Some _ _ _ Hq) as Hlt.
    unfold pointers_ok, getAccountCount in *; simpl.
    rewrite length_alter.
    assert (accounts st1 ≠ []) as Hne
      by (intros He; rewrite He in Hq; done).
    rewrite decide_False in Hp by done.
    rewrite decide_False.
    2:{ intros He. apply (f_equal length) in He.
        rewrite length_alter in He. by destruct (accounts st1). }
    destruct Hp as [Hc Hs]. split; [done|].
    intros f. pose proof (Hs f) as Hf.
    destruct family, f; simpl in *; lia.
Qed.

Lemma wf_getCurrentOrNextForFamily now family st :
  wf st → wf (getCurrentOrNextForFamily now family st).2.
Proof.
  intros Hwf. unfold getCurrentOrNextForFamily.
  destruct (getCurrentAccountForFamily st family) as [p|];
    [|by apply wf_switch_to_next].
  destruct (accounts st !! p) as [current|] eqn:Hp;
    [|by apply wf_switch_to_next].
  destruct (negb _); simpl.
  - apply (wf_same_shape st); simpl; [|done|by left|done].
    by eapply fmap_insert_preserved.
  - apply wf_switch_to_next.
    apply (wf_same_shape st); simpl; [|done|by left|done].
    by eapply fmap_insert_preserved.
Qed.

Lemma wf_getAvailableHeaderStyle now p family st :
  wf st → wf (getAvailableHeaderStyle now p family st).2.
Proof.
  intros Hwf. unfold getAvailableHeaderStyle.
  destruct (accounts st !! p) as [account|] eqn:Hp; [|done]. simpl.
  apply (wf_same_shape st); simpl; [|done|by left|done].
  by eapply fmap_insert_preserved.
Qed.

Lemma wf_allAccountsRateLimited now family st :
  wf st → wf (allAccountsRateLimited now family st).2.
Proof.
  intros Hwf. unfold allAccountsRateLimited.
  pose proof (every_limited_index now family (accounts st)) as H.
  destruct (every_limited now family (accounts st)) as [b accs]. simpl in *.
  by apply (wf_same_shape st); simpl; [|done|left|].
Qed.

Lemma wf_exec now c st : wf st → wf (exec now c st).
Proof.
  intros Hwf. destruct c; simpl.
  - apply wf_loadFromStorage.
  - by apply wf_addAccount.
  - by apply wf_removeAccount.
  - by apply wf_getCurrentOrNextForFamily.
  - by apply wf_getNextForFamily.
  - by apply wf_getAvailableHeaderStyle.
  - apply (wf_same_shape st); simpl; [|done|by left|done].
    by apply fmap_alter_preserved.
  - apply (wf_same_shape st); simpl; [|done|by left|done].
    by apply fmap_alter_preserved.
  - by apply wf_allAccountsRateLimited.
Qed.

Lemma wf_run history st : wf st → wf (run history st).
Proof.
  revert st. induction history as [|[now c] history IH]; intros st Hwf.
  - done.
  - apply IH. by apply wf_exec.
Qed.

(** C2, as the code has it: after any history of calls on a fresh manager
    (loads, adds, removals, selections, rate-limit marks, token updates)
    every account's [index] is its position; while the store is empty both
    sticky indices are [-1] and the cursor is 0; while it holds accounts
    both sticky indices lie in [0, accountCount) and the cursor is a
    natural number, which [getNextForFamily] increments without ever
    wrapping it. *)
Theorem pointers_stay_valid history :
  let st := run history initial in
  indexed (accounts st)
  ∧ (getAccountCount st = 0 →
     cursor st = 0
     ∧ ∀ family, get_family (currentAccountIndexByFamily st) family = -1)
  ∧ (0 < getAccountCount st →
     0 ≤ cursor st
     ∧ ∀ family,
         0 ≤ get_family (currentAccountIndexByFamily st) family
           < getAccountCount st).
Proof.
  intros st. destruct (wf_run history initial wf_initial) as [Hi Hp].
  fold st in Hi, Hp. split; [done|].
  unfold pointers_ok, getAccountCount in *.
  destruct (decide (accounts st = [])) as [He|Hne].
  - rewrite He. simpl. split; [|lia].
    intros _. destruct Hp as [-> ->]. split; [done | by intros []].
  - split; [|done]. intros H0. destruct (accounts st); [done | simpl in H0; lia].
Qed.

Lemma pointers_stay_valid_witness :
  let st := run [(1, CallAdd alice); (2, CallNext Claude);
                 (3, CallNext Claude)] initial in
  0 ≤ cursor st
  ∧ ∀ family,
      0 ≤ get_family (currentAccountIndexByFamily st) family
        < getAccountCount st.
Proof.
  apply (pointers_stay_valid [(1, CallAdd alice); (2, CallNext Claude);
                              (3, CallNext Claude)]).
  vm_compute. reflexivity.
Defined.

(** The cursor does leave [0, accountCount): one account, two rotations. *)
Lemma cursor_leaves_range :
  let st := run [(1, CallAdd alice); (2, CallNext Claude);
                 (3, CallNext Claude)] initial in
  0 < getAccountCount st
  ∧ ¬ (0 ≤ cursor st < getAccountCount st).
Proof. vm_compute. split; [reflexivity|]. intros [_ H]. discriminate H. Qed.

(** ** Stickiness *)

Lemma getCurrentAccountForFamily_Some st family p :
  getCurrentAccountForFamily st family = Some p
  ↔ get_family (currentAccountIndexByFamily st) family = Z.of_nat p
    ∧ is_Some (accounts st !! p).
Proof.
  unfold getCurrentAccountForFamily.
  set (idx := get_family (currentAccountIndexByFamily st) family).
  split.
  - destruct ((0 <=? idx) && _) eqn:E; [|done].
    apply andb_true_iff in E as [E1%Z.leb_le _].
    destruct (accounts st !! Z.to_nat idx) as [a|] eqn:Ha; [|done].
    simpl. intros [= <-]. split; [lia | by rewrite Ha].
  - intros [Hidx [a Ha]].
    pose proof (lookup_lt_Some _ _ _ Ha) as Hlt.
    rewrite Hidx, Nat2Z.id, Ha. simpl.
    assert ((0 <=? Z.of_nat p) && (Z.of_nat p <? Z.of_nat (length (accounts st)))
            = true) as ->; [|done].
    apply andb_true_iff. split; [apply Z.leb_le | apply Z.ltb_lt]; lia.
Qed.

Lemma getCurrentOrNextForFamily_sticky now family st p current :
  getCurrentAccountForFamily st family = Some p →
  accounts st !! p = Some current →
  isRateLimitedForFamily now current family = false →
  getCurrentOrNextForFamily now family st =
  (Some p,
   with_accounts
     (<[p := set_lastUsed now (clearExpiredRateLimits now current)]>
        (accounts st)) st).
Proof.
  intros Hcur Hp Hfree. unfold getCurrentOrNextForFamily.
  by rewrite Hcur, Hp, isRateLimitedForFamily_clear, Hfree.
Qed.

Lemma currentOrNextN_sticky family times : ∀ st p current original,
  getCurrentAccountForFamily st family = Some p →
  accounts st !! p = Some current →
  rateLimitResetTimes current ⊆ rateLimitResetTimes original →
  Forall (λ t, isRateLimitedForFamily t original family = false) times →
  (currentOrNextN family times st).1 = (λ _, Some p) <$> times
  ∧ cursor (currentOrNextN family times st).2 = cursor st
  ∧ currentAccountIndexByFamily (currentOrNextN family times st).2
    = currentAccountIndexByFamily st.
Proof.
  induction times as [|t times IH]; intros st p current original
    Hcur Hp Hsub Hall; [done|].
  apply Forall_cons in Hall as [Ht Hall].
  pose proof (isRateLimitedForFamily_mono _ _ _ _ Hsub Ht) as Hfree.
  simpl.
  rewrite (getCurrentOrNextForFamily_sticky _ _ _ _ _ Hcur Hp Hfree).
  set (current' := set_lastUsed t (clearExpiredRateLimits t current)).
  set (st1 := with_accounts (<[p := current']> (accounts st)) st).
  pose proof (lookup_lt_Some _ _ _ Hp) as Hlt.
  assert (accounts st1 !! p = Some current') as Hp1
    by (by apply list_lookup_insert_eq).
  assert (getCurrentAccountForFamily st1 family = Some p) as Hcur1.
  { apply getCurrentAccountForFamily_Some.
    apply getCurrentAccountForFamily_Some in Hcur as [Hidx _].
    split; [done | by rewrite Hp1]. }
  assert (rateLimitResetTimes current' ⊆ rateLimitResetTimes original)
    as Hsub1.
  { etrans; [|exact Hsub]. apply clearExpiredRateLimits_subseteq. }
  specialize (IH st1 p current' original Hcur1 Hp1 Hsub1 Hall).
  destruct (currentOrNextN family times st1) as [rs st2].
  simpl in *. destruct IH as (-> & -> & ->). done.
Qed.

(** C4: when the family's sticky account exists and, its expired entries
    set aside, is not rate-limited for the family,
    [getCurrentOrNextForFamily] returns that account; the registry changes
    only at that account, which is purged of expired entries and gets
    [lastUsed = now], its other fields kept; cursor and sticky indices
    stay.  Calls repeated at instants at which the account is not
    rate-limited all return it. *)
Theorem sticky_account_is_kept now family st p current :
  getCurrentAccountForFamily st family = Some p →
  accounts st !! p = Some current →
  isRateLimitedForFamily now (clearExpiredRateLimits now current) family
    = false →
  getCurrentOrNextForFamily now family st =
    (Some p,
     mkManager
       (<[p := mkAccount (index current) (email current) (projectId current)
                (refreshToken current) (accessToken current)
                (expiresAt current) (addedAt current) now
                (unexpired now (rateLimitResetTimes current))
                (lastSwitchReason current)]>
          (accounts st))
       (cursor st) (currentAccountIndexByFamily st))
  ∧ (∃ kept,
       accounts (getCurrentOrNextForFamily now family st).2 !! p = Some kept
       ∧ lastUsed kept = now
       ∧ rateLimitResetTimes kept = unexpired now (rateLimitResetTimes current)
       ∧ ∀ q, q ≠ p →
           accounts (getCurrentOrNextForFamily now family st).2 !! q
           = accounts st !! q)
  ∧ ∀ times,
      Forall (λ t, isRateLimitedForFamily t current family = false) times →
      (currentOrNextN family (now :: times) st).1
        = (λ _, Some p) <$> (now :: times)
      ∧ cursor (currentOrNextN family (now :: times) st).2 = cursor st
      ∧ currentAccountIndexByFamily
          (currentOrNextN family (now :: times) st).2
        = currentAccountIndexByFamily st.
Proof.
  intros Hcur Hp Hfree. rewrite isRateLimitedForFamily_clear in Hfree.
  pose proof (lookup_lt_Some _ _ _ Hp) as Hlt.
  assert (Hcall :
    getCurrentOrNextForFamily now family st =
    (Some p,
     mkManager
       (<[p := mkAccount (index current) (email current) (projectId current)
                (refreshToken current) (accessToken current)
                (expiresAt current) (addedAt current) now
                (unexpired now (rateLimitResetTimes current))
                (lastSwitchReason current)]>
          (accounts st))
       (cursor st) (currentAccountIndexByFamily st))).
  { rewrite (getCurrentOrNextForFamily_sticky _ _ _ _ _ Hcur Hp Hfree).
    by rewrite clearExpiredRateLimits_fields. }
  split; [exact Hcall|]. split.
  { rewrite Hcall. cbn [snd accounts]. eexists. split.
    - by apply list_lookup_insert_eq.
    - split; [done|]. split; [done|].
      intros q Hq. by apply list_lookup_insert_ne. }
  intros times Hall.
  apply (currentOrNextN_sticky family (now :: times) st p current current);
    try done.
  by apply Forall_cons.
Qed.

Lemma sticky_account_is_kept_witness :
  (getCurrentOrNextForFamily 200 Gemini three).1 = Some 0%nat
  ∧ lastUsed <$> accounts three !! 0%nat = Some 0
  ∧ lastUsed <$> accounts (getCurrentOrNextForFamily 200 Gemini three).2
                   !! 0%nat = Some 200
  ∧ (currentOrNextN Gemini [200; 300; 400] three).1
    = [Some 0%nat; Some 0%nat; Some 0%nat].
Proof.
  destruct (sticky_account_is_kept 200 Gemini three 0
              (mkAccount 0 (Some "alice@example.com") "proj" "rt-a"
                 (Some "tok") (Some 3600) 100 0 ∅ None)
              eq_refl eq_refl eq_refl)
    as (Hcall & (kept & Hkept & Hused & _) & H).
  split; [by rewrite Hcall|]. split; [reflexivity|].
  split; [by rewrite Hkept, <- Hused|].
  apply (H [300; 400]). repeat constructor.
Defined.

(** ** Round robin *)

Lemma pick_seq cur n :
  0 ≤ cur → (0 < n)%nat →
  pick cur (seq 0 n) = Some (Z.to_nat (cur `mod` Z.of_nat n)).
Proof.
  intros Hc Hn. unfold pick. rewrite length_seq.
  rewrite Z.rem_mod_nonneg by lia.
  pose proof (Z.mod_pos_bound cur (Z.of_nat n) ltac:(lia)) as Hb.
  assert ((cur `mod` Z.of_nat n <? 0) = false) as -> by (apply Z.ltb_ge; lia).
  rewrite lookup_seq_lt by lia. done.
Qed.

Lemma getNextForFamily_all_eligible now family st :
  accounts st ≠ [] → 0 ≤ cursor st →
  Forall (λ a, isRateLimitedForFamily now a family = false) (accounts st) →
  getNextForFamily now family st =
  (Some (Z.to_nat (cursor st `mod` getAccountCount st)),
   mkManager
     (alter (set_lastUsed now) (Z.to_nat (cursor st `mod` getAccountCount st))
        (clearExpiredRateLimits now <$> accounts st))
     (cursor st + 1) (currentAccountIndexByFamily st)).
Proof.
  intros Hne Hc Hall. unfold getNextForFamily, getAccountCount.
  pose proof (filter_available_accounts now family 0 (accounts st)) as Hacc.
  pose proof (filter_available_all now family 0 (accounts st) Hall) as Hav.
  destruct (filter_available now family 0 (accounts st)) as [accs available].
  simpl in *. subst accs available.
  assert (0 < length (accounts st))%nat as Hlen
    by (destruct (accounts st); [done | simpl; lia]).
  rewrite length_seq.
  destruct (length (accounts st) =? 0)%nat eqn:E;
    [apply Nat.eqb_eq in E; lia|].
  by rewrite pick_seq.
Qed.

Lemma eligible_after_next now t family p l :
  Forall (λ a, isRateLimitedForFamily t a family = false) l →
  Forall (λ a, isRateLimitedForFamily t a family = false)
    (alter (set_lastUsed now) p (clearExpiredRateLimits now <$> l)).
Proof.
  intros Hall. apply Forall_alter.
  - apply Forall_fmap. eapply Forall_impl; [exact Hall|].
    intros a Ha. simpl.
    eapply isRateLimitedForFamily_mono; [|exact Ha].
    apply clearExpiredRateLimits_subseteq.
  - intros a _ Ha. by destruct family.
Qed.

Lemma nextN_all_eligible family times : ∀ st,
  accounts st ≠ [] → 0 ≤ cursor st →
  Forall (λ t, Forall (λ a, isRateLimitedForFamily t a family = false)
                 (accounts st)) times →
  (nextN family times st).1 =
  (λ i, Some (Z.to_nat ((cursor st + Z.of_nat i) `mod` getAccountCount st)))
    <$> seq 0 (length times).
Proof.
  induction times as [|now times IH]; intros st Hne Hc Hall; [done|].
  apply Forall_cons in Hall as [Hnow Hall].
  cbn [nextN]. rewrite (getNextForFamily_all_eligible _ _ _ Hne Hc Hnow).
  set (p := Z.to_nat (cursor st `mod` getAccountCount st)).
  set (st1 := mkManager _ _ _).
  assert (length (accounts st1) = length (accounts st)) as Hlen
    by (unfold st1; simpl; by rewrite length_alter, length_fmap).
  specialize (IH st1).
  destruct (nextN family times st1) as [rs st2]. cbn [fst] in IH.
  cbn [fst length seq fmap list_fmap].
  rewrite IH; cycle 1.
  - intros He. apply Hne, length_zero_iff_nil.
    by rewrite <- Hlen, He.
  - unfold st1; simpl. lia.
  - eapply Forall_impl; [exact Hall|]. intros t Ht.
    by apply eligible_after_next.
  - f_equal.
    + unfold p. do 3 f_equal. lia.
    + rewrite <- fmap_S_seq, <- list_fmap_compose.
      apply list_fmap_ext. intros i j _. simpl.
      unfold getAccountCount. rewrite Hlen.
      do 3 f_equal. unfold st1; simpl. lia.
Qed.

Lemma rotation_is_permutation c n :
  0 ≤ c →
  (λ i, Z.to_nat ((c + Z.of_nat i) `mod` Z.of_nat n)) <$> seq 0 n
  ≡ₚ seq 0 n.
Proof.
  intros Hc. destruct n as [|n]; [done|].
  set (N := Z.of_nat (S n)).
  assert (0 < N) as HN by (unfold N; lia).
  apply submseteq_length_Permutation.
  - apply NoDup_submseteq.
    + apply NoDup_fmap_2_strong; [|apply NoDup_seq].
      intros i j Hi%elem_of_seq Hj%elem_of_seq Heq.
      pose proof (Z.mod_pos_bound (c + Z.of_nat i) N HN) as Bi.
      pose proof (Z.mod_pos_bound (c + Z.of_nat j) N HN) as Bj.
      apply Z2Nat.inj in Heq; [|lia|lia].
      pose proof (Z.div_mod (c + Z.of_nat i) N ltac:(lia)) as Di.
      pose proof (Z.div_mod (c + Z.of_nat j) N ltac:(lia)) as Dj.
      rewrite Heq in Di.
      assert (Z.of_nat i - Z.of_nat j =
              N * ((c + Z.of_nat i) `div` N - (c + Z.of_nat j) `div` N))
        as Hd by lia.
      assert (Z.of_nat i < N ∧ Z.of_nat j < N) as [Hi' Hj']
        by (unfold N; lia).
      set (k := (c + Z.of_nat i) `div` N - (c + Z.of_nat j) `div` N) in Hd.
      apply Nat2Z.inj.
      destruct (Z.lt_trichotomy k 0) as [Hk|[Hk|Hk]]; [|rewrite Hk in Hd; lia|].
      * assert (N * k ≤ N * (-1)) by (apply Z.mul_le_mono_nonneg_l; lia). lia.
      * assert (N * 1 ≤ N * k) by (apply Z.mul_le_mono_nonneg_l; lia). lia.
    + intros x (i & -> & Hi)%list_elem_of_fmap.
      apply elem_of_seq.
      pose proof (Z.mod_pos_bound (c + Z.of_nat i) N HN) as Bi.
      fold N. unfold N in Bi at 3. lia.
  - by rewrite length_fmap.
Qed.

(** C5: in a registry of N >= 1 accounts, all eligible for the family at
    each of N instants, N consecutive calls of [getNextForFamily] at those
    instants return every account exactly once, whatever the cursor, which
    is a natural number in every state a manager can reach: the calls
    return the accounts at positions (cursor + i) mod N, i = 0 .. N-1. *)
Theorem round_robin family times st :
  accounts st ≠ [] →
  0 ≤ cursor st ∨ reachable st →
  length times = length (accounts st) →
  (∀ t a, t ∈ times → a ∈ accounts st →
          isRateLimitedForFamily t a family = false) →
  ∃ order,
    (nextN family times st).1 = Some <$> order
    ∧ order ≡ₚ seq 0 (length (accounts st))
    ∧ order = (λ i, Z.to_nat ((cursor st + Z.of_nat i)
                                `mod` getAccountCount st))
              <$> seq 0 (length (accounts st)).
Proof.
  intros Hne Hc Hlen Hall.
  assert (0 ≤ cursor st) as Hc'.
  { destruct Hc as [Hc|[history ->]]; [done|].
    destruct (wf_run history initial wf_initial) as [_ Hp].
    unfold pointers_ok in Hp. rewrite decide_False in Hp by done.
    by destruct Hp. }
  clear Hc. rename Hc' into Hc.
  eexists. split; [|split; [|reflexivity]].
  - rewrite nextN_all_eligible; [|done|done|].
    + rewrite Hlen, <- list_fmap_compose. done.
    + apply Forall_forall. intros t Ht.
      apply Forall_forall. intros a Ha. by apply Hall.
  - by apply rotation_is_permutation.
Qed.

Lemma round_robin_witness :
  (nextN Gemini [200; 201; 202]
     (mkManager (accounts three) 7 (mkFamilyIndex 0 0))).1
  = [Some 1%nat; Some 2%nat; Some 0%nat].
Proof.
  destruct (round_robin Gemini [200; 201; 202]
              (mkManager (accounts three) 7 (mkFamilyIndex 0 0)))
    as (order & -> & _ & ->).
  - vm_compute. discriminate.
  - left. simpl. lia.
  - reflexivity.
  - intros t a _ Ha. vm_compute in Ha.
    repeat (apply elem_of_cons in Ha as [->|Ha]; [by destruct t|]).
    by apply elem_of_nil in Ha.
  - reflexivity.
Defined.

(** ** Removing an account *)

Lemma removeAccount_out_of_range idx st :
  idx < 0 ∨ getAccountCount st ≤ idx → removeAccount idx st = (false, st).
Proof.
  unfold removeAccount, getAccountCount. intros H.
  assert ((idx <? 0) || (idx >=? Z.of_nat (length (accounts st))) = true)
    as ->; [|done].
  apply orb_true_iff. rewrite Z.ltb_lt, Z.geb_leb, Z.leb_le. lia.
Qed.

Lemma removeAccount_in_range idx st :
  0 ≤ idx < getAccountCount st →
  removeAccount idx st =
  (true,
   let accs := reindex (delete (Z.to_nat idx) (accounts st)) in
   let n := Z.of_nat (length accs) in
   if decide (n = 0) then mkManager accs 0 (mkFamilyIndex (-1) (-1))
   else mkManager accs (Z.min (cursor st) (n - 1))
          (mkFamilyIndex
             (adjust_pointer idx n (claude (currentAccountIndexByFamily st)))
             (adjust_pointer idx n (gemini (currentAccountIndexByFamily st))))).
Proof.
  unfold removeAccount, getAccountCount. intros H.
  assert ((idx <? 0) || (idx >=? Z.of_nat (length (accounts st))) = false)
    as ->.
  { apply orb_false_iff. rewrite Z.ltb_ge, Z.geb_leb, Z.leb_gt. lia. }
  cbv zeta.
  destruct (length _ =? 0)%nat eqn:E.
  - apply Nat.eqb_eq in E. rewrite decide_True by lia. done.
  - apply Nat.eqb_neq in E. rewrite decide_False by lia. done.
Qed.

Lemma lookup_reindex_delete i l j :
  reindex (delete i l) !! j =
  set_index (Z.of_nat j) <$> l !! (if decide (j < i)%nat then j else S j).
Proof.
  unfold reindex. rewrite list_lookup_imap, list_lookup_delete.
  by destruct (decide (j < i)%nat).
Qed.

(** C7: [removeAccount(i)] with [i] outside [0, accountCount) returns false
    and changes nothing.  With a valid [i] it returns true; the account at
    [i] is gone, the accounts behind it have moved down by one, and every
    remaining account's [index] is its new position, its other fields as
    they were; when the store became
    empty the cursor is 0 and both sticky indices are [-1]; otherwise each
    sticky index that was at or above [i] has been decremented (not below
    0) and then capped at the last position, the cursor has been capped at
    the last position, and pointers that were not negative are valid
    positions of the new store. *)
Theorem removeAccount_spec idx st :
  (idx < 0 ∨ getAccountCount st ≤ idx → removeAccount idx st = (false, st))
  ∧ (0 ≤ idx < getAccountCount st →
     let st' := (removeAccount idx st).2 in
     (removeAccount idx st).1 = true
     ∧ getAccountCount st' = getAccountCount st - 1
     ∧ (∀ j, accounts st' !! j =
             (λ a, mkAccount (Z.of_nat j) (email a) (projectId a)
                     (refreshToken a) (accessToken a) (expiresAt a)
                     (addedAt a) (lastUsed a) (rateLimitResetTimes a)
                     (lastSwitchReason a)) <$>
               accounts st !!
                 (if decide (j < Z.to_nat idx)%nat then j else S j))
     ∧ (∀ j a, accounts st' !! j = Some a → index a = Z.of_nat j)
     ∧ (getAccountCount st' = 0 →
        cursor st' = 0
        ∧ currentAccountIndexByFamily st' = mkFamilyIndex (-1) (-1))
     ∧ (0 < getAccountCount st' →
        cursor st' = Z.min (cursor st) (getAccountCount st' - 1)
        ∧ (∀ family,
             let old := get_family (currentAccountIndexByFamily st) family in
             get_family (currentAccountIndexByFamily st') family =
             Z.min (if decide (idx ≤ old) then Z.max 0 (old - 1) else old)
                   (getAccountCount st' - 1))
        ∧ (0 ≤ cursor st → 0 ≤ cursor st' < getAccountCount st')
        ∧ (∀ family,
             0 ≤ get_family (currentAccountIndexByFamily st) family →
             0 ≤ get_family (currentAccountIndexByFamily st') family
               < getAccountCount st'))).
Proof.
  split; [apply removeAccount_out_of_range|].
  intros Hrange st'. unfold st'.
  rewrite (removeAccount_in_range idx st Hrange). cbv zeta.
  cbn [fst snd].
  set (accs := reindex (delete (Z.to_nat idx) (accounts st))).
  assert (Z.of_nat (length accs) = getAccountCount st - 1) as Hlen.
  { unfold accs, reindex, getAccountCount in *.
    rewrite length_imap, length_delete.
    - lia.
    - apply lookup_lt_is_Some. lia. }
  assert (∀ j, accs !! j =
               (λ a, mkAccount (Z.of_nat j) (email a) (projectId a)
                       (refreshToken a) (accessToken a) (expiresAt a)
                       (addedAt a) (lastUsed a) (rateLimitResetTimes a)
                       (lastSwitchReason a)) <$>
                 accounts st !!
                   (if decide (j < Z.to_nat idx)%nat then j else S j))
    as Hlook by (intros j; apply lookup_reindex_delete).
  assert (∀ j a, accs !! j = Some a → index a = Z.of_nat j) as Hindex.
  { intros j a. rewrite Hlook.
    destruct (accounts st !! _) as [b|]; [|done]. by intros [= <-]. }
  split; [done|].
  destruct (decide (Z.of_nat (length accs) = 0)) as [Hz|Hnz];
    unfold getAccountCount at 1 3 4 5 6 7; cbn [accounts cursor
      currentAccountIndexByFamily].
  - split; [done|]. split; [done|]. split; [done|]. split; [done|]. lia.
  - split; [done|]. split; [done|]. split; [done|]. split; [lia|].
    intros Hpos.
    split; [done|]. split; [|split].
    + intros family. unfold adjust_pointer.
      destruct family; cbn [get_family claude gemini];
        rewrite Z.geb_leb; case_decide;
        match goal with
        | |- context [idx <=? ?x] => destruct (Z.leb_spec idx x)
        end; (done || lia).
    + lia.
    + intros family Hold. unfold getAccountCount. cbn [accounts].
      destruct family; cbn [get_family claude gemini] in *;
        apply adjust_pointer_range; lia.
Qed.

Lemma removeAccount_spec_witness :
  removeAccount 5 three = (false, three)
  ∧ (removeAccount 1 three).1 = true
  ∧ getAccountCount (removeAccount 1 three).2 = 2
  ∧ refreshToken <$> accounts three = ["rt-a"; "rt-b"; "rt-c"]
  ∧ index <$> accounts three = [0; 1; 2]
  ∧ refreshToken <$> accounts (removeAccount 1 three).2 !! 1%nat
    = Some "rt-c"
  ∧ index <$> accounts (removeAccount 1 three).2 !! 1%nat = Some 1.
Proof.
  destruct (removeAccount_spec 5 three) as [Hout _].
  destruct (removeAccount_spec 1 three) as [_ Hin].
  assert (getAccountCount three = 3) as Hthree by reflexivity.
  split; [apply Hout; right; rewrite Hthree; lia|].
  destruct Hin as (Hres & Hcount & Hlook & Hindex & _).
  - rewrite Hthree. lia.
  - split; [exact Hres|]. split; [rewrite Hcount; reflexivity|].
    split; [reflexivity|]. split; [reflexivity|].
    split; [by rewrite (Hlook 1%nat)|].
    destruct (accounts (removeAccount 1 three).2 !! 1%nat) as [a|] eqn:Ha.
    + cbn. f_equal. exact (Hindex 1%nat a Ha).
    + by rewrite (Hlook 1%nat) in Ha.
Defined.

(** ** Adding an account *)

Lemma same_credential_spec tokens a :
  same_credential tokens a = true ↔ credential_matches tokens a.
Proof.
  unfold same_credential, credential_matches.
  rewrite orb_true_iff, String.eqb_eq.
  apply or_iff_compat_r.
  destruct (tk_email tokens) as [[|c e]|].
  - split; [done | by intros (e' & [= <-] & ? & _)].
  - destruct (email a) as [e'|].
    + rewrite String.eqb_eq. split.
      * intros ->. by exists (String c e).
      * by intros (e'' & [= <-] & _ & [= ->]).
    + split; [done | by intros (? & _ & _ & ?)].
  - split; [done | by intros (? & ? & _)].
Qed.

Lemma find_pos_Some {A} (f : A → bool) l p :
  find_pos f l = Some p
  ↔ (∃ x, l !! p = Some x ∧ f x = true)
    ∧ ∀ q y, (q < p)%nat → l !! q = Some y → f y = false.
Proof.
  revert p. induction l as [|x l IH]; intros p; simpl.
  - split; [done | by intros [(? & ? & _) _]].
  - destruct (f x) eqn:Hx.
    + split.
      * intros [= <-]. split; [by exists x | intros q y Hq; lia].
      * intros [_ Hfirst]. destruct p as [|p]; [done|].
        specialize (Hfirst 0%nat x ltac:(lia) eq_refl). congruence.
    + destruct p as [|p].
      * split.
        -- by destruct (find_pos f l).
        -- intros [(y & Hy & Hfy) _]. simpl in Hy. congruence.
      * assert (S <$> find_pos f l = Some (S p) ↔ find_pos f l = Some p)
          as -> by (destruct (find_pos f l); simpl; split; congruence).
        rewrite IH. simpl. split.
        -- intros [Hex Hfirst]. split; [done|].
           intros [|q] y Hq Hy; simpl in Hy; [congruence|].
           apply (Hfirst q); [lia | done].
        -- intros [Hex Hfirst]. split; [done|].
           intros q z Hq Hz. apply (Hfirst (S q)); [lia | done].
Qed.

Lemma find_pos_None {A} (f : A → bool) l :
  find_pos f l = None ↔ ∀ x, x ∈ l → f x = false.
Proof.
  induction l as [|x l IH]; simpl.
  - split; [by intros _ x ?%elem_of_nil | done].
  - destruct (f x) eqn:Hx.
    + split; [done|]. intros H. specialize (H x (list_elem_of_here _ _)).
      congruence.
    + destruct (find_pos f l); simpl.
      * split; [done|]. intros H.
        assert (Some n = None) as Hn; [|done].
        apply IH. intros y Hy. apply H. by apply list_elem_of_further.
      * split; [|done]. intros _ y [->|Hy]%elem_of_cons; [done|].
        by apply IH.
Qed.

Lemma same_credential_false tokens a :
  same_credential tokens a = false ↔ ¬ credential_matches tokens a.
Proof.
  rewrite <- same_credential_spec. by destruct (same_credential tokens a).
Qed.

(** C8: when the credentials name an account of the store (by a non-empty
    email or by the refresh token), [addAccount] overwrites the first such
    account's refreshToken, projectId, accessToken, expiresAt and email in
    place, returns it, and the account count stays; when they name none it
    appends an account whose index is the previous length, with
    [addedAt = now], [lastUsed = 0] and no rate-limit entry, and sets both
    sticky indices to 0 if the store was empty. *)
Theorem addAccount_spec now tokens st :
  (∀ p existing,
     accounts st !! p = Some existing →
     credential_matches tokens existing →
     (∀ q other, (q < p)%nat → accounts st !! q = Some other →
                 ¬ credential_matches tokens other) →
     addAccount now tokens st =
       (p,
        mkManager
          (<[p := mkAccount (index existing) (tk_email tokens)
                    (project_id tokens) (refresh_token tokens)
                    (access_token tokens) (expires_at tokens)
                    (addedAt existing) (lastUsed existing)
                    (rateLimitResetTimes existing)
                    (lastSwitchReason existing)]> (accounts st))
          (cursor st) (currentAccountIndexByFamily st)))
  ∧ ((∃ existing, existing ∈ accounts st
                  ∧ credential_matches tokens existing) →
     getAccountCount (addAccount now tokens st).2 = getAccountCount st
     ∧ ∃ existing, accounts st !! (addAccount now tokens st).1 = Some existing
                   ∧ credential_matches tokens existing)
  ∧ ((∀ a, a ∈ accounts st → ¬ credential_matches tokens a) →
     addAccount now tokens st =
       (length (accounts st),
        mkManager
          (accounts st ++
             [mkAccount (Z.of_nat (length (accounts st))) (tk_email tokens)
                (project_id tokens) (refresh_token tokens)
                (access_token tokens) (expires_at tokens) now 0 ∅ None])
          (cursor st)
          (if decide (accounts st = []) then mkFamilyIndex 0 0
           else currentAccountIndexByFamily st))).
Proof.
  split; [|split].
  - intros p existing Hp Hmatch Hfirst.
    assert (find_pos (same_credential tokens) (accounts st) = Some p) as Hf.
    { apply find_pos_Some. split.
      - exists existing. split; [done|]. by apply same_credential_spec.
      - intros q other Hq Hother. apply same_credential_false. eauto. }
    unfold addAccount. rewrite Hf. unfold with_accounts. do 2 f_equal.
    symmetry. apply (insert_as_alter (overwrite tokens) _ _ _ Hp).
  - intros (existing & Hin & Hmatch).
    unfold addAccount.
    destruct (find_pos (same_credential tokens) (accounts st)) as [p|]
      eqn:Hf.
    + apply find_pos_Some in Hf as [(x & Hx & Hfx) _]. simpl.
      unfold getAccountCount; simpl. rewrite length_alter.
      split; [done|]. exists x. split; [done|].
      by apply same_credential_spec.
    + exfalso. rewrite find_pos_None in Hf.
      specialize (Hf existing Hin).
      apply same_credential_false in Hf. done.
  - intros Hnone.
    assert (find_pos (same_credential tokens) (accounts st) = None) as Hf.
    { apply find_pos_None. intros a Ha. apply same_credential_false. eauto. }
    unfold addAccount. rewrite Hf. cbv zeta. do 2 f_equal.
    rewrite length_app; simpl.
    destruct (accounts st) as [|a l]; simpl; [done|].
    destruct (length l + 1 =? 0)%nat eqn:E; [|done].
    apply Nat.eqb_eq in E. lia.
Qed.

Lemma addAccount_spec_witness :
  (addAccount 500 (tokens_of (Some "bob@example.com") "rt-new") three).1
    = 1%nat
  ∧ getAccountCount
      (addAccount 500 (tokens_of (Some "bob@example.com") "rt-new") three).2
    = 3
  ∧ (addAccount 500 (tokens_of None "rt-d") three).1 = 3%nat.
Proof.
  destruct (addAccount_spec 500
              (tokens_of (Some "bob@example.com") "rt-new") three)
    as (Hupd & Hcount & _).
  destruct (addAccount_spec 500 (tokens_of None "rt-d") three)
    as (_ & _ & Hnew).
  split; [|split].
  - rewrite (Hupd 1%nat
               (mkAccount 1 (Some "bob@example.com") "proj" "rt-b"
                  (Some "tok") (Some 3600) 101 0 ∅ None)); [done|done| |].
    + left. exists "bob@example.com". done.
    + intros [|q] other Hq Hother; [|lia].
      vm_compute in Hother. injection Hother as <-.
      intros [(e & [= <-] & _ & He)|Hrt]; simpl in *; discriminate.
  - apply Hcount.
    exists (mkAccount 1 (Some "bob@example.com") "proj" "rt-b"
              (Some "tok") (Some 3600) 101 0 ∅ None).
    split.
    + apply list_elem_of_lookup. by exists 1%nat.
    + left. exists "bob@example.com". done.
  - rewrite Hnew; [done|].
    intros a Ha. vm_compute in Ha.
    repeat (apply elem_of_cons in Ha as [->|Ha];
            [intros [(e & [=] & _)|Hrt]; simpl in *; discriminate|]).
    by apply elem_of_nil in Ha.
Defined.

(** ** Persistence round trip *)

Lemma stored_limits_round_trip (m : gmap QuotaKey Z) :
  default ∅ (if (0 <? length (Object_keys m))%nat then Some m else None) = m.
Proof.
  destruct (0 <? length (Object_keys m))%nat eqn:E; [done|].
  apply Nat.ltb_ge in E. simpl. symmetry.
  apply map_to_list_empty_iff.
  unfold Object_keys in E. rewrite length_fmap in E.
  apply length_zero_iff_nil. lia.
Qed.

Lemma hydrate_dehydrate i a :
  hydrate i (dehydrate a) =
  mkAccount (Z.of_nat i) (email a) (projectId a) (refreshToken a) None None
    (addedAt a) (lastUsed a) (rateLimitResetTimes a) None.
Proof.
  unfold hydrate, dehydrate; simpl. by rewrite stored_limits_round_trip.
Qed.

Lemma loadFromStorage_toStorageData st st0 :
  loadFromStorage (Some (toStorageData st)) st0 =
  if decide (accounts st = []) then mkManager [] 0 (mkFamilyIndex (-1) (-1))
  else
    let n := getAccountCount st in
    let at_ family :=
      Z.max 0 (get_family (currentAccountIndexByFamily st) family) `mod` n in
    mkManager (imap (λ i a, hydrate i (dehydrate a)) (accounts st))
      (at_ Claude) (mkFamilyIndex (at_ Claude) (at_ Gemini)).
Proof.
  unfold loadFromStorage, toStorageData, getAccountCount.
  cbn [stored_accounts]. rewrite length_fmap.
  destruct (accounts st) as [|a l] eqn:Hl; [done|].
  rewrite decide_False by done. rewrite <- Hl.
  assert ((length (accounts st) =? 0)%nat = false) as ->
    by (rewrite Hl; done).
  cbv zeta. rewrite imap_fmap, length_imap.
  unfold stored_active; cbn [activeIndexByFamily active_claude active_gemini
                             default].
  assert (Z.max 1 (Z.of_nat (length (accounts st)))
          = Z.of_nat (length (accounts st))) as ->
    by (rewrite Hl; simpl; lia).
  assert (0 < Z.of_nat (length (accounts st))) as Hn
    by (rewrite Hl; simpl; lia).
  rewrite !Z.rem_mod_nonneg by lia.
  unfold id. cbn [get_family].
  rewrite !(Z.max_r 0 (Z.max 0 _)) by lia.
  done.
Qed.

(** C9: [loadFromStorage(toStorageData())] rebuilds the registry with the
    same number of accounts in the same order, each with the email,
    projectId, refreshToken, addedAt, lastUsed and rateLimitResetTimes it
    had (an empty map comes back empty); with accounts present each sticky
    index comes back as [max(0, sticky) mod accountCount], which in every
    state a manager can reach is the index itself. *)
Theorem storage_round_trip st st0 :
  let st' := loadFromStorage (Some (toStorageData st)) st0 in
  getAccountCount st' = getAccountCount st
  ∧ (∀ p a,
       accounts st !! p = Some a →
       accounts st' !! p =
       Some (mkAccount (Z.of_nat p) (email a) (projectId a) (refreshToken a)
               None None (addedAt a) (lastUsed a) (rateLimitResetTimes a)
               None))
  ∧ (0 < getAccountCount st →
     ∀ family,
       get_family (currentAccountIndexByFamily st') family =
       Z.max 0 (get_family (currentAccountIndexByFamily st) family)
         `mod` getAccountCount st)
  ∧ (pointers_ok st ∨ reachable st →
     currentAccountIndexByFamily st' = currentAccountIndexByFamily st).
Proof.
  intros st'.
  enough (getAccountCount st' = getAccountCount st
          ∧ (∀ p a,
               accounts st !! p = Some a →
               accounts st' !! p =
               Some (mkAccount (Z.of_nat p) (email a) (projectId a)
                       (refreshToken a) None None (addedAt a) (lastUsed a)
                       (rateLimitResetTimes a) None))
          ∧ (0 < getAccountCount st →
             ∀ family,
               get_family (currentAccountIndexByFamily st') family =
               Z.max 0 (get_family (currentAccountIndexByFamily st) family)
                 `mod` getAccountCount st)
          ∧ (pointers_ok st →
             currentAccountIndexByFamily st'
             = currentAccountIndexByFamily st)) as (H1 & H2 & H3 & H4).
  { split; [done|]. split; [done|]. split; [done|].
    intros [Hp|[history ->]]; [by apply H4|].
    apply H4. apply (wf_run history initial wf_initial). }
  unfold st'. rewrite loadFromStorage_toStorageData.
  destruct (decide (accounts st = [])) as [He|Hne].
  - unfold getAccountCount, pointers_ok. rewrite He. simpl.
    split; [done|]. split; [done|]. split; [lia|].
    by intros [_ ->].
  - cbv zeta. unfold getAccountCount. cbn [accounts
      currentAccountIndexByFamily].
    rewrite length_imap. split; [done|]. split; [|split].
    + intros p a Hp. rewrite list_lookup_imap, Hp. simpl.
      by rewrite hydrate_dehydrate.
    + intros _ []; done.
    + unfold pointers_ok, getAccountCount. rewrite decide_False by done.
      intros [_ Hs].
      pose proof (Hs Claude) as HC. pose proof (Hs Gemini) as HG.
      simpl in HC, HG.
      destruct (currentAccountIndexByFamily st) as [c g]. simpl in *.
      rewrite !Z.max_r by lia. rewrite !Z.mod_small by lia. done.
Qed.

Lemma storage_round_trip_witness :
  let st := run [(200, CallMark 0 60000 Gemini None);
                 (201, CallCurrentOrNext Claude);
                 (202, CallMark 0 500 Claude None);
                 (203, CallCurrentOrNext Claude)] three in
  let st' := loadFromStorage (Some (toStorageData st)) initial in
  currentAccountIndexByFamily st' = mkFamilyIndex 1 0
  ∧ limits st' = limits st.
Proof.
  intros st st'.
  destruct (storage_round_trip st initial) as (_ & Hacc & Hmod & Hptr).
  fold st' in Hacc, Hmod, Hptr.
  split.
  - rewrite Hptr; [reflexivity|]. left.
    unfold pointers_ok. vm_compute. split; [discriminate|].
    intros []; split; (discriminate || reflexivity).
  - unfold limits. apply list_eq. intros p.
    rewrite !list_lookup_fmap.
    destruct (accounts st !! p) as [a|] eqn:Hp.
    + by rewrite (Hacc p a Hp).
    + apply lookup_ge_None in Hp.
      assert (length (accounts st') = length (accounts st)) as Hlen
        by reflexivity.
      rewrite (proj2 (lookup_ge_None (accounts st') p)) by lia. done.
Defined.

(** ** The first account *)

(** C10: [addAccount] on a store without accounts appends the account at
    position 0 and sets both sticky indices to 0, so that it is the
    current account of both families; this holds for the fresh manager and
    for a store that [removeAccount] has emptied, whose sticky indices are
    [-1]. *)
Theorem first_account_becomes_sticky now tokens st :
  getAccountCount st = 0 →
  let st' := (addAccount now tokens st).2 in
  (addAccount now tokens st).1 = 0%nat
  ∧ accounts st' =
      [mkAccount 0 (tk_email tokens) (project_id tokens)
         (refresh_token tokens) (access_token tokens) (expires_at tokens)
         now 0 ∅ None]
  ∧ currentAccountIndexByFamily st' = mkFamilyIndex 0 0
  ∧ (∀ family, getCurrentAccountForFamily st' family = Some 0%nat)
  ∧ (∀ idx st0,
       removeAccount idx st0 = (true, st) →
       currentAccountIndexByFamily st = mkFamilyIndex (-1) (-1)).
Proof.
  intros Hcount. cbv zeta.
  assert (accounts st = []) as He.
  { apply length_zero_iff_nil. unfold getAccountCount in Hcount. lia. }
  unfold addAccount. rewrite He. simpl.
  repeat split; try (by intros []).
  intros idx st0 Hrm. unfold removeAccount in Hrm.
  destruct (_ || _); [done|].
  destruct (length _ =? 0)%nat eqn:E.
  - by injection Hrm as <-.
  - injection Hrm as <-. simpl in He. rewrite He in E. done.
Qed.

Lemma first_account_becomes_sticky_witness :
  let emptied := (removeAccount 0 (addAccount 1 alice initial).2).2 in
  currentAccountIndexByFamily emptied = mkFamilyIndex (-1) (-1)
  ∧ currentAccountIndexByFamily (addAccount 5 bob emptied).2
    = mkFamilyIndex 0 0
  ∧ getCurrentAccountForFamily (addAccount 5 bob emptied).2 Gemini
    = Some 0%nat.
Proof.
  intros emptied.
  destruct (first_account_becomes_sticky 5 bob emptied eq_refl)
    as (_ & _ & Hsticky & Hcur & Hwas).
  split; [|split].
  - apply (Hwas 0 (addAccount 1 alice initial).2). reflexivity.
  - exact Hsticky.
  - apply Hcur.
Defined.

(** * Further properties of the registry *)

(** ** Marking a rate limit *)

Lemma markRateLimited_lookup now p retryAfterMs family headerStyle st q :
  accounts (markRateLimited now p retryAfterMs family headerStyle st) !! q =
  if decide (p = q)
  then rateLimit now retryAfterMs family headerStyle <$> accounts st !! q
  else accounts st !! q.
Proof.
  unfold markRateLimited; simpl. case_decide as Hpq.
  - subst q. apply list_lookup_alter_eq.
  - by apply list_lookup_alter_ne.
Qed.

Lemma rateLimit_key now retryAfterMs family headerStyle a t k :
  isRateLimitedForQuotaKey t
    (rateLimit now retryAfterMs family headerStyle a) k =
  if decide (k = getQuotaKey family (default Antigravity headerStyle))
  then t <? now + retryAfterMs
  else isRateLimitedForQuotaKey t a k.
Proof.
  unfold isRateLimitedForQuotaKey, rateLimit; simpl.
  case_decide as Hk.
  - subst k. by rewrite lookup_insert_eq.
  - by rewrite lookup_insert_ne.
Qed.

(** X1: [markRateLimited] closes exactly one pool of exactly one account:
    the pool named by the family and the header style (antigravity when
    none is given) is closed at the instants before [now + retryAfterMs]
    and at no other, whatever entry it held before; the other pools of the
    account, the other accounts, the cursor and the sticky indices are as
    they were. *)
Theorem markRateLimited_closes_one_pool now p retryAfterMs family headerStyle
    st a :
  accounts st !! p = Some a →
  let st' := markRateLimited now p retryAfterMs family headerStyle st in
  let key := getQuotaKey family (default Antigravity headerStyle) in
  ∃ a',
    accounts st' !! p = Some a'
    ∧ (∀ t, isRateLimitedForQuotaKey t a' key = true ↔ t < now + retryAfterMs)
    ∧ (∀ t k, k ≠ key →
              isRateLimitedForQuotaKey t a' k = isRateLimitedForQuotaKey t a k)
    ∧ set_rateLimitResetTimes (rateLimitResetTimes a) a' = a
    ∧ (∀ q, q ≠ p → accounts st' !! q = accounts st !! q)
    ∧ cursor st' = cursor st
    ∧ currentAccountIndexByFamily st' = currentAccountIndexByFamily st.
Proof.
  intros Hp st' key.
  exists (rateLimit now retryAfterMs family headerStyle a).
  split.
  { unfold st'. rewrite markRateLimited_lookup, decide_True by done.
    by rewrite Hp. }
  split.
  { intros t. rewrite rateLimit_key, decide_True by done.
    apply Z.ltb_lt. }
  split.
  { intros t k Hk. by rewrite rateLimit_key, decide_False. }
  split; [by destruct a|].
  split; [|done].
  intros q Hq. unfold st'.
  rewrite markRateLimited_lookup, decide_False; done.
Qed.

Lemma markRateLimited_closes_one_pool_witness :
  let st' := markRateLimited 200 1 60000 Gemini (Some GeminiCli) three in
  ∃ a', accounts st' !! 1%nat = Some a'
        ∧ isRateLimitedForQuotaKey 60199 a' QGeminiCli = true
        ∧ isRateLimitedForQuotaKey 60200 a' QGeminiCli = false.
Proof.
  destruct (markRateLimited_closes_one_pool 200 1 60000 Gemini
              (Some GeminiCli) three
              (mkAccount 1 (Some "bob@example.com") "proj" "rt-b"
                 (Some "tok") (Some 3600) 101 0 ∅ None) eq_refl)
    as (a' & Hp & Hkey & _).
  exists a'. split; [exact Hp|]. split.
  - apply Hkey. lia.
  - destruct (isRateLimitedForQuotaKey 60200 a' QGeminiCli) eqn:E; [|done].
    apply Hkey in E. lia.
Defined.

(** X2: the pools are isolated by family.  A mark for claude, under either
    header style, leaves the account's gemini eligibility at every instant
    as it was, and a mark for gemini leaves its claude eligibility as it
    was; a mark for one gemini pool makes the account rate-limited for
    gemini exactly at the instants before [now + retryAfterMs] at which the
    other gemini pool is closed too. *)
Theorem marks_are_isolated_by_family now retryAfterMs headerStyle a t :
  isRateLimitedForFamily t (rateLimit now retryAfterMs Claude headerStyle a)
    Gemini = isRateLimitedForFamily t a Gemini
  ∧ isRateLimitedForFamily t (rateLimit now retryAfterMs Gemini headerStyle a)
      Claude = isRateLimitedForFamily t a Claude
  ∧ rateLimit now retryAfterMs Claude headerStyle a =
      rateLimit now retryAfterMs Claude None a
  ∧ isRateLimitedForFamily t
      (rateLimit now retryAfterMs Gemini (Some GeminiCli) a) Gemini =
      (t <? now + retryAfterMs)
      && isRateLimitedForQuotaKey t a QGeminiAntigravity
  ∧ isRateLimitedForFamily t
      (rateLimit now retryAfterMs Gemini (Some Antigravity) a) Gemini =
      (t <? now + retryAfterMs) && isRateLimitedForQuotaKey t a QGeminiCli
  ∧ rateLimit now retryAfterMs Gemini None a =
      rateLimit now retryAfterMs Gemini (Some Antigravity) a.
Proof.
  repeat split.
  - cbn [isRateLimitedForFamily]. rewrite !rateLimit_key.
    by destruct headerStyle as [[]|].
  - cbn [isRateLimitedForFamily]. rewrite !rateLimit_key.
    by destruct headerStyle as [[]|].
  - cbn [isRateLimitedForFamily]. rewrite !rateLimit_key. simpl.
    apply andb_comm.
  - cbn [isRateLimitedForFamily]. by rewrite !rateLimit_key.
Qed.

(** ** Header styles and eligibility agree *)

(** X3: for an account of the registry, [getAvailableHeaderStyle] answers
    null exactly when [isRateLimitedForFamily] holds of the account, so the
    rotation and the choice of header style never disagree; a style it
    returns names a pool of the family that is open, and for claude it is
    antigravity. *)
Theorem header_style_agrees_with_eligibility now p family st account :
  accounts st !! p = Some account →
  ((getAvailableHeaderStyle now p family st).1 = None
   ↔ isRateLimitedForFamily now account family = true)
  ∧ ∀ style,
      (getAvailableHeaderStyle now p family st).1 = Some style →
      isRateLimitedForQuotaKey now account (getQuotaKey family style) = false
      ∧ (family = Claude → style = Antigravity).
Proof.
  intros Hp.
  assert ((getAvailableHeaderStyle now p family st).1
          = (availableHeaderStyle now account family).1) as ->.
  { unfold getAvailableHeaderStyle. rewrite Hp.
    by destruct (availableHeaderStyle now account family). }
  rewrite availableHeaderStyle_result.
  destruct family; cbn [isRateLimitedForFamily getQuotaKey].
  - destruct (isRateLimitedForQuotaKey now account QClaude) eqn:E.
    + split; [done|]. intros style [=].
    + split; [split; done|]. by intros style [= <-].
  - destruct (isRateLimitedForQuotaKey now account QGeminiAntigravity) eqn:E1;
      destruct (isRateLimitedForQuotaKey now account QGeminiCli) eqn:E2;
      simpl.
    + split; [done|]. intros style [=].
    + split; [split; done|]. by intros style [= <-].
    + split; [split; done|]. by intros style [= <-].
    + split; [split; done|]. by intros style [= <-].
Qed.

Lemma header_style_agrees_with_eligibility_witness :
  (getAvailableHeaderStyle 10 0 Claude (holding [antigravity_closed])).1
  ≠ None.
Proof.
  destruct (header_style_agrees_with_eligibility 10 0 Claude
              (holding [antigravity_closed]) antigravity_closed eq_refl)
    as [Hnone _].
  intros H. apply Hnone in H. vm_compute in H. discriminate H.
Defined.

(** ** Selection *)

Lemma filter_available_positions now family (pre l : list ManagedAccount) :
  (filter_available now family (length pre) l).2 =
  filter (λ p, eligible_at now family (pre ++ l) p = true)
    (seq (length pre) (length l)).
Proof.
  revert pre. induction l as [|a l IH]; intros pre; [done|].
  cbn [filter_available length seq].
  specialize (IH (pre ++ [a])).
  rewrite length_app, <- app_assoc in IH. simpl in IH.
  replace (length pre + 1)%nat with (S (length pre)) in IH by lia.
  destruct (filter_available now family (S (length pre)) l)
    as [rest' available].
  cbn [snd] in *. subst available.
  rewrite isRateLimitedForFamily_clear.
  assert (eligible_at now family (pre ++ a :: l) (length pre)
          = negb (isRateLimitedForFamily now a family)) as He.
  { unfold eligible_at. by rewrite list_lookup_middle. }
  destruct (isRateLimitedForFamily now a family); simpl in *.
  - rewrite filter_cons_False; [done|]. by rewrite He.
  - rewrite filter_cons_True; [done|]. by rewrite He.
Qed.

Lemma filter_available_eligible now family l :
  (filter_available now family 0 l).2 = eligible_positions now family l.
Proof. apply (filter_available_positions now family [] l). Qed.

Lemma eligible_positions_elem now family l p :
  p ∈ eligible_positions now family l
  ↔ ∃ a, l !! p = Some a ∧ isRateLimitedForFamily now a family = false.
Proof.
  unfold eligible_positions. rewrite list_elem_of_filter, elem_of_seq.
  unfold eligible_at. split.
  - intros [He _]. destruct (l !! p) as [a|]; [|done].
    exists a. split; [done|]. by apply negb_true_iff.
  - intros (a & Hp & Ha). rewrite Hp, Ha. split; [done|].
    apply lookup_lt_Some in Hp. lia.
Qed.

Lemma eligible_positions_nil now family l :
  eligible_positions now family l = []
  ↔ Forall (λ a, isRateLimitedForFamily now a family = true) l.
Proof.
  split.
  - intros Hnil. apply Forall_lookup. intros p a Hp.
    destruct (isRateLimitedForFamily now a family) eqn:E; [done|].
    assert (p ∈ eligible_positions now family l) as Hin
      by (apply eligible_positions_elem; eauto).
    rewrite Hnil in Hin. by apply elem_of_nil in Hin.
  - intros Hall.
    destruct (eligible_positions now family l) as [|p ps] eqn:E; [done|].
    assert (p ∈ eligible_positions now family l) as Hin
      by (rewrite E; apply list_elem_of_here).
    apply eligible_positions_elem in Hin as (a & Hp & Ha).
    rewrite Forall_lookup in Hall. specialize (Hall p a Hp). congruence.
Qed.

Lemma pick_nonneg cur available :
  0 ≤ cur → available ≠ [] →
  pick cur available =
  available !! Z.to_nat (cur `mod` Z.of_nat (length available))
  ∧ is_Some (pick cur available).
Proof.
  intros Hc Hne.
  assert (0 < Z.of_nat (length available)) as Hlen
    by (destruct available; [done | simpl; lia]).
  unfold pick. rewrite Z.rem_mod_nonneg by lia.
  pose proof (Z.mod_pos_bound cur _ Hlen) as Hb.
  assert ((cur `mod` Z.of_nat (length available) <? 0) = false) as ->
    by (apply Z.ltb_ge; lia).
  split; [done|]. apply lookup_lt_is_Some. lia.
Qed.

(** [getNextForFamily] in terms of the eligible positions. *)
Lemma getNextForFamily_eq now family st :
  getNextForFamily now family st =
  let available := eligible_positions now family (accounts st) in
  let accs := clearExpiredRateLimits now <$> accounts st in
  match available with
  | [] => (None, with_accounts accs st)
  | _ =>
      match pick (cursor st) available with
      | None => (None, with_accounts accs st)
      | Some p =>
          (Some p,
           mkManager (alter (set_lastUsed now) p accs) (cursor st + 1)
             (currentAccountIndexByFamily st))
      end
  end.
Proof.
  unfold getNextForFamily.
  pose proof (filter_available_accounts now family 0 (accounts st)) as Hacc.
  pose proof (filter_available_eligible now family (accounts st)) as Hav.
  destruct (filter_available now family 0 (accounts st)) as [accs available].
  simpl in Hacc, Hav. subst accs available. cbv zeta.
  by destruct (eligible_positions now family (accounts st)).
Qed.

Lemma filter_available_cleared now family pos l l' :
  clearExpiredRateLimits now <$> l = clearExpiredRateLimits now <$> l' →
  filter_available now family pos l = filter_available now family pos l'.
Proof.
  revert pos l'. induction l as [|a l IH]; intros pos [|a' l'] Heq;
    try done.
  rewrite !fmap_cons in Heq.
  pose proof (f_equal head Heq) as Ha. pose proof (f_equal tail Heq) as Hl.
  cbn [head tail] in Ha, Hl. apply (inj Some) in Ha.
  cbn [filter_available]. rewrite (IH (S pos) l' Hl), Ha. done.
Qed.

Lemma getNextForFamily_cleared now family st p a :
  accounts st !! p = Some a →
  getNextForFamily now family
    (with_accounts (<[p := clearExpiredRateLimits now a]> (accounts st)) st)
  = getNextForFamily now family st.
Proof.
  intros Hp. unfold getNextForFamily. simpl.
  rewrite (filter_available_cleared now family 0
             (<[p := clearExpiredRateLimits now a]> (accounts st))
             (accounts st)); [done|].
  rewrite list_fmap_insert, clearExpiredRateLimits_idemp.
  apply list_insert_id. by rewrite list_lookup_fmap, Hp.
Qed.

Lemma switch_to_next_cleared now family st p a :
  accounts st !! p = Some a →
  switch_to_next now family
    (with_accounts (<[p := clearExpiredRateLimits now a]> (accounts st)) st)
  = switch_to_next now family st.
Proof.
  intros Hp. unfold switch_to_next.
  by rewrite (getNextForFamily_cleared now family st p a Hp).
Qed.

(** Without an eligible sticky account the call is the forced switch. *)
Lemma getCurrentOrNextForFamily_switch now family st :
  sticky_eligible now family st = None →
  getCurrentOrNextForFamily now family st = switch_to_next now family st.
Proof.
  unfold sticky_eligible, getCurrentOrNextForFamily.
  destruct (getCurrentAccountForFamily st family) as [p|]; simpl; [|done].
  destruct (accounts st !! p) as [current|] eqn:Hp; simpl; [|done].
  rewrite isRateLimitedForFamily_clear.
  destruct (isRateLimitedForFamily now current family); simpl; [|done].
  intros _. by apply switch_to_next_cleared.
Qed.

Lemma sticky_eligible_Some now family st p :
  sticky_eligible now family st = Some p →
  getCurrentAccountForFamily st family = Some p
  ∧ ∃ a, accounts st !! p = Some a
         ∧ isRateLimitedForFamily now a family = false.
Proof.
  unfold sticky_eligible.
  destruct (getCurrentAccountForFamily st family) as [q|]; simpl; [|done].
  destruct (accounts st !! q) as [a|] eqn:Hq; simpl; [|done].
  destruct (isRateLimitedForFamily now a family) eqn:Ha; [done|].
  intros [= <-]. split; [done|]. by exists a.
Qed.

Lemma forallb_Forall {A} (f : A → bool) l :
  forallb f l = true ↔ Forall (λ a, f a = true) l.
Proof.
  induction l as [|a l IH]; simpl.
  - split; [by constructor | done].
  - rewrite andb_true_iff, IH, Forall_cons. done.
Qed.

Lemma limited_ignores_bookkeeping t family a :
  (∀ v, isRateLimitedForFamily t (set_lastUsed v a) family
        = isRateLimitedForFamily t a family)
  ∧ (∀ v, isRateLimitedForFamily t (set_lastSwitchReason v a) family
          = isRateLimitedForFamily t a family).
Proof. split; intros v; by destruct family. Qed.

Lemma alter_alter_insert {A} (f g : A → A) q x (l : list A) :
  l !! q = Some x → alter f q (alter g q l) = <[q := f (g x)]> l.
Proof.
  revert q. induction l as [|y l IH]; intros [|q] H; try done.
  - simpl in *. by simplify_eq.
  - simpl in *. f_equal. by apply IH.
Qed.

Lemma switch_to_next_fst now family st :
  (switch_to_next now family st).1 = (getNextForFamily now family st).1.
Proof.
  unfold switch_to_next.
  destruct (getNextForFamily now family st) as [[q|] st1]; simpl; [|done].
  by destruct (accounts st1 !! q).
Qed.

Lemma switch_to_next_Some now family st q :
  (getNextForFamily now family st).1 = Some q →
  ∃ a,
    accounts st !! q = Some a
    ∧ isRateLimitedForFamily now a family = false
    ∧ switch_to_next now family st =
      (Some q,
       mkManager
         (<[q := set_lastSwitchReason (Some RateLimit)
                   (set_lastUsed now (clearExpiredRateLimits now a))]>
            (clearExpiredRateLimits now <$> accounts st))
         (cursor st + 1)
         (set_family family (index a) (currentAccountIndexByFamily st))).
Proof.
  intros Hq.
  destruct (getNextForFamily_cases now family st) as [Hn|(p & Hp & Hin & Hn)];
    rewrite Hn in Hq; simpl in Hq; [done|].
  injection Hq as ->.
  rewrite filter_available_eligible in Hin.
  apply eligible_positions_elem in Hin as (a & Ha & Hfree).
  exists a. split; [done|]. split; [done|].
  unfold switch_to_next. rewrite Hn. cbn [accounts cursor
    currentAccountIndexByFamily].
  rewrite list_lookup_alter_eq, list_lookup_fmap, Ha. cbn [fmap option_fmap
    option_map].
  f_equal. f_equal.
  apply alter_alter_insert. by rewrite list_lookup_fmap, Ha.
Qed.

(** X4: the account [getCurrentOrNextForFamily] returns is one of the
    registry that is not rate-limited for the family at that instant.
    After the call its [lastUsed] is [now], the number of accounts and the
    other family's sticky index are as before and, the [index] fields being
    the positions, it is the family's current account. *)
Theorem selected_account_is_usable now family st p :
  (getCurrentOrNextForFamily now family st).1 = Some p →
  let st' := (getCurrentOrNextForFamily now family st).2 in
  (∃ a, accounts st !! p = Some a
        ∧ isRateLimitedForFamily now a family = false)
  ∧ (∃ a', accounts st' !! p = Some a'
           ∧ lastUsed a' = now
           ∧ isRateLimitedForFamily now a' family = false)
  ∧ length (accounts st') = length (accounts st)
  ∧ get_family (currentAccountIndexByFamily st') (other_family family)
    = get_family (currentAccountIndexByFamily st) (other_family family)
  ∧ (indexed (accounts st) → getCurrentAccountForFamily st' family = Some p).
Proof.
  intros Hres st'. unfold st'. clear st'.
  destruct (sticky_eligible now family st) as [q|] eqn:Hst.
  - apply sticky_eligible_Some in Hst as (Hcur & a & Ha & Hfree).
    rewrite (getCurrentOrNextForFamily_sticky _ _ _ _ _ Hcur Ha Hfree)
      in Hres |- *.
    simpl in Hres. injection Hres as <-.
    pose proof (lookup_lt_Some _ _ _ Ha) as Hlt.
    cbn [snd with_accounts accounts currentAccountIndexByFamily].
    split; [by exists a|]. split.
    { eexists. split; [by apply list_lookup_insert_eq|]. split; [done|].
      rewrite (proj1 (limited_ignores_bookkeeping _ _ _)).
      by rewrite isRateLimitedForFamily_clear. }
    split; [by rewrite length_insert|]. split; [done|].
    intros _. apply getCurrentAccountForFamily_Some.
    apply getCurrentAccountForFamily_Some in Hcur as [Hidx _].
    split; [done|]. simpl. rewrite list_lookup_insert_eq by done. done.
  - rewrite (getCurrentOrNextForFamily_switch _ _ _ Hst) in Hres |- *.
    rewrite switch_to_next_fst in Hres.
    destruct (switch_to_next_Some _ _ _ _ Hres) as (a & Ha & Hfree & ->).
    pose proof (lookup_lt_Some _ _ _ Ha) as Hlt.
    cbn [snd accounts currentAccountIndexByFamily].
    split; [by exists a|]. split.
    { eexists. split.
      - apply list_lookup_insert_eq. by rewrite length_fmap.
      - split; [done|].
        rewrite (proj2 (limited_ignores_bookkeeping _ _ _)).
        rewrite (proj1 (limited_ignores_bookkeeping _ _ _)).
        by rewrite isRateLimitedForFamily_clear. }
    split; [by rewrite length_insert, length_fmap|].
    split; [by destruct family|].
    intros Hidx. apply getCurrentAccountForFamily_Some.
    cbn [accounts currentAccountIndexByFamily]. split.
    + rewrite (Hidx p a Ha). by destruct family.
    + rewrite list_lookup_insert_eq by (by rewrite length_fmap). done.
Qed.

(** X5: with a cursor that is not negative, [getNextForFamily] and
    [getCurrentOrNextForFamily] answer null exactly when every account is
    rate-limited for the family at that instant (an empty registry
    included), which is exactly when [allAccountsRateLimited] answers
    true; in that case [getCurrentOrNextForFamily] purges the accounts and
    leaves the cursor and both sticky indices where they were. *)
Theorem selection_fails_iff_exhausted now family st :
  0 ≤ cursor st →
  let exhausted :=
    Forall (λ a, isRateLimitedForFamily now a family = true) (accounts st) in
  ((getNextForFamily now family st).1 = None ↔ exhausted)
  ∧ ((getCurrentOrNextForFamily now family st).1 = None ↔ exhausted)
  ∧ ((allAccountsRateLimited now family st).1 = true ↔ exhausted)
  ∧ (exhausted →
     getCurrentOrNextForFamily now family st =
     (None, with_accounts (clearExpiredRateLimits now <$> accounts st) st)).
Proof.
  intros Hc exhausted.
  assert ((getNextForFamily now family st).1 = None ↔ exhausted) as Hnext.
  { unfold exhausted. rewrite <- eligible_positions_nil.
    rewrite getNextForFamily_eq. cbv zeta.
    destruct (eligible_positions now family (accounts st)) as [|q qs] eqn:E;
      [done|].
    destruct (pick_nonneg (cursor st) (q :: qs) Hc ltac:(done))
      as [_ [r Hr]].
    rewrite Hr. done. }
  assert (exhausted → sticky_eligible now family st = None) as Hnone.
  { intros Hex.
    destruct (sticky_eligible now family st) as [p|] eqn:Hst; [|done].
    apply sticky_eligible_Some in Hst as (_ & a & Ha & Hfree).
    unfold exhausted in Hex. rewrite Forall_lookup in Hex.
    specialize (Hex p a Ha). congruence. }
  split; [done|]. split; [|split].
  - split.
    + intros Hres.
      destruct (sticky_eligible now family st) as [p|] eqn:Hst.
      * apply sticky_eligible_Some in Hst as (Hcur & a & Ha & Hfree).
        rewrite (getCurrentOrNextForFamily_sticky _ _ _ _ _ Hcur Ha Hfree)
          in Hres. done.
      * rewrite (getCurrentOrNextForFamily_switch _ _ _ Hst) in Hres.
        rewrite switch_to_next_fst in Hres. by apply Hnext.
    + intros Hex.
      rewrite (getCurrentOrNextForFamily_switch _ _ _ (Hnone Hex)).
      rewrite switch_to_next_fst. by apply Hnext.
  - unfold allAccountsRateLimited.
    pose proof (every_limited_result now family (accounts st)) as Hr.
    destruct (every_limited now family (accounts st)) as [b accs].
    simpl in *. subst b. apply forallb_Forall.
  - intros Hex.
    rewrite (getCurrentOrNextForFamily_switch _ _ _ (Hnone Hex)).
    unfold switch_to_next. rewrite getNextForFamily_eq. cbv zeta.
    apply eligible_positions_nil in Hex. by rewrite Hex.
Qed.

Lemma selection_fails_iff_exhausted_witness :
  let st := run [(200, CallMark 0 60000 Claude None)]
              (holding [antigravity_closed]) in
  (getCurrentOrNextForFamily 300 Claude st).1 = None
  ∧ (allAccountsRateLimited 300 Claude st).1 = true.
Proof.
  intros st.
  destruct (selection_fails_iff_exhausted 300 Claude st) as (_ & H1 & H2 & _);
    [vm_compute; discriminate|].
  assert (Forall (λ a, isRateLimitedForFamily 300 a Claude = true)
            (accounts st)) as Hex by (repeat constructor).
  split; [by apply H1 | by apply H2].
Defined.

(** X6: a forced switch is a round robin over the accounts eligible at
    that instant.  When the family has no eligible sticky account, the
    cursor is not negative and k >= 1 accounts are eligible,
    [getCurrentOrNextForFamily] returns the eligible account number
    [cursor mod k] in store order, purges every account, gives the chosen
    one [lastUsed = now] and [lastSwitchReason = 'rate-limit'], advances
    the cursor by one and moves the family's sticky index to the chosen
    account's [index]. *)
Theorem forced_switch_follows_cursor now family st :
  0 ≤ cursor st →
  sticky_eligible now family st = None →
  let available := eligible_positions now family (accounts st) in
  available ≠ [] →
  ∃ q a,
    available !! Z.to_nat (cursor st `mod` Z.of_nat (length available))
      = Some q
    ∧ accounts st !! q = Some a
    ∧ getCurrentOrNextForFamily now family st =
      (Some q,
       mkManager
         (<[q := set_lastSwitchReason (Some RateLimit)
                   (set_lastUsed now (clearExpiredRateLimits now a))]>
            (clearExpiredRateLimits now <$> accounts st))
         (cursor st + 1)
         (set_family family (index a) (currentAccountIndexByFamily st)))
    ∧ ∃ chosen,
        accounts (getCurrentOrNextForFamily now family st).2 !! q
          = Some chosen
        ∧ lastUsed chosen = now
        ∧ lastSwitchReason chosen = Some RateLimit
        ∧ rateLimitResetTimes chosen
          = unexpired now (rateLimitResetTimes a)
        ∧ index chosen = index a
        ∧ email chosen = email a
        ∧ refreshToken chosen = refreshToken a.
Proof.
  intros Hc Hst available Hne.
  destruct (pick_nonneg (cursor st) available Hc Hne) as [Hpick [q Hq]].
  assert ((getNextForFamily now family st).1 = Some q) as Hnext.
  { rewrite getNextForFamily_eq. cbv zeta. fold available.
    destruct available; [done|]. by rewrite Hq. }
  destruct (switch_to_next_Some _ _ _ _ Hnext) as (a & Ha & _ & Hsw).
  exists q, a. split; [by rewrite <- Hpick|]. split; [done|].
  rewrite (getCurrentOrNextForFamily_switch _ _ _ Hst), Hsw.
  split; [done|]. cbn [snd accounts].
  pose proof (lookup_lt_Some _ _ _ Ha) as Hlt.
  eexists. split.
  { apply list_lookup_insert_eq. by rewrite length_fmap. }
  split; [done|]. split; [done|].
  split; [by rewrite <- clearExpiredRateLimits_unexpired|].
  by rewrite clearExpiredRateLimits_fields.
Qed.

Lemma selected_account_is_usable_witness :
  let st' := (getCurrentOrNextForFamily 203 Gemini first_exhausted).2 in
  getCurrentAccountForFamily st' Gemini = Some 1%nat
  ∧ getCurrentAccountForFamily st' Claude = Some 0%nat.
Proof.
  intros st'.
  destruct (selected_account_is_usable 203 Gemini first_exhausted 1 eq_refl)
    as (_ & _ & _ & Hother & Hcur).
  split.
  - apply Hcur.
    apply (wf_run
             [(100, CallAdd alice); (101, CallAdd bob); (102, CallAdd carol);
              (200, CallCurrentOrNext Gemini);
              (201, CallMark 0 60000 Gemini (Some Antigravity));
              (202, CallMark 0 60000 Gemini (Some GeminiCli))]
             initial wf_initial).
  - reflexivity.
Defined.

Lemma forced_switch_follows_cursor_witness :
  (getCurrentOrNextForFamily 203 Gemini first_exhausted).1 = Some 1%nat
  ∧ lastSwitchReason <$>
      accounts (getCurrentOrNextForFamily 203 Gemini first_exhausted).2
        !! 1%nat
    = Some (Some RateLimit).
Proof.
  destruct (forced_switch_follows_cursor 203 Gemini first_exhausted)
    as (q & a & Hq & _ & Hcall & chosen & Hchosen & _ & Hreason & _).
  - vm_compute. discriminate.
  - reflexivity.
  - vm_compute. discriminate.
  - vm_compute in Hq. injection Hq as <-. split.
    + by rewrite Hcall.
    + by rewrite Hchosen, <- Hreason.
Defined.

(** ** Waiting times *)

Lemma getMinWaitTime_eq now family st :
  getMinWaitTime now family st =
  match omap (account_wait now family) (accounts st) with
  | [] => 0
  | w :: ws => foldl Z.min w ws
  end.
Proof. unfold getMinWaitTime, account_wait. by destruct family. Qed.

Lemma foldl_min_spec w ws :
  foldl Z.min w ws ∈ w :: ws
  ∧ ∀ x, x ∈ w :: ws → foldl Z.min w ws ≤ x.
Proof.
  revert w. induction ws as [|y ws IH]; intros w; simpl.
  - split; [apply list_elem_of_here|].
    intros x [->|Hx%elem_of_nil]%elem_of_cons; [lia | done].
  - destruct (IH (Z.min w y)) as [Hin Hle]. split.
    + apply elem_of_cons in Hin as [Heq|Hin].
      * rewrite Heq. destruct (Z.min_spec w y) as [[_ ->]|[_ ->]].
        -- apply list_elem_of_here.
        -- apply list_elem_of_further, list_elem_of_here.
      * by do 2 apply list_elem_of_further.
    + intros x Hx.
      pose proof (Hle (Z.min w y) (list_elem_of_here _ _)) as Hm.
      apply elem_of_cons in Hx as [->|Hx]; [lia|].
      apply elem_of_cons in Hx as [->|Hx]; [lia|].
      apply Hle. by apply list_elem_of_further.
Qed.

Lemma time_left_nonneg now a key v : time_left now a key = Some v → 0 ≤ v.
Proof.
  unfold time_left. destruct (rateLimitResetTimes a !! key); [|done].
  simpl. intros [= <-]. lia.
Qed.

Lemma account_wait_nonneg now family a v :
  account_wait now family a = Some v → 0 ≤ v.
Proof.
  unfold account_wait. destruct family.
  - apply time_left_nonneg.
  - destruct (time_left now a QGeminiAntigravity) as [x|] eqn:E1;
      destruct (time_left now a QGeminiCli) as [y|] eqn:E2; simpl;
      intros [= <-];
      repeat match goal with
             | H : time_left _ _ _ = Some _ |- _ =>
                 apply time_left_nonneg in H
             end; lia.
Qed.

Lemma pool_limited_time_left now a key :
  isRateLimitedForQuotaKey now a key = true →
  ∃ r, rateLimitResetTimes a !! key = Some r
       ∧ now < r
       ∧ time_left now a key = Some (r - now).
Proof.
  unfold isRateLimitedForQuotaKey, time_left.
  destruct (rateLimitResetTimes a !! key) as [r|]; [|done].
  intros H%Z.ltb_lt. exists r. split; [done|]. split; [done|].
  simpl. f_equal. lia.
Qed.

(** A rate-limited account stays so for exactly its waiting time. *)
Lemma account_wait_exact now family a :
  isRateLimitedForFamily now a family = true →
  ∃ v, account_wait now family a = Some v
       ∧ 0 < v
       ∧ (∀ t, t < now + v → isRateLimitedForFamily t a family = true)
       ∧ isRateLimitedForFamily (now + v) a family = false.
Proof.
  unfold account_wait. destruct family; cbn [isRateLimitedForFamily].
  - intros (r & Hr & Hlt & ->)%pool_limited_time_left.
    exists (r - now). unfold isRateLimitedForQuotaKey. rewrite Hr.
    split; [done|]. split; [lia|]. split.
    + intros t Ht. apply Z.ltb_lt. lia.
    + apply Z.ltb_ge. lia.
  - intros [(r1 & Hr1 & Hlt1 & ->)%pool_limited_time_left
            (r2 & Hr2 & Hlt2 & ->)%pool_limited_time_left]%andb_true_iff.
    exists (Z.min (r1 - now) (r2 - now)).
    unfold isRateLimitedForQuotaKey. rewrite Hr1, Hr2.
    split; [done|]. split; [lia|]. split.
    + intros t Ht. apply andb_true_iff. split; apply Z.ltb_lt; lia.
    + apply andb_false_iff.
      destruct (Z.min_spec (r1 - now) (r2 - now)) as [[_ ->]|[_ ->]];
        [left | right]; apply Z.ltb_ge; lia.
Qed.

(** X7: [getMinWaitTime] is never negative and is 0 when no account holds
    an entry for a pool of the family (in particular in an empty
    registry).  When the registry holds accounts and all of them are
    rate-limited for the family at [now], the wait [w] it returns is
    positive and exact: all accounts are still rate-limited at every
    instant before [now + w], and at [now + w] one of them no longer is. *)
Theorem min_wait_time_is_exact now family st :
  0 ≤ getMinWaitTime now family st
  ∧ ((∀ a style, a ∈ accounts st →
        rateLimitResetTimes a !! getQuotaKey family style = None) →
     getMinWaitTime now family st = 0)
  ∧ (accounts st ≠ [] →
     Forall (λ a, isRateLimitedForFamily now a family = true) (accounts st) →
     let w := getMinWaitTime now family st in
     0 < w
     ∧ (∀ t, t < now + w →
             Forall (λ a, isRateLimitedForFamily t a family = true)
               (accounts st))
     ∧ Exists (λ a, isRateLimitedForFamily (now + w) a family = false)
         (accounts st)).
Proof.
  rewrite getMinWaitTime_eq.
  destruct (omap (account_wait now family) (accounts st)) as [|w ws] eqn:E.
  - split; [done|]. split; [done|].
    intros Hne Hall. exfalso.
    destruct (accounts st) as [|a l]; [done|].
    apply Forall_cons in Hall as [Ha _].
    destruct (account_wait_exact now family a Ha) as (v & Hv & _).
    simpl in E. rewrite Hv in E. done.
  - destruct (foldl_min_spec w ws) as [Hin Hle].
    rewrite <- E in Hin, Hle.
    split; [|split].
    + apply list_elem_of_omap in Hin as (a & _ & Ha).
      by eapply account_wait_nonneg.
    + intros Hnone. exfalso.
      apply list_elem_of_omap in Hin as (a & Ha & Hw).
      unfold account_wait, time_left in Hw.
      pose proof (Hnone a Antigravity Ha) as H1.
      pose proof (Hnone a GeminiCli Ha) as H2.
      destruct family; simpl in H1, H2; rewrite ?H1, ?H2 in Hw; done.
    + intros _ Hall. cbv zeta. rewrite Forall_forall in Hall.
      apply list_elem_of_omap in Hin as (a & Ha & Hw).
      destruct (account_wait_exact now family a (Hall a Ha))
        as (v & Hv & Hpos & _ & Hfree).
      rewrite Hv in Hw. injection Hw as Hw. rewrite <- Hw.
      split; [done|]. split.
      * intros t Ht. apply Forall_forall. intros b Hb.
        destruct (account_wait_exact now family b (Hall b Hb))
          as (u & Hu & _ & Hstill & _).
        apply Hstill.
        assert (foldl Z.min w ws ≤ u) as Hmin.
        { apply Hle. apply list_elem_of_omap. eauto. }
        lia.
      * apply Exists_exists. exists a. done.
Qed.

Lemma min_wait_time_is_exact_witness :
  getMinWaitTime 10 Claude initial = 0
  ∧ 0 < getMinWaitTime 10 Gemini
          (holding [account_with [(QGeminiAntigravity, 50); (QGeminiCli, 30)]]).
Proof.
  destruct (min_wait_time_is_exact 10 Claude initial) as (_ & Hzero & _).
  destruct (min_wait_time_is_exact 10 Gemini
              (holding [account_with [(QGeminiAntigravity, 50);
                                      (QGeminiCli, 30)]]))
    as (_ & _ & Hex).
  split.
  - apply Hzero. intros a style Ha. by apply elem_of_nil in Ha.
  - apply Hex; [done | repeat constructor].
Defined.

(** ** Adding twice, adding and removing *)

Lemma same_credential_overwrite tokens a :
  same_credential tokens (overwrite tokens a) = true.
Proof.
  unfold same_credential. simpl. rewrite String.eqb_refl.
  apply orb_true_r.
Qed.

(** X8: [addAccount] is idempotent.  A second call with the same
    credentials, at whatever instant, returns the account the first call
    returned and leaves the registry exactly as the first call left it: no
    second account, the same [addedAt], sticky indices and cursor. *)
Theorem addAccount_twice now now' tokens st :
  addAccount now' tokens (addAccount now tokens st).2
  = addAccount now tokens st.
Proof.
  unfold addAccount at 2 3.
  destruct (find_pos (same_credential tokens) (accounts st)) as [p|] eqn:Hf.
  - apply find_pos_Some in Hf as [(a & Ha & Hm) Hfirst].
    cbn [snd].
    assert (find_pos (same_credential tokens)
              (alter (overwrite tokens) p (accounts st)) = Some p) as Hf'.
    { apply find_pos_Some. split.
      - exists (overwrite tokens a). split.
        + by rewrite list_lookup_alter_eq, Ha.
        + apply same_credential_overwrite.
      - intros q y Hq Hy. rewrite list_lookup_alter_ne in Hy by lia.
        by apply (Hfirst q). }
    unfold addAccount. cbn [accounts with_accounts]. rewrite Hf'.
    unfold with_accounts. cbn [cursor currentAccountIndexByFamily].
    do 2 f_equal.
    rewrite (alter_alter_insert _ _ _ _ _ Ha).
    change (overwrite tokens (overwrite tokens a)) with (overwrite tokens a).
    by apply (insert_as_alter (overwrite tokens)).
  - cbv zeta. cbn [snd].
    set (account := mkAccount _ _ _ _ _ _ _ _ _ _).
    rewrite find_pos_None in Hf.
    assert (find_pos (same_credential tokens) (accounts st ++ [account])
            = Some (length (accounts st))) as Hf'.
    { apply find_pos_Some. split.
      - exists account. split; [by apply list_lookup_middle|].
        unfold same_credential, account. simpl.
        rewrite String.eqb_refl. apply orb_true_r.
      - intros q y Hq Hy. rewrite lookup_app_l in Hy by done.
        apply Hf. apply list_elem_of_lookup. eauto. }
    unfold addAccount. cbn [accounts]. rewrite Hf'.
    unfold with_accounts. cbn [cursor currentAccountIndexByFamily].
    do 2 f_equal.
    rewrite <- (insert_as_alter (overwrite tokens) _ account)
      by (by apply list_lookup_middle).
    apply list_insert_id. by apply list_lookup_middle.
Qed.

Lemma delete_last {A} (l : list A) x : delete (length l) (l ++ [x]) = l.
Proof. induction l as [|y l IH]; simpl; [done | by f_equal]. Qed.

Lemma reindex_indexed l : indexed l → reindex l = l.
Proof.
  intros Hi. unfold reindex. apply list_eq. intros p.
  rewrite list_lookup_imap.
  destruct (l !! p) as [a|] eqn:Hp; [|done].
  simpl. f_equal. rewrite <- (Hi p a Hp). by destruct a.
Qed.

(** X9: in a registry whose pointers are valid, appending an account
    (credentials that match none) and removing it again restores the
    accounts and both sticky indices; only the cursor may differ, capped
    at the last position. *)
Theorem add_then_remove now tokens st :
  wf st →
  (∀ a, a ∈ accounts st → ¬ credential_matches tokens a) →
  removeAccount (getAccountCount st) (addAccount now tokens st).2 =
  (true,
   mkManager (accounts st)
     (Z.min (cursor st) (Z.max 0 (getAccountCount st - 1)))
     (currentAccountIndexByFamily st)).
Proof.
  intros [Hi Hp] Hnone.
  assert (find_pos (same_credential tokens) (accounts st) = None) as Hf.
  { apply find_pos_None. intros a Ha. apply same_credential_false. eauto. }
  unfold addAccount. rewrite Hf. cbv zeta. cbn [snd].
  set (account := mkAccount _ _ _ _ _ _ _ _ _ _).
  rewrite removeAccount_in_range; cycle 1.
  { unfold getAccountCount. cbn [accounts]. rewrite length_app. simpl. lia. }
  cbv zeta. cbn [accounts cursor currentAccountIndexByFamily].
  unfold getAccountCount. rewrite !Nat2Z.id, !delete_last.
  rewrite !(reindex_indexed _ Hi). f_equal.
  unfold pointers_ok, getAccountCount in *.
  destruct (accounts st) as [|a l] eqn:Hl.
  - rewrite decide_True in Hp by done. destruct Hp as [-> ->].
    by rewrite decide_True by done.
  - rewrite decide_False in Hp by done. destruct Hp as [Hc Hs].
    rewrite decide_False by (simpl; lia).
    assert ((length ((a :: l) ++ [account]) =? 1)%nat = false) as ->.
    { apply Nat.eqb_neq. rewrite length_app. simpl. lia. }
    pose proof (Hs Claude) as HC. pose proof (Hs Gemini) as HG.
    destruct (currentAccountIndexByFamily st) as [c g]. simpl in HC, HG.
    unfold adjust_pointer. cbn [claude gemini].
    rewrite !Z.geb_leb. cbn [length] in *.
    assert ((Z.of_nat (S (length l)) <=? c) = false) as ->
      by (apply Z.leb_gt; lia).
    assert ((Z.of_nat (S (length l)) <=? g) = false) as ->
      by (apply Z.leb_gt; lia).
    f_equal; [lia|]. f_equal; lia.
Qed.

Lemma add_then_remove_witness :
  removeAccount 3 (addAccount 500 (tokens_of None "rt-d") three).2
  = (true, three).
Proof.
  apply (add_then_remove 500 (tokens_of None "rt-d") three).
  - apply (wf_run [(100, CallAdd alice); (101, CallAdd bob);
                   (102, CallAdd carol)] initial wf_initial).
  - intros a Ha. vm_compute in Ha.
    repeat (apply elem_of_cons in Ha as [->|Ha];
            [intros [(e & [=] & _)|Hrt]; simpl in *; discriminate|]).
    by apply elem_of_nil in Ha.
Defined.

(** ** Storage, read then written *)

Lemma dehydrate_hydrate i acc :
  Stored.rateLimitResetTimes acc ≠ Some ∅ →
  dehydrate (hydrate i acc) = acc.
Proof.
  intros Hne. destruct acc as [e pr rt ad lu rl]. unfold dehydrate, hydrate.
  simpl in *. f_equal.
  destruct rl as [m|]; simpl.
  - destruct (0 <? length (Object_keys m))%nat eqn:E; [done|].
    exfalso. apply Hne. f_equal. apply map_to_list_empty_iff.
    apply Nat.ltb_ge in E. unfold Object_keys in E.
    rewrite length_fmap in E. apply length_zero_iff_nil. lia.
  - done.
Qed.

(** X10: stored data in the form [toStorageData] writes (accounts present,
    no empty rate-limit map, active indices that are positions) survives
    [loadFromStorage] followed by [toStorageData] unchanged, whatever the
    registry held before the load. *)
Theorem storage_load_then_save d st :
  canonical_storage d →
  toStorageData (loadFromStorage (Some d) st) = d.
Proof.
  intros (Hne & Hlim & c & g & Hact & Hc & Hg).
  destruct d as [accs act]. simpl in *. subst act.
  unfold loadFromStorage. cbn [stored_accounts].
  destruct (length accs =? 0)%nat eqn:E.
  { apply Nat.eqb_eq, length_zero_iff_nil in E. done. }
  cbv zeta. rewrite length_imap.
  unfold stored_active. cbn [activeIndexByFamily active_claude active_gemini
                             default].
  unfold id.
  rewrite !Z.rem_mod_nonneg by lia.
  rewrite !(Z.max_r 0) by lia. rewrite !(Z.max_r 1) by lia.
  rewrite !Z.mod_small by lia.
  unfold toStorageData. cbn [accounts currentAccountIndexByFamily claude
                             gemini].
  rewrite !(Z.max_r 0) by lia. f_equal.
  apply list_eq. intros i.
  rewrite list_lookup_fmap, list_lookup_imap.
  destruct (accs !! i) as [acc|] eqn:Hi; [|done].
  simpl. f_equal. apply dehydrate_hydrate, Hlim.
  apply list_elem_of_lookup. eauto.
Qed.

Lemma storage_load_then_save_witness :
  toStorageData
    (loadFromStorage (Some (toStorageData first_exhausted)) initial)
  = toStorageData first_exhausted.
Proof.
  apply (storage_load_then_save (toStorageData first_exhausted) initial).
  split; [vm_compute; discriminate|]. split.
  - intros acc Hacc. vm_compute in Hacc.
    repeat (apply elem_of_cons in Hacc as [->|Hacc];
            [vm_compute; discriminate|]).
    by apply elem_of_nil in Hacc.
  - exists 0, 0. split; [reflexivity|]. vm_compute.
    repeat split; discriminate.
Defined.

(** ** The current account *)

(** X11: in every state a manager can reach, [getCurrentAccountForFamily]
    answers null for both families when the registry is empty, and
    otherwise returns, for either family, an account of the registry whose
    [index] field is the family's sticky index. *)
Theorem current_account_exists history :
  let st := run history initial in
  (accounts st = [] → ∀ family, getCurrentAccountForFamily st family = None)
  ∧ (accounts st ≠ [] →
     ∀ family, ∃ p a,
       getCurrentAccountForFamily st family = Some p
       ∧ accounts st !! p = Some a
       ∧ index a = get_family (currentAccountIndexByFamily st) family).
Proof.
  intros st. destruct (wf_run history initial wf_initial) as [Hi Hp].
  fold st in Hi, Hp. unfold pointers_ok, getAccountCount in Hp.
  split.
  - intros He family. rewrite decide_True in Hp by done.
    destruct Hp as [_ Hs]. unfold getCurrentAccountForFamily.
    rewrite Hs, He. by destruct family.
  - intros Hne family. rewrite decide_False in Hp by done.
    destruct Hp as [_ Hs]. specialize (Hs family).
    set (s := get_family (currentAccountIndexByFamily st) family) in *.
    destruct (lookup_lt_is_Some_2 (accounts st) (Z.to_nat s) ltac:(lia))
      as [a Ha].
    exists (Z.to_nat s), a. split; [|split; [done|]].
    + apply getCurrentAccountForFamily_Some. fold s.
      split; [lia | by rewrite Ha].
    + rewrite (Hi _ _ Ha). lia.
Qed.

Lemma current_account_exists_witness :
  ∃ p a, getCurrentAccountForFamily first_exhausted Gemini = Some p
         ∧ accounts first_exhausted !! p = Some a
         ∧ index a = 0.
Proof.
  destruct (current_account_exists
              [(100, CallAdd alice); (101, CallAdd bob); (102, CallAdd carol);
               (200, CallCurrentOrNext Gemini);
               (201, CallMark 0 60000 Gemini (Some Antigravity));
               (202, CallMark 0 60000 Gemini (Some GeminiCli))])
    as [_ H].
  apply (H ltac:(vm_compute; discriminate) Gemini).
Defined.

Lemma removeAccount_after idx st family :
  0 ≤ idx < getAccountCount st →
  let st' := (removeAccount idx st).2 in
  Z.of_nat (length (accounts st')) = getAccountCount st - 1
  ∧ (∀ j, accounts st' !! j =
          set_index (Z.of_nat j) <$>
            accounts st !! (if decide (j < Z.to_nat idx)%nat then j else S j))
  ∧ (1 < getAccountCount st →
     get_family (currentAccountIndexByFamily st') family =
     adjust_pointer idx (getAccountCount st - 1)
       (get_family (currentAccountIndexByFamily st) family)).
Proof.
  intros Hrange. cbv zeta.
  rewrite (removeAccount_in_range idx st Hrange). cbv zeta. cbn [snd].
  set (accs := reindex (delete (Z.to_nat idx) (accounts st))).
  assert (Z.of_nat (length accs) = getAccountCount st - 1) as Hlen.
  { unfold accs, reindex, getAccountCount in *.
    rewrite length_imap, length_delete; [lia|].
    apply lookup_lt_is_Some. lia. }
  assert (∀ j, accs !! j =
               set_index (Z.of_nat j) <$>
                 accounts st !!
                   (if decide (j < Z.to_nat idx)%nat then j else S j))
    as Hlook by (intros j; apply lookup_reindex_delete).
  case_decide as Hz; cbn [accounts currentAccountIndexByFamily].
  - split; [done|]. split; [done|]. lia.
  - split; [done|]. split; [done|]. intros _. rewrite Hlen.
    by destruct family.
Qed.

(** X12: removing an account other than the family's current one keeps
    the current account: afterwards [getCurrentAccountForFamily] returns
    the same account, re-indexed, one position lower when the removed
    account stood before it.  Removing the current account itself, with
    others left, makes the account before it current, or the one after it
    when it was the first. *)
Theorem removal_and_current_account idx st family p a :
  0 ≤ idx < getAccountCount st →
  getCurrentAccountForFamily st family = Some p →
  accounts st !! p = Some a →
  let st' := (removeAccount idx st).2 in
  (Z.of_nat p ≠ idx →
   let p' := if decide (Z.of_nat p < idx) then p else Nat.pred p in
   getCurrentAccountForFamily st' family = Some p'
   ∧ accounts st' !! p' = Some (set_index (Z.of_nat p') a)
   ∧ ∃ a', accounts st' !! p' = Some a'
           ∧ index a' = Z.of_nat p'
           ∧ email a' = email a
           ∧ refreshToken a' = refreshToken a
           ∧ rateLimitResetTimes a' = rateLimitResetTimes a)
  ∧ (Z.of_nat p = idx → 1 < getAccountCount st →
     let p' := Nat.pred p in
     getCurrentAccountForFamily st' family = Some p'
     ∧ accounts st' !! p' =
       set_index (Z.of_nat p') <$>
         accounts st !! (if decide (p = 0)%nat then 1%nat else Nat.pred p)
     ∧ ∃ a' b,
         accounts st' !! p' = Some a'
         ∧ accounts st !! (if decide (p = 0)%nat then 1%nat else Nat.pred p)
           = Some b
         ∧ index a' = Z.of_nat p'
         ∧ email a' = email b
         ∧ refreshToken a' = refreshToken b
         ∧ rateLimitResetTimes a' = rateLimitResetTimes b).
Proof.
  intros Hrange Hcur Ha st'. unfold st'. clear st'.
  apply getCurrentAccountForFamily_Some in Hcur as [Hs _].
  pose proof (lookup_lt_Some _ _ _ Ha) as Hlt.
  destruct (removeAccount_after idx st family Hrange) as (Hlen & Hlook & Hst).
  unfold getAccountCount in *.
  set (st' := (removeAccount idx st).2) in *.
  rewrite Hs in Hst.
  assert (∀ q, (q < length (accounts st'))%nat →
               get_family (currentAccountIndexByFamily st') family
               = Z.of_nat q →
               getCurrentAccountForFamily st' family = Some q) as Hget.
  { intros q Hq Hsq. apply getCurrentAccountForFamily_Some.
    split; [done|]. by apply lookup_lt_is_Some_2. }
  unfold adjust_pointer in Hst. rewrite Z.geb_leb in Hst.
  split.
  - intros Hne. cbv zeta.
    specialize (Hst ltac:(lia)).
    case_decide as Hlow.
    + rewrite (proj2 (Z.leb_gt idx (Z.of_nat p))) in Hst by lia.
      assert (accounts st' !! p = Some (set_index (Z.of_nat p) a)) as Hp'
        by (rewrite Hlook, decide_True by lia; by rewrite Ha).
      split; [apply Hget; lia|]. split; [done|].
      eexists. split; [exact Hp'|]. done.
    + rewrite (proj2 (Z.leb_le idx (Z.of_nat p))) in Hst by lia.
      assert (accounts st' !! Nat.pred p
              = Some (set_index (Z.of_nat (Nat.pred p)) a)) as Hp'.
      { rewrite Hlook, decide_False by lia.
        replace (S (Nat.pred p)) with p by lia. by rewrite Ha. }
      split; [apply Hget; lia|]. split; [done|].
      eexists. split; [exact Hp'|]. done.
  - intros Heq Hmany. cbv zeta.
    specialize (Hst ltac:(lia)).
    rewrite (proj2 (Z.leb_le idx (Z.of_nat p))) in Hst by lia.
    assert (accounts st' !! Nat.pred p =
            set_index (Z.of_nat (Nat.pred p)) <$>
              accounts st !!
                (if decide (p = 0)%nat then 1%nat else Nat.pred p)) as Hp'.
    { rewrite Hlook. f_equal. destruct (decide (p = 0%nat)) as [->|Hp0].
      * rewrite decide_False by lia. done.
      * rewrite decide_True by lia. done. }
    split; [apply Hget; lia|]. split; [done|].
    assert (is_Some (accounts st !!
              (if decide (p = 0)%nat then 1%nat else Nat.pred p)))
      as [b Hb].
    { apply lookup_lt_is_Some. case_decide; lia. }
    exists (set_index (Z.of_nat (Nat.pred p)) b), b.
    split; [by rewrite Hp', Hb|]. done.
Qed.

Lemma removal_and_current_account_witness :
  let st := (getCurrentOrNextForFamily 203 Gemini first_exhausted).2 in
  getCurrentAccountForFamily (removeAccount 0 st).2 Gemini = Some 0%nat
  ∧ email <$> accounts (removeAccount 0 st).2 !! 0%nat
    = Some (Some "bob@example.com").
Proof.
  intros st.
  destruct (removal_and_current_account 0 st Gemini 1
              (mkAccount 1 (Some "bob@example.com") "proj" "rt-b"
                 (Some "tok") (Some 3600) 101 203 ∅ (Some RateLimit)))
    as [Hother _].
  - vm_compute. split; [discriminate | reflexivity].
  - reflexivity.
  - reflexivity.
  - destruct (Hother ltac:(lia)) as (Hcur & Hacc & _). split; [exact Hcur|].
    simpl in Hacc. rewrite Hacc. reflexivity.
Defined.

(** * Properties of the request transformation *)

(** ** Cleaning a JSON schema *)

Lemma obj_get_fmap (g : string → json → json) key entries :
  obj_get key ((λ kv, (kv.1, g kv.1 kv.2)) <$> entries) =
  g key <$> obj_get key entries.
Proof.
  induction entries as [|[k v] entries IH]; [done|].
  cbn [fmap list_fmap obj_get fst snd].
  destruct (String.eqb k key) eqn:E; [|exact IH].
  apply String.eqb_eq in E. by subst k.
Qed.

(** No decimal index is the name [__proto__]. *)
Lemma pretty_N_go_not_underscore x s s' :
  s ≠ "_" +:+ s' → pretty_N_go x s ≠ "_" +:+ s'.
Proof.
  revert s. induction (N.lt_wf_0 x) as [x _ IH]; intros s Hs.
  assert (x = 0 ∨ 0 < x)%N as [->|Hx] by lia.
  - by rewrite pretty_N_go_0.
  - rewrite pretty_N_go_step by done. apply IH.
    { by apply N.div_lt. }
    unfold pretty_N_char. by repeat case_match.
Qed.

Lemma index_is_not_proto (i : nat) : pretty i ≠ "__proto__".
Proof.
  unfold pretty, pretty_nat, pretty, pretty_N. case_decide; [done|].
  by apply (pretty_N_go_not_underscore _ "" "_proto__").
Qed.

Lemma own_property_other name v :
  name ≠ "__proto__" → own_property name v = Some (name, v).
Proof.
  intros Hname%String.eqb_neq. unfold own_property. by rewrite Hname.
Qed.

Lemma array_entries_own (g : json → json) l :
  omap (λ nv, own_property nv.1 (g nv.2)) (array_entries l)
  = array_entries (g <$> l).
Proof.
  unfold array_entries.
  enough (∀ k : nat → string, (∀ i, k i ≠ "__proto__") →
            omap (λ nv, own_property nv.1 (g nv.2)) (imap (λ i v, (k i, v)) l)
            = imap (λ i v, (k i, v)) (g <$> l)) as H
    by apply (H pretty), index_is_not_proto.
  induction l as [|v l IH]; intros k Hk; [done|].
  cbn [imap fmap list_fmap omap list_omap fst snd].
  rewrite own_property_other by apply Hk. f_equal.
  apply (IH (k ∘ S)). intros i. apply Hk.
Qed.

(** The own entries of a cleaned [properties] object. *)
Lemma own_entries_keys (g : json → json) l name :
  name ∈ (omap (λ nv, own_property nv.1 (g nv.2)) l).*1
  ↔ name ≠ "__proto__" ∧ name ∈ l.*1.
Proof.
  induction l as [|[k v] l IH].
  - cbn. rewrite elem_of_nil. tauto.
  - cbn [omap list_omap fmap list_fmap fst snd].
    destruct (decide (k = "__proto__")) as [->|Hk].
    + change (own_property "__proto__" (g v)) with (@None (string * json)).
      rewrite IH, elem_of_cons.
      split; [tauto|]. intros [Hne [->|Hin]]; [done|tauto].
    + rewrite own_property_other by done. cbn [fmap list_fmap fst].
      rewrite !elem_of_cons, IH. split; [|tauto].
      intros [->|[? ?]]; tauto.
Qed.

Lemma own_entries_get (g : json → json) l name :
  obj_get name (omap (λ nv, own_property nv.1 (g nv.2)) l)
  = if decide (name = "__proto__") then None else g <$> obj_get name l.
Proof.
  induction l as [|[k v] l IH].
  - by case_decide.
  - cbn [omap list_omap fst snd].
    destruct (decide (k = "__proto__")) as [->|Hk].
    + change (own_property "__proto__" (g v)) with (@None (string * json)).
      etrans; [exact IH|]. case_decide as Hname; [done|].
      cbn [obj_get].
      by rewrite (proj2 (String.eqb_neq "__proto__" name)) by congruence.
    + rewrite own_property_other by done. cbn [obj_get].
      destruct (String.eqb k name) eqn:E; [|exact IH].
      apply String.eqb_eq in E. subst k. by rewrite decide_False.
Qed.

Lemma own_entries_idemp (g : json → json) l :
  Forall (λ kv, g (g kv.2) = g kv.2) l →
  omap (λ nv, own_property nv.1 (g nv.2))
    (omap (λ nv, own_property nv.1 (g nv.2)) l)
  = omap (λ nv, own_property nv.1 (g nv.2)) l.
Proof.
  induction 1 as [|[k v] l Hv _ IH]; [done|].
  cbn [snd] in Hv. cbn [omap list_omap fst snd].
  destruct (decide (k = "__proto__")) as [->|Hk].
  - change (own_property "__proto__" (g v)) with (@None (string * json)).
    exact IH.
  - rewrite own_property_other by done. cbn [omap list_omap fst snd].
    rewrite own_property_other by done. by rewrite Hv, IH.
Qed.

(** [cleanJSONSchema] as the source writes it: for each allowed key that
    the schema has, in the order of [allowedKeys], the value, cleaned when
    it is the object under [properties] or [items]. *)
Lemma cleanJSONSchema_object entries :
  cleanJSONSchema (JObject entries) =
  omap (λ key, value ← obj_get key entries;
               Some (key, clean_value key value)) allowedKeys.
Proof.
  transitivity
    (omap (λ key, (λ v, (key, v)) <$>
                    obj_get key ((λ kv, (kv.1, clean_value kv.1 kv.2))
                                   <$> entries)) allowedKeys).
  - cbn [cleanJSONSchema].
    match goal with
    | |- context [?f <$> entries] =>
        rewrite (list_fmap_ext f (λ kv, (kv.1, clean_value kv.1 kv.2))
                   entries)
    end; [done|].
    intros i [key value] _. cbn [fst snd]. f_equal.
    unfold clean_value, clean_nested.
    destruct (String.eqb key "properties").
    + destruct value; cbn [is_object andb object_entries];
        rewrite ?andb_false_r; try done.
      * exact (f_equal JObject
                 (eq_sym (array_entries_own clean_nested elements))).
      * f_equal. apply list_omap_ext, Forall2_same_length_lookup_2; [done|].
        intros j [name pv] nv' Hj Hj'. by assert (nv' = (name, pv)) as ->
          by congruence.
    + cbn [andb]. destruct (String.eqb key "items"); [|done].
      cbn [andb]. by destruct (is_object value).
  - apply list_omap_ext, Forall2_same_length_lookup_2; [done|].
    intros i key key' Hk Hk'. assert (key' = key) as -> by congruence.
    rewrite obj_get_fmap. by destruct (obj_get key entries).
Qed.

Lemma allowedKeys_NoDup : NoDup allowedKeys.
Proof. apply (bool_decide_unpack _). vm_compute. reflexivity. Qed.

Lemma omap_keys_sublist {A} (f : string → option (string * A)) l :
  (∀ k y, f k = Some y → y.1 = k) → (omap f l).*1 `sublist_of` l.
Proof.
  intros Hf. induction l as [|k l IH]; [done|].
  cbn [omap list_omap]. destruct (f k) as [y|] eqn:E.
  - cbn [fmap list_fmap]. rewrite (Hf k y E). by apply sublist_skip.
  - by apply sublist_cons.
Qed.

Lemma obj_get_omap (h : string → option json) (g : string → json → json)
    key l :
  NoDup l →
  obj_get key (omap (λ k, v ← h k; Some (k, g k v)) l) =
  if decide (key ∈ l) then g key <$> h key else None.
Proof.
  induction l as [|k l IH]; intros Hnd.
  - by rewrite decide_False by apply not_elem_of_nil.
  - apply NoDup_cons in Hnd as [Hk Hnd]. specialize (IH Hnd).
    cbn [omap list_omap].
    destruct (decide (key = k)) as [->|Hne].
    + rewrite decide_True by apply list_elem_of_here.
      destruct (h k) as [v|]; cbn [mbind option_bind].
      * cbn [obj_get]. by rewrite String.eqb_refl.
      * rewrite IH. by rewrite decide_False.
    + assert (String.eqb k key = false) as Hkk
        by (apply String.eqb_neq; congruence).
      destruct (h k) as [v|]; cbn [mbind option_bind obj_get];
        rewrite ?Hkk, IH;
        destruct (decide (key ∈ l)) as [Hin|Hnin].
      * by rewrite decide_True by (by apply list_elem_of_further).
      * rewrite decide_False; [done|].
        by intros [?|?]%elem_of_cons.
      * by rewrite decide_True by (by apply list_elem_of_further).
      * rewrite decide_False; [done|].
        by intros [?|?]%elem_of_cons.
Qed.

Lemma obj_get_elem key entries v :
  obj_get key entries = Some v → (key, v) ∈ entries.
Proof.
  induction entries as [|[k w] entries IH]; [done|].
  cbn [obj_get]. destruct (String.eqb k key) eqn:E.
  - apply String.eqb_eq in E. intros [= ->]. subst k.
    apply list_elem_of_here.
  - intros H. by apply list_elem_of_further, IH.
Qed.

Lemma obj_get_keys key entries :
  key ∉ entries.*1 → obj_get key entries = None.
Proof.
  intros Hk. destruct (obj_get key entries) as [v|] eqn:E; [|done].
  exfalso. apply Hk. apply obj_get_elem in E.
  apply list_elem_of_fmap. by exists (key, v).
Qed.

Lemma cleanJSONSchema_get schema key :
  obj_get key (cleanJSONSchema schema) =
  match schema with
  | JObject entries =>
      if decide (key ∈ allowedKeys)
      then clean_value key <$> obj_get key entries else None
  | _ => None
  end.
Proof.
  destruct schema as [| | | | |entries]; try done.
  rewrite cleanJSONSchema_object.
  apply (obj_get_omap (λ k, obj_get k entries) clean_value).
  apply allowedKeys_NoDup.
Qed.

Lemma cleanJSONSchema_sublist schema :
  (cleanJSONSchema schema).*1 `sublist_of` allowedKeys.
Proof.
  destruct schema as [| | | | |entries]; try apply sublist_nil_l.
  rewrite cleanJSONSchema_object. apply omap_keys_sublist.
  intros k y. destruct (obj_get k entries); [|done].
  cbn [mbind option_bind]. by intros [= <-].
Qed.

(** Induction on JSON values, with the hypothesis for every element of an
    array and every value of an object. *)
Lemma json_induction (P : json → Prop) :
  P JNull → (∀ b, P (JBool b)) → (∀ x, P (JNumber x)) →
  (∀ s, P (JString s)) →
  (∀ elements, Forall P elements → P (JArray elements)) →
  (∀ entries, Forall (λ kv, P kv.2) entries → P (JObject entries)) →
  ∀ v, P v.
Proof.
  intros Hnull Hbool Hnum Hstr Harr Hobj.
  fix IH 1. intros [|b|x|s|elements|entries].
  - exact Hnull.
  - apply Hbool.
  - apply Hnum.
  - apply Hstr.
  - apply Harr. induction elements as [|e elements IHl]; constructor.
    + apply IH.
    + exact IHl.
  - apply Hobj. induction entries as [|[k e] entries IHl]; constructor.
    + apply IH.
    + exact IHl.
Qed.

(** Values of the entries of an object or an array. *)
Lemma object_entries_values (P : json → Prop) v :
  match v with
  | JObject entries => Forall (λ kv, P kv.2) entries
  | JArray elements => Forall P elements
  | _ => True
  end →
  Forall (λ kv, P kv.2) (object_entries v).
Proof.
  destruct v as [| | | |elements|entries]; cbn [object_entries];
    try (intros _; constructor); [|done].
  intros Hall. unfold array_entries. apply Forall_lookup.
  intros i [k e]. rewrite list_lookup_imap.
  destruct (elements !! i) as [e'|] eqn:Hi; [|done].
  cbn. intros [= <- <-]. by eapply Forall_lookup_1.
Qed.

Lemma clean_nested_idemp pv :
  cleanJSONSchema (JObject (cleanJSONSchema pv)) = cleanJSONSchema pv →
  clean_nested (clean_nested pv) = clean_nested pv.
Proof.
  intros Hpv. unfold clean_nested.
  destruct (is_object pv) eqn:E; [|by rewrite E].
  cbn [is_object]. by rewrite Hpv.
Qed.

Lemma cleanJSONSchema_idemp schema :
  cleanJSONSchema (JObject (cleanJSONSchema schema)) = cleanJSONSchema schema.
Proof.
  set (idem v :=
         cleanJSONSchema (JObject (cleanJSONSchema v)) = cleanJSONSchema v).
  enough (idem schema
          ∧ match schema with
            | JObject entries => Forall (λ kv, idem kv.2) entries
            | JArray elements => Forall idem elements
            | _ => True
            end) as [H _] by exact H.
  induction schema as [|b|x|s|elements IH|entries IH] using json_induction;
    try (split; [reflexivity | exact I]).
  - split; [reflexivity|]. eapply Forall_impl; [exact IH|]. by intros v [? _].
  - assert (Forall (λ kv, idem kv.2) entries) as Hidem
      by (eapply Forall_impl; [exact IH|]; by intros v [? _]).
    split; [|exact Hidem].
    unfold idem. rewrite !cleanJSONSchema_object.
    apply list_omap_ext, Forall2_same_length_lookup_2; [done|].
    intros i key key' Hk Hk'. assert (key' = key) as -> by congruence.
    rewrite <- cleanJSONSchema_object, cleanJSONSchema_get.
    rewrite decide_True by (apply list_elem_of_lookup; eauto).
    destruct (obj_get key entries) as [v|] eqn:Hv; [|done].
    cbn [fmap option_fmap option_map mbind option_bind]. do 2 f_equal.
    apply obj_get_elem in Hv.
    rewrite Forall_forall in IH. destruct (IH _ Hv) as [Hv1 Hv2].
    cbn [snd] in Hv1, Hv2.
    unfold clean_value.
    destruct (String.eqb key "properties") eqn:Eprop; cbn [andb].
    + destruct (is_object v) eqn:Eobj;
        [|rewrite ?andb_false_r; cbv iota; by rewrite Eobj, ?andb_false_r].
      cbn [is_object object_entries]. f_equal.
      apply own_entries_idemp.
      pose proof (object_entries_values idem v Hv2) as Hvals.
      eapply Forall_impl; [exact Hvals|].
      intros [name pv] Hpv. by apply clean_nested_idemp.
    + destruct (String.eqb key "items") eqn:Eitems; cbn [andb]; [|done].
      destruct (is_object v) eqn:Eobj; [|by rewrite Eobj].
      cbn [is_object]. f_equal. exact Hv1.
Qed.

(** X13: [cleanJSONSchema] returns an object whose keys are allowed keys,
    each once and in the order of the allow list; a key that is not
    allowed is dropped; an allowed key of the schema is kept, with its
    value unchanged unless it is the object under [properties] or [items],
    which is cleaned in turn; an array is turned into the empty object;
    and cleaning a cleaned schema changes nothing.  The cleaned
    [properties] hold every property of the schema's, itself cleaned when
    it is an object, except one named [__proto__]: that one is never an
    entry of the result. *)
Theorem cleanJSONSchema_keeps_allowed_keys schema :
  (cleanJSONSchema schema).*1 `sublist_of` allowedKeys
  ∧ (∀ key, key ∉ allowedKeys → obj_get key (cleanJSONSchema schema) = None)
  ∧ (∀ key, key ∈ allowedKeys →
       obj_get key (cleanJSONSchema schema) =
       match schema with
       | JObject entries => clean_value key <$> obj_get key entries
       | _ => None
       end)
  ∧ (∀ key value, key ≠ "properties" → key ≠ "items" →
       clean_value key value = value)
  ∧ (∀ elements, cleanJSONSchema (JArray elements) = [])
  ∧ cleanJSONSchema (JObject (cleanJSONSchema schema))
    = cleanJSONSchema schema
  ∧ (∀ key value, is_object value = false → clean_value key value = value)
  ∧ (∀ value, is_object value = true →
       clean_value "items" value = JObject (cleanJSONSchema value))
  ∧ (∀ value, is_object value = true →
       ∃ props,
         clean_value "properties" value = JObject props
         ∧ ("__proto__" ∉ props.*1)
         ∧ ∀ name,
             obj_get name props =
             if decide (name = "__proto__") then None
             else (λ pv, if is_object pv then JObject (cleanJSONSchema pv)
                         else pv) <$> obj_get name (object_entries value)).
Proof.
  split; [apply cleanJSONSchema_sublist|].
  split.
  { intros key Hkey. rewrite cleanJSONSchema_get.
    destruct schema; try done. by rewrite decide_False. }
  split.
  { intros key Hkey. rewrite cleanJSONSchema_get.
    destruct schema; try done. by rewrite decide_True. }
  split.
  { intros key value H1%String.eqb_neq H2%String.eqb_neq.
    unfold clean_value. by rewrite H1, H2. }
  split; [done|]. split; [apply cleanJSONSchema_idemp|].
  split.
  { intros key value Hv. unfold clean_value.
    by rewrite Hv, !andb_false_r. }
  split.
  { intros value Hv. unfold clean_value. by rewrite Hv. }
  intros value Hv. unfold clean_value. rewrite Hv. cbn [String.eqb andb].
  eexists. split; [reflexivity|]. split.
  - rewrite own_entries_keys. by intros [? _].
  - intros name. apply (own_entries_get clean_nested).
Qed.

Lemma cleanJSONSchema_keeps_allowed_keys_witness :
  let schema :=
    JObject [("title", JString "t");
             ("properties",
              JObject [("__proto__", JObject [("type", JString "string")]);
                       ("q", JObject [("format", JString "f");
                                      ("type", JString "number")])]);
             ("type", JString "object")] in
  obj_get "title" (cleanJSONSchema schema) = None
  ∧ obj_get "properties" (cleanJSONSchema schema)
    = Some (JObject [("q", JObject [("type", JString "number")])])
  ∧ (cleanJSONSchema schema).*1 = ["type"; "properties"].
Proof.
  intros schema.
  destruct (cleanJSONSchema_keeps_allowed_keys schema)
    as (_ & Hdrop & Hkeep & _).
  split; [|split].
  - apply Hdrop. apply (bool_decide_unpack _). by vm_compute.
  - specialize (Hkeep "properties").
    rewrite Hkeep by (apply (bool_decide_unpack _); by vm_compute).
    reflexivity.
  - reflexivity.
Defined.

(** ** Schemas for Claude *)

Lemma obj_get_set key key' v entries :
  obj_get key' (obj_set key v entries) =
  if decide (key' = key) then Some v else obj_get key' entries.
Proof.
  induction entries as [|[k w] entries IH]; cbn [obj_set obj_get].
  - case_decide as Hk.
    + subst. by rewrite String.eqb_refl.
    + by rewrite (proj2 (String.eqb_neq key key')) by congruence.
  - destruct (String.eqb k key) eqn:E; cbn [obj_get].
    + apply String.eqb_eq in E. subst k.
      destruct (String.eqb key key') eqn:E'.
      * apply String.eqb_eq in E'. by rewrite decide_True.
      * apply String.eqb_neq in E'. by rewrite decide_False by congruence.
    + destruct (String.eqb k key') eqn:E'; [|exact IH].
      apply String.eqb_eq in E'. subst k.
      apply String.eqb_neq in E. by rewrite decide_False by congruence.
Qed.

Lemma obj_set_keys key v entries k :
  k ∈ (obj_set key v entries).*1 ↔ k = key ∨ k ∈ entries.*1.
Proof.
  induction entries as [|[k' w] entries IH]; cbn [obj_set].
  - cbn. rewrite list_elem_of_singleton. rewrite elem_of_nil. tauto.
  - destruct (String.eqb k' key) eqn:E; cbn [fmap list_fmap fst].
    + apply String.eqb_eq in E. subst k'. rewrite !elem_of_cons. tauto.
    + rewrite !elem_of_cons, IH. tauto.
Qed.

Lemma obj_set_NoDup key v entries :
  NoDup entries.*1 → NoDup (obj_set key v entries).*1.
Proof.
  induction entries as [|[k' w] entries IH]; cbn [obj_set].
  - intros _. cbn. apply NoDup_singleton.
  - cbn [fmap list_fmap fst]. intros [Hk Hnd]%NoDup_cons.
    destruct (String.eqb k' key) eqn:E; cbn [fmap list_fmap fst].
    + by apply NoDup_cons.
    + apply NoDup_cons. split; [|by apply IH].
      rewrite obj_set_keys. intros [->|?]; [|done].
      by rewrite String.eqb_refl in E.
Qed.

Lemma createPlaceholderSchema_shape :
  obj_get "type" createPlaceholderSchema = Some (JString "object")
  ∧ obj_get "properties" createPlaceholderSchema = Some placeholder_properties
  ∧ obj_get "required" createPlaceholderSchema
    = Some (JArray [JString EMPTY_SCHEMA_PLACEHOLDER_NAME]).
Proof. by vm_compute. Qed.

Lemma cleaned_properties v props :
  obj_get "properties" (cleanJSONSchema v) = Some (JObject props) →
  ∃ entries pv,
    v = JObject entries
    ∧ obj_get "properties" entries = Some pv
    ∧ is_object pv = true
    ∧ props = omap (λ nv, own_property nv.1 (clean_nested nv.2))
                (object_entries pv).
Proof.
  rewrite cleanJSONSchema_get. destruct v as [| | | | |entries]; try done.
  case_decide; [|done].
  destruct (obj_get "properties" entries) as [pv|] eqn:Hpv; [|done].
  cbn [fmap option_fmap option_map]. unfold clean_value.
  rewrite String.eqb_refl. cbn [andb].
  destruct (is_object pv) eqn:Eobj.
  - intros [= <-]. by exists entries, pv.
  - intros [= ->]. done.
Qed.

Lemma hasProperties_cleaned v :
  hasProperties (cleanJSONSchema v) = true
  ↔ ∃ entries pv name,
      v = JObject entries
      ∧ obj_get "properties" entries = Some pv
      ∧ is_object pv = true
      ∧ name ∈ (object_entries pv).*1
      ∧ name ≠ "__proto__".
Proof.
  unfold hasProperties. split.
  - destruct (obj_get "properties" (cleanJSONSchema v))
      as [[| | | |elements|props]|] eqn:E; try done.
    + rewrite cleanJSONSchema_get in E.
      destruct v as [| | | | |entries]; try done.
      case_decide; [|done].
      destruct (obj_get "properties" entries) as [pv|]; [|done].
      cbn [fmap option_fmap option_map] in E. unfold clean_value in E.
      rewrite String.eqb_refl in E. cbn [andb] in E.
      by destruct pv.
    + apply cleaned_properties in E as (entries & pv & -> & Hpv & Hobj & ->).
      destruct (omap _ (object_entries pv)) as [|[name w] rest] eqn:Eo;
        [done|].
      intros _. exists entries, pv, name. do 3 (split; [done|]).
      assert (name ∈ (omap (λ nv, own_property nv.1 (clean_nested nv.2))
                        (object_entries pv)).*1) as Hin
        by (rewrite Eo; apply list_elem_of_here).
      by apply own_entries_keys in Hin as [? ?].
  - intros (entries & pv & name & -> & Hpv & Hobj & Hname & Hne).
    rewrite cleanJSONSchema_get.
    rewrite decide_True by (apply (bool_decide_unpack _); by vm_compute).
    rewrite Hpv. cbn [fmap option_fmap option_map]. unfold clean_value.
    rewrite Hobj. cbn [String.eqb andb].
    assert (name ∈ (omap (λ nv, own_property nv.1 (clean_nested nv.2))
                      (object_entries pv)).*1) as Hin
      by (by apply own_entries_keys).
    destruct (omap _ (object_entries pv)); [|done].
    by apply elem_of_nil in Hin.
Qed.

Lemma cleaned_properties_shape v :
  match obj_get "properties" (cleanJSONSchema v) with
  | Some (JArray _) => False
  | _ => True
  end.
Proof.
  rewrite cleanJSONSchema_get. destruct v as [| | | | |entries]; try done.
  case_decide; [|done].
  destruct (obj_get "properties" entries) as [pv|]; [|done].
  cbn [fmap option_fmap option_map]. unfold clean_value.
  rewrite String.eqb_refl. cbn [andb].
  destruct pv; cbn [is_object]; done.
Qed.

(** X14: whatever it is given (nothing, a value that is no object, an
    array, an object), [cleanSchemaForClaude] returns a schema of type
    [object] with at least one property, whose keys are allowed keys, each
    once; when the cleaned input has properties of its own, only its
    [type] is set, and otherwise its [properties] and [required] name the
    placeholder.  The input has properties of its own exactly when it is
    an object whose [properties] is an object or an array with an entry
    not named [__proto__]; no property of the result has that name. *)
Theorem cleanSchemaForClaude_has_a_property schema :
  let result := cleanSchemaForClaude schema in
  obj_get "type" result = Some (JString "object")
  ∧ (∃ name v rest,
       obj_get "properties" result = Some (JObject ((name, v) :: rest)))
  ∧ (∀ key, key ∈ result.*1 → key ∈ allowedKeys)
  ∧ NoDup result.*1
  ∧ (∀ v, schema = Some v → is_object v = true →
       if hasProperties (cleanJSONSchema v)
       then result = obj_set "type" (JString "object") (cleanJSONSchema v)
       else obj_get "properties" result = Some placeholder_properties
            ∧ obj_get "required" result
              = Some (JArray [JString EMPTY_SCHEMA_PLACEHOLDER_NAME]))
  ∧ (match schema with Some v => is_object v = false | None => True end →
     result = createPlaceholderSchema)
  ∧ (∀ v, hasProperties (cleanJSONSchema v) = true
          ↔ ∃ entries pv name,
              v = JObject entries
              ∧ obj_get "properties" entries = Some pv
              ∧ is_object pv = true
              ∧ name ∈ (object_entries pv).*1
              ∧ name ≠ "__proto__")
  ∧ (∀ props, obj_get "properties" result = Some (JObject props) →
              "__proto__" ∉ props.*1).
Proof.
  intros result. unfold result. clear result.
  enough (Hmain :
    (obj_get "type" (cleanSchemaForClaude schema) = Some (JString "object")
     ∧ (∃ name v rest,
          obj_get "properties" (cleanSchemaForClaude schema)
          = Some (JObject ((name, v) :: rest)))
     ∧ (∀ key, key ∈ (cleanSchemaForClaude schema).*1 → key ∈ allowedKeys)
     ∧ NoDup (cleanSchemaForClaude schema).*1
     ∧ (∀ v, schema = Some v → is_object v = true →
          if hasProperties (cleanJSONSchema v)
          then cleanSchemaForClaude schema
               = obj_set "type" (JString "object") (cleanJSONSchema v)
          else obj_get "properties" (cleanSchemaForClaude schema)
               = Some placeholder_properties
               ∧ obj_get "required" (cleanSchemaForClaude schema)
                 = Some (JArray [JString EMPTY_SCHEMA_PLACEHOLDER_NAME]))
     ∧ (match schema with Some v => is_object v = false | None => True end →
        cleanSchemaForClaude schema = createPlaceholderSchema))).
  { destruct Hmain as (H1 & H2 & H3 & H4 & H5 & H6).
    do 6 (split; [done|]). split; [apply hasProperties_cleaned|].
    intros props Hprops.
    assert (Hplace : ∀ w, Some placeholder_properties = Some (JObject w) →
                          "__proto__" ∉ w.*1).
    { intros w [= <-]. cbn. rewrite list_elem_of_singleton. done. }
    destruct schema as [v|]; [destruct (is_object v) eqn:Eobj|].
    - specialize (H5 v eq_refl Eobj).
      destruct (hasProperties (cleanJSONSchema v)) eqn:Ehas.
      + rewrite H5, obj_get_set, decide_False in Hprops by done.
        apply cleaned_properties in Hprops as (? & ? & _ & _ & _ & ->).
        rewrite own_entries_keys. by intros [? _].
      + destruct H5 as [H5 _]. rewrite H5 in Hprops. by apply Hplace.
    - rewrite (H6 eq_refl) in Hprops. by apply Hplace.
    - rewrite (H6 I) in Hprops. by apply Hplace. }
  assert (Hplace :
    obj_get "type" createPlaceholderSchema = Some (JString "object")
    ∧ (∃ name v rest,
         obj_get "properties" createPlaceholderSchema
         = Some (JObject ((name, v) :: rest)))
    ∧ (∀ key, key ∈ createPlaceholderSchema.*1 → key ∈ allowedKeys)
    ∧ NoDup createPlaceholderSchema.*1).
  { split; [done|]. split; [by do 3 eexists|]. split.
    - intros key Hkey. vm_compute in Hkey.
      repeat (apply elem_of_cons in Hkey as [->|Hkey];
              [apply (bool_decide_unpack _); by vm_compute|]).
      by apply elem_of_nil in Hkey.
    - apply (bool_decide_unpack _). by vm_compute. }
  unfold cleanSchemaForClaude.
  destruct schema as [v|]; [destruct (is_object v) eqn:Eobj|].
  2:{ destruct Hplace as (? & ? & ? & ?).
      do 4 (split; [done|]). split; [|done].
      intros v' [= <-] Hv'. congruence. }
  2:{ destruct Hplace as (? & ? & ? & ?).
      do 4 (split; [done|]). split; [|done]. by intros v' [=]. }
  cbv zeta.
  set (cleaned := cleanJSONSchema v).
  assert (∀ key, key ∈ cleaned.*1 → key ∈ allowedKeys) as Hkeys.
  { intros key Hkey.
    by apply (sublist_subseteq _ _ (cleanJSONSchema_sublist v)). }
  assert (NoDup cleaned.*1) as Hnd.
  { eapply sublist_NoDup; [apply allowedKeys_NoDup|].
    apply cleanJSONSchema_sublist. }
  assert (Hin : ∀ key, key ∈ ["type"; "properties"; "required"] →
                       key ∈ allowedKeys).
  { intros key Hkey.
    repeat (apply elem_of_cons in Hkey as [->|Hkey];
            [apply (bool_decide_unpack _); by vm_compute|]).
    by apply elem_of_nil in Hkey. }
  destruct (hasProperties cleaned) eqn:Ehas.
  - split; [by rewrite obj_get_set, decide_True|].
    split.
    { rewrite obj_get_set, decide_False by done.
      unfold hasProperties in Ehas.
      pose proof (cleaned_properties_shape v) as Hshape. fold cleaned in Hshape.
      destruct (obj_get "properties" cleaned) as [[| | | |l|[|[name w] rest]]|];
        try done.
      by do 3 eexists. }
    split.
    { intros key [->|Hkey]%obj_set_keys; [|by apply Hkeys].
      apply Hin, list_elem_of_here. }
    split; [by apply obj_set_NoDup|].
    split; [|done].
    intros v' [= <-] _. fold cleaned. by rewrite Ehas.
  - split.
    { rewrite !obj_get_set. rewrite decide_False by done.
      rewrite decide_False by done. by rewrite decide_True. }
    split.
    { rewrite obj_get_set, decide_False by done.
      rewrite obj_get_set, decide_True by done. by do 3 eexists. }
    split.
    { intros key [->|[->|[->|Hkey]%obj_set_keys]%obj_set_keys]%obj_set_keys;
        [apply Hin; repeat constructor..|by apply Hkeys]. }
    split; [by do 3 apply obj_set_NoDup|].
    split; [|done].
    intros v' [= <-] _. fold cleaned. rewrite Ehas. split.
    + rewrite obj_get_set, decide_False by done.
      by rewrite obj_get_set, decide_True.
    + by rewrite obj_get_set, decide_True.
Qed.

Lemma cleanSchemaForClaude_has_a_property_witness :
  cleanSchemaForClaude (Some (JString "none")) = createPlaceholderSchema
  ∧ cleanSchemaForClaude
      (Some (JObject [("title", JString "t");
                      ("properties", JObject [("q", JObject [])])]))
    = [("properties", JObject [("q", JObject [])]);
       ("type", JString "object")]
  ∧ obj_get "properties"
      (cleanSchemaForClaude
         (Some (JObject [("properties",
                          JObject [("__proto__", JObject [])])])))
    = Some placeholder_properties.
Proof.
  split; [|split].
  - apply (cleanSchemaForClaude_has_a_property (Some (JString "none"))).
    reflexivity.
  - destruct (cleanSchemaForClaude_has_a_property
                (Some (JObject [("title", JString "t");
                                ("properties", JObject [("q", JObject [])])])))
      as (_ & _ & _ & _ & H & _).
    specialize (H _ eq_refl eq_refl). vm_compute in H. exact H.
  - destruct (cleanSchemaForClaude_has_a_property
                (Some (JObject [("properties",
                                 JObject [("__proto__", JObject [])])])))
      as (_ & _ & _ & _ & H & _).
    specialize (H _ eq_refl eq_refl). vm_compute in H. apply H.
Defined.

(** ** Tool names and tool declarations *)

Lemma sanitize_char_ok c :
  is_tool_name_char (if is_tool_name_char c then c else 95%N) = true.
Proof. by destruct (is_tool_name_char c) eqn:E. Qed.

Lemma sanitize_valid name :
  Forall (λ c, is_tool_name_char c = true) name →
  (λ c, if is_tool_name_char c then c else 95%N) <$> name = name.
Proof.
  induction 1 as [|c name Hc _ IH]; [done|].
  cbn [fmap list_fmap]. rewrite Hc. by f_equal.
Qed.

Lemma sanitizeToolName_bounds name :
  length (sanitizeToolName name) = (length name `min` 64)%nat
  ∧ Forall (λ c, is_tool_name_char c = true) (sanitizeToolName name).
Proof.
  unfold sanitizeToolName. split.
  - rewrite length_take, length_fmap. lia.
  - apply Forall_take, Forall_fmap, Forall_forall.
    intros c _. apply sanitize_char_ok.
Qed.

(** X15: [sanitizeToolName] keeps the first 64 code units of the name and
    replaces, position by position, every one that is not an ASCII
    letter, a digit, an underscore or a hyphen by an underscore; the
    result has only such characters and at most 64 of them, a name that
    is already of that form is returned unchanged, and sanitizing twice is
    sanitizing once. *)
Theorem sanitizeToolName_spec name :
  length (sanitizeToolName name) = (length name `min` 64)%nat
  ∧ Forall (λ c, is_tool_name_char c = true) (sanitizeToolName name)
  ∧ (∀ i, (i < 64)%nat →
          sanitizeToolName name !! i =
          (λ c, if is_tool_name_char c then c else 95%N) <$> name !! i)
  ∧ (Forall (λ c, is_tool_name_char c = true) name →
     (length name ≤ 64)%nat → sanitizeToolName name = name)
  ∧ sanitizeToolName (sanitizeToolName name) = sanitizeToolName name.
Proof.
  destruct (sanitizeToolName_bounds name) as [Hlen Hok].
  split; [exact Hlen|]. split; [exact Hok|]. split.
  { intros i Hi. unfold sanitizeToolName.
    rewrite lookup_take_lt by done. apply list_lookup_fmap. }
  split.
  { intros Hvalid Hshort. unfold sanitizeToolName.
    rewrite sanitize_valid by done. by apply take_ge. }
  unfold sanitizeToolName at 1. rewrite (sanitize_valid _ Hok).
  apply take_ge. lia.
Qed.

Lemma sanitizeToolName_spec_witness :
  sanitizeToolName [103; 101; 116; 45; 95; 88; 57]%N
  = [103; 101; 116; 45; 95; 88; 57]%N.
Proof.
  destruct (sanitizeToolName_spec [103; 101; 116; 45; 95; 88; 57]%N)
    as (_ & _ & _ & Hfix & _).
  apply Hfix.
  - repeat constructor.
  - simpl. lia.
Defined.

Lemma cleanSchemaForClaude_shape schema :
  obj_get "type" (cleanSchemaForClaude schema) = Some (JString "object")
  ∧ ∃ name v rest,
      obj_get "properties" (cleanSchemaForClaude schema)
      = Some (JObject ((name, v) :: rest)).
Proof.
  unfold cleanSchemaForClaude.
  destruct schema as [v|]; [destruct (is_object v)|];
    try (split; [done | by do 3 eexists]).
  cbv zeta. destruct (hasProperties (cleanJSONSchema v)) eqn:Ehas.
  - split; [by rewrite obj_get_set, decide_True|].
    rewrite obj_get_set, decide_False by done.
    unfold hasProperties in Ehas.
    pose proof (cleaned_properties_shape v) as Hshape.
    destruct (obj_get "properties" (cleanJSONSchema v))
      as [[| | | |l|[|[name w] rest]]|]; try done.
    by do 3 eexists.
  - split.
    + rewrite !obj_get_set. rewrite decide_False by done.
      rewrite decide_False by done. by rewrite decide_True.
    + rewrite obj_get_set, decide_False by done.
      rewrite obj_get_set, decide_True by done. by do 3 eexists.
Qed.

(** The declaration made from one tool, when its type is [function]. *)
Lemma convertTools_declarations tools isClaude :
  convertToolsToFunctionDeclarations tools isClaude =
  match
    omap (λ tool,
            if String.eqb (tool_type tool) "function" then
              Some (mkDeclaration (sanitizeToolName (tool_name tool))
                      (default EmptyString (tool_description tool))
                      (if isClaude
                       then Some (JObject (cleanSchemaForClaude
                                             (tool_parameters tool)))
                       else tool_parameters tool))
            else None) tools
  with
  | [] => []
  | declarations => [mkGeminiTool declarations]
  end.
Proof.
  unfold convertToolsToFunctionDeclarations. cbv zeta.
  by destruct (omap _ tools).
Qed.

(** X16: [convertToolsToFunctionDeclarations] returns the empty list
    exactly when no tool has type [function], and otherwise one entry
    holding one declaration for each such tool, in order.  Every declared
    name has at most 64 characters, all ASCII letters, digits, underscores
    or hyphens; for Claude every declaration carries a schema of type
    [object] with at least one property, and otherwise the tool's own
    parameters, untouched. *)
Theorem convertTools_spec tools isClaude :
  let result := convertToolsToFunctionDeclarations tools isClaude in
  let functions :=
    filter (λ tool, tool_type tool = "function") tools in
  (result = [] ↔ functions = [])
  ∧ (length result ≤ 1)%nat
  ∧ ∀ entry, entry ∈ result →
      decl_name <$> functionDeclarations entry
        = (sanitizeToolName ∘ tool_name) <$> functions
      ∧ decl_description <$> functionDeclarations entry
        = (default EmptyString ∘ tool_description) <$> functions
      ∧ Forall (λ d, (length (decl_name d) ≤ 64)%nat
                     ∧ Forall (λ c, is_tool_name_char c = true) (decl_name d))
          (functionDeclarations entry)
      ∧ (isClaude = true →
         Forall (λ d, ∃ fields name v rest,
                   decl_parameters d = Some (JObject fields)
                   ∧ obj_get "type" fields = Some (JString "object")
                   ∧ obj_get "properties" fields
                     = Some (JObject ((name, v) :: rest)))
           (functionDeclarations entry))
      ∧ (isClaude = false →
         decl_parameters <$> functionDeclarations entry
           = tool_parameters <$> functions).
Proof.
  cbv zeta. rewrite convertTools_declarations.
  set (declare := λ tool : OpenAITool,
         if String.eqb (tool_type tool) "function" then
           Some (mkDeclaration (sanitizeToolName (tool_name tool))
                   (default EmptyString (tool_description tool))
                   (if isClaude
                    then Some (JObject (cleanSchemaForClaude
                                          (tool_parameters tool)))
                    else tool_parameters tool))
         else None).
  set (build := λ tool : OpenAITool,
         mkDeclaration (sanitizeToolName (tool_name tool))
           (default EmptyString (tool_description tool))
           (if isClaude
            then Some (JObject (cleanSchemaForClaude (tool_parameters tool)))
            else tool_parameters tool)).
  assert (omap declare tools =
          build <$> filter (λ tool, tool_type tool = "function") tools)
    as Hdecl.
  { induction tools as [|tool tools IH]; [done|].
    cbn [omap list_omap]. unfold declare at 1.
    destruct (String.eqb (tool_type tool) "function") eqn:E.
    - apply String.eqb_eq in E. rewrite filter_cons_True by done.
      cbn [fmap list_fmap]. fold (build tool). by f_equal.
    - apply String.eqb_neq in E. by rewrite filter_cons_False. }
  rewrite Hdecl.
  set (functions := filter (λ tool, tool_type tool = "function") tools).
  destruct functions as [|f fs] eqn:Ef.
  { split; [done|]. split; [simpl; lia|]. by intros entry ?%elem_of_nil. }
  rewrite <- Ef. assert (build <$> functions ≠ []) as Hne by (by rewrite Ef).
  destruct (build <$> functions) as [|d ds] eqn:Eb; [done|].
  rewrite <- Eb. clear Hne.
  split; [split; [done | by rewrite Ef]|]. split; [simpl; lia|].
  intros entry ->%list_elem_of_singleton. cbn [functionDeclarations].
  rewrite <- !list_fmap_compose.
  split; [done|]. split; [done|]. split; [|split].
  - apply Forall_fmap, Forall_forall. intros tool _. cbn.
    destruct (sanitizeToolName_bounds (tool_name tool)) as [Hlen Hok].
    split; [lia | done].
  - intros ->. apply Forall_fmap, Forall_forall. intros tool _. cbn.
    destruct (cleanSchemaForClaude_shape (tool_parameters tool))
      as (Htype & name & v & rest & Hprops).
    by exists (cleanSchemaForClaude (tool_parameters tool)), name, v, rest.
  - intros ->. by apply list_fmap_ext.
Qed.

Lemma convertTools_spec_witness :
  ∃ d, convertToolsToFunctionDeclarations sample_tools true
       = [mkGeminiTool [d]]
       ∧ decl_name d
         = [103; 101; 116; 95; 119; 101; 97; 116; 104; 101; 114; 95]%N
       ∧ ∃ fields, decl_parameters d = Some (JObject fields)
                   ∧ obj_get "type" fields = Some (JString "object").
Proof.
  destruct (convertTools_spec sample_tools true) as (_ & _ & Hentry).
  destruct (convertToolsToFunctionDeclarations sample_tools true)
    as [|[[|d [|d' ds]]] [|e es]] eqn:E; try (vm_compute in E; discriminate E).
  exists d. split; [done|].
  destruct (Hentry _ (list_elem_of_here _ _)) as (Hname & _ & _ & Hclaude & _).
  split.
  - cbn in Hname. by injection Hname.
  - specialize (Hclaude eq_refl). apply Forall_cons in Hclaude as [Hd _].
    destruct Hd as (fields & name & v & rest & Hp & Ht & _). eauto.
Defined.

(** ** The model in a URL *)

Lemma match_literal_Some literal s rest :
  match_literal literal s = Some rest ↔ s = literal ++ rest.
Proof.
  revert s. induction literal as [|c literal IH]; intros s.
  - cbn. split; [by intros [= ->] | by intros ->].
  - destruct s as [|d s]; cbn [match_literal]; [done|].
    destruct (c =? d)%N eqn:E.
    + apply N.eqb_eq in E. subst d. rewrite IH. cbn.
      split; [by intros -> | by intros [= ->]].
    + apply N.eqb_neq in E. split; [done|]. cbn. by intros [= -> _].
Qed.

Lemma take_while_split {A} (f : A → bool) l :
  ∃ after,
    l = take_while f l ++ after
    ∧ Forall (λ x, f x = true) (take_while f l)
    ∧ match after with [] => True | c :: _ => f c = false end.
Proof.
  induction l as [|x l (after & Hl & Hall & Hafter)]; cbn [take_while].
  - by exists [].
  - destruct (f x) eqn:E.
    + exists after. split; [cbn; by f_equal|]. split; [by constructor|done].
    + exists (x :: l). by repeat split.
Qed.

Lemma match_model_here_Some s model :
  match_model_here s = Some model →
  model ≠ []
  ∧ Forall (λ c, is_model_char c = true) model
  ∧ ∃ after, s = models_prefix ++ model ++ after
             ∧ match after with
               | [] => True
               | c :: _ => is_model_char c = false
               end.
Proof.
  unfold match_model_here.
  destruct (match_literal models_prefix s) as [rest|] eqn:El; [|done].
  apply match_literal_Some in El.
  destruct (take_while_split is_model_char rest) as (after & Hr & Hall & Ha).
  destruct (take_while is_model_char rest) as [|c m] eqn:Et; [done|].
  intros [= <-]. split; [done|]. split; [done|].
  exists after. split; [by rewrite El, Hr | done].
Qed.

Lemma match_model_here_None s c rest :
  match_model_here s = None →
  s = models_prefix ++ c :: rest → is_model_char c = false.
Proof.
  unfold match_model_here. intros Hnone Hs.
  apply match_literal_Some in Hs. rewrite Hs in Hnone.
  cbn [take_while] in Hnone.
  by destruct (is_model_char c).
Qed.

(** X17: [extractModelFromUrl] returns the run of characters other than
    [:], [/] and [?] that follows the leftmost [/models/] which is
    followed by such a character: the result is not empty, holds none of
    the three delimiters, stands in the URL right after [/models/] and is
    followed there by a delimiter or by the end, and no such occurrence
    starts further left.  It returns null exactly when [/models/] is
    nowhere followed by such a character. *)
Theorem extractModelFromUrl_spec url :
  match extractModelFromUrl url with
  | Some model =>
      model ≠ []
      ∧ Forall (λ c, is_model_char c = true) model
      ∧ ∃ before after,
          url = before ++ models_prefix ++ model ++ after
          ∧ match after with
            | [] => True
            | c :: _ => is_model_char c = false
            end
          ∧ ∀ before' c rest,
              url = before' ++ models_prefix ++ c :: rest →
              is_model_char c = true →
              (length before ≤ length before')%nat
  | None =>
      ∀ before c rest,
        url = before ++ models_prefix ++ c :: rest → is_model_char c = false
  end.
Proof.
  induction url as [|x url IH].
  - cbn [extractModelFromUrl].
    destruct (match_model_here []) eqn:E; [by vm_compute in E|].
    intros [|b before] c rest H; [by vm_compute in H | done].
  - cbn [extractModelFromUrl].
    destruct (match_model_here (x :: url)) as [model|] eqn:Ehere.
    + destruct (match_model_here_Some _ _ Ehere)
        as (Hne & Hall & after & Hs & Hafter).
      split; [done|]. split; [done|].
      exists [], after. split; [done|]. split; [done|].
      intros. simpl. lia.
    + destruct (extractModelFromUrl url) as [model|].
      * destruct IH as (Hne & Hall & before & after & Hs & Hafter & Hleft).
        split; [done|]. split; [done|].
        exists (x :: before), after. split; [by rewrite Hs|].
        split; [done|].
        intros [|y before'] c rest Hocc Hc.
        -- rewrite (match_model_here_None _ _ _ Ehere Hocc) in Hc. done.
        -- injection Hocc as -> Hocc.
           specialize (Hleft before' c rest Hocc Hc). simpl. lia.
      * intros [|y before] c rest Hocc.
        -- by apply (match_model_here_None _ _ _ Ehere Hocc).
        -- injection Hocc as -> Hocc. by apply (IH before c rest).
Qed.

Lemma extractModelFromUrl_spec_witness :
  (∃ model, extractModelFromUrl sample_url = Some model ∧ model ≠ [])
  ∧ is_model_char 58 = false.
Proof.
  split.
  - pose proof (extractModelFromUrl_spec sample_url) as H.
    destruct (extractModelFromUrl sample_url) as [model|] eqn:E;
      [|vm_compute in E; discriminate E].
    exists model. split; [reflexivity | apply H].
  - pose proof (extractModelFromUrl_spec (models_prefix ++ [58]%N)) as H.
    destruct (extractModelFromUrl (models_prefix ++ [58]%N)) eqn:E;
      [vm_compute in E; discriminate E|].
    apply (H [] 58%N []). reflexivity.
Defined.

(** ** Converting messages *)

Section MessagesProperties.

Variable JSON_parse : string → option json.
Variable JSON_stringify : list ContentBlock → string.

Lemma content_text_parts_nonempty content part :
  part ∈ content_text_parts content → part ≠ TextPart EmptyString.
Proof.
  destruct content as [text|blocks]; cbn [content_text_parts].
  - destruct text; cbn [truthy]; [by intros ?%elem_of_nil|].
    by intros ->%list_elem_of_singleton.
  - intros (block & _ & Hb)%list_elem_of_omap.
    destruct (String.eqb (block_type block) "text"); [|done].
    destruct (block_text block) as [[|c text]|]; cbn [truthy] in Hb;
      try done.
    by injection Hb as <-.
Qed.

Lemma message_parts_no_empty_text message part :
  part ∈ message_parts JSON_parse JSON_stringify message →
  part ≠ TextPart EmptyString.
Proof.
  unfold message_parts. rewrite !elem_of_app. intros [H|[H|H]].
  - by eapply content_text_parts_nonempty.
  - unfold tool_call_parts in H. destruct (msg_tool_calls message); [|
      by apply elem_of_nil in H].
    by apply list_elem_of_fmap in H as (c & -> & _).
  - unfold tool_response_parts in H.
    destruct (msg_role message); try by apply elem_of_nil in H.
    destruct (msg_tool_call_id message) as [id|];
      [|by apply elem_of_nil in H].
    destruct (truthy id); [|by apply elem_of_nil in H].
    by apply list_elem_of_singleton in H as ->.
Qed.

Lemma convert_message_step acc message :
  convert_message JSON_parse JSON_stringify acc message =
  (acc.1 ++ option_list (content_of JSON_parse JSON_stringify message),
   push_system_texts acc.2 (system_texts [message])).
Proof.
  destruct acc as [contents instruction].
  unfold convert_message, content_of, system_texts. cbn [fst snd].
  destruct (msg_role message) eqn:Erole.
  - rewrite filter_cons_True by done. cbn.
    rewrite app_nil_r. by destruct instruction.
  - rewrite filter_cons_False by (by rewrite Erole). cbn.
    destruct (message_parts JSON_parse JSON_stringify message); cbn.
    + by rewrite app_nil_r.
    + done.
  - rewrite filter_cons_False by (by rewrite Erole). cbn.
    destruct (message_parts JSON_parse JSON_stringify message); cbn.
    + by rewrite app_nil_r.
    + done.
Qed.

Lemma push_system_texts_app instruction texts more :
  push_system_texts (push_system_texts instruction texts) more =
  push_system_texts instruction (texts ++ more).
Proof.
  destruct texts as [|t texts]; [done|].
  destruct more as [|m more]; cbn.
  - by rewrite app_nil_r.
  - by rewrite <- !app_assoc.
Qed.

Lemma convert_fold messages : ∀ acc,
  foldl (convert_message JSON_parse JSON_stringify) acc messages =
  (acc.1 ++ omap (content_of JSON_parse JSON_stringify) messages,
   push_system_texts acc.2 (system_texts messages)).
Proof.
  induction messages as [|message messages IH]; intros acc.
  - destruct acc. cbn. by rewrite app_nil_r.
  - cbn [foldl]. rewrite IH, convert_message_step. cbn [fst snd].
    rewrite push_system_texts_app. f_equal.
    + rewrite <- app_assoc. f_equal.
      cbn [omap list_omap].
      by destruct (content_of JSON_parse JSON_stringify message).
    + f_equal. unfold system_texts. rewrite <- fmap_app. f_equal.
      by rewrite <- filter_app.
Qed.

(** X18: [convertMessagesToContents] keeps the order of the messages and
    converts each on its own.  System messages never become contents:
    their texts, in order, are the parts of [systemInstruction], which is
    undefined exactly when there is no system message.  Every other
    message yields at most one content, with role [model] for an assistant
    and [user] otherwise; a message without parts yields none, so no
    content is empty, and no text part is the empty string.  Converting a
    conversation followed by more messages gives the contents of the one
    followed by the contents of the other. *)
Theorem convertMessagesToContents_spec messages :
  let result := convertMessagesToContents JSON_parse JSON_stringify messages in
  result.1 = omap (content_of JSON_parse JSON_stringify) messages
  ∧ result.2 = match system_texts messages with
               | [] => None
               | texts => Some texts
               end
  ∧ Forall (λ c, content_parts c ≠ []
                 ∧ Forall (λ part, part ≠ TextPart EmptyString)
                     (content_parts c)) result.1
  ∧ (∀ c, c ∈ result.1 →
       ∃ m, m ∈ messages
            ∧ msg_role m ≠ RoleSystem
            ∧ content_parts c = message_parts JSON_parse JSON_stringify m
            ∧ content_role c = match msg_role m with
                               | RoleAssistant => GeminiModel
                               | _ => GeminiUser
                               end)
  ∧ (∀ more,
       (convertMessagesToContents JSON_parse JSON_stringify
          (messages ++ more)).1
       = result.1
         ++ (convertMessagesToContents JSON_parse JSON_stringify more).1).
Proof.
  cbv zeta. unfold convertMessagesToContents. rewrite convert_fold.
  cbn [fst snd app].
  assert (∀ c, c ∈ omap (content_of JSON_parse JSON_stringify) messages →
            ∃ m, m ∈ messages
                 ∧ msg_role m ≠ RoleSystem
                 ∧ content_parts c ≠ []
                 ∧ content_parts c = message_parts JSON_parse JSON_stringify m
                 ∧ content_role c = match msg_role m with
                                    | RoleAssistant => GeminiModel
                                    | _ => GeminiUser
                                    end) as Hfrom.
  { intros c (m & Hm & Hc)%list_elem_of_omap. exists m. split; [done|].
    unfold content_of in Hc.
    destruct (msg_role m); [done| |];
      destruct (message_parts JSON_parse JSON_stringify m) eqn:Ep;
      try done; injection Hc as <-; cbn; by rewrite ?Ep. }
  split; [done|]. split.
  { unfold push_system_texts. by destruct (system_texts messages). }
  split.
  { apply Forall_forall. intros c Hc.
    destruct (Hfrom c Hc) as (m & _ & _ & Hne & Hparts & _).
    split; [done|]. apply Forall_forall. intros part Hpart.
    rewrite Hparts in Hpart. by eapply message_parts_no_empty_text. }
  split.
  { intros c Hc. destruct (Hfrom c Hc) as (m & ? & ? & _ & ? & ?).
    by exists m. }
  intros more. rewrite !convert_fold. cbn [fst app].
  apply omap_app.
Qed.

End MessagesProperties.

Lemma convertMessagesToContents_spec_witness :
  let result :=
    convertMessagesToContents (λ _, None) (λ _, "[]") sample_messages in
  length result.1 = 2%nat ∧ result.2 = Some ["be brief"].
Proof.
  intros result.
  destruct (convertMessagesToContents_spec (λ _, None) (λ _, "[]")
              sample_messages) as (Hcontents & Hsys & _).
  fold result in Hcontents, Hsys. rewrite Hcontents, Hsys.
  split; reflexivity.
Defined.

(** * Properties of the user agent *)

Example parse_examples :
  parseVersionFromText (units "Antigravity/1.16.0 (x)") = Some (units "1.16.0")
  ∧ parseVersionFromText (units "v1.2.3a then 4.5.6.") = Some (units "4.5.6")
  ∧ parseVersionFromText (units "version 12.3") = None
  ∧ parseVersionFromText (units "x antigravity/9 1.2.3.4") = Some (units "1.2.3")
  ∧ getAntigravityUserAgent DEFAULT_ANTIGRAVITY_VERSION (units "win32")
      (units "x64") = units "antigravity/1.15.8 windows/amd64".
Proof. repeat split; vm_compute; reflexivity. Qed.

Lemma take_while_app {A} (f : A → bool) d r :
  Forall (λ x, f x = true) d → take_while f (d ++ r) = d ++ take_while f r.
Proof.
  induction 1 as [|x d Hx _ IH]; cbn; [done|]. by rewrite Hx, IH.
Qed.

Lemma take_while_drop {A} (f : A → bool) l :
  take_while f l ++ drop (length (take_while f l)) l = l.
Proof.
  induction l as [|x l IH]; cbn; [done|].
  destruct (f x); cbn; [by rewrite IH | done].
Qed.

Lemma take_while_Forall {A} (f : A → bool) l :
  Forall (λ x, f x = true) (take_while f l).
Proof.
  induction l as [|x l IH]; cbn; [constructor|].
  destruct (f x) eqn:E; by constructor.
Qed.

Lemma take_while_stops {A} (f : A → bool) c rest :
  f c = false → take_while f (c :: rest) = [].
Proof. intros E. cbn. by rewrite E. Qed.

Lemma digits_then_dot_Some s digits rest :
  digits_then_dot s = Some (digits, rest) →
  s = digits ++ 46%N :: rest ∧ digits ≠ []
  ∧ Forall (λ c, is_digit c = true) digits.
Proof.
  unfold digits_then_dot. cbv zeta.
  pose proof (take_while_drop is_digit s) as Hs.
  pose proof (take_while_Forall is_digit s) as Hall.
  destruct (take_while is_digit s) as [|d ds] eqn:E; [done|].
  destruct (drop (length (d :: ds)) s) as [|c r] eqn:D; [done|].
  destruct (c =? 46)%N eqn:Ec; [|done].
  apply N.eqb_eq in Ec. subst c. intros [= <- <-]. by rewrite Hs.
Qed.

Lemma digits_then_dot_app digits rest :
  digits ≠ [] → Forall (λ c, is_digit c = true) digits →
  digits_then_dot (digits ++ 46%N :: rest) = Some (digits, rest).
Proof.
  intros Hne Hall. unfold digits_then_dot. cbv zeta.
  rewrite (take_while_app _ _ _ Hall), take_while_stops, app_nil_r by done.
  destruct digits as [|d ds]; [done|].
  by rewrite drop_app_length.
Qed.

Lemma version_here_Some s v rest :
  version_here s = Some (v, rest) → is_version v ∧ s = v ++ rest.
Proof.
  unfold version_here.
  destruct (digits_then_dot s) as [[major s1]|] eqn:E1; [|done].
  destruct (digits_then_dot s1) as [[minor s2]|] eqn:E2; [|done].
  apply digits_then_dot_Some in E1 as (-> & Hmajor & Hmajor').
  apply digits_then_dot_Some in E2 as (-> & Hminor & Hminor').
  pose proof (take_while_drop is_digit s2) as Hs.
  pose proof (take_while_Forall is_digit s2) as Hall.
  destruct (take_while is_digit s2) as [|d ds] eqn:E; [done|].
  intros [= <- <-]. split.
  - by exists major, minor, (d :: ds).
  - rewrite <- Hs at 1. cbn [length]. rewrite <- !app_assoc. cbn [app].
    by rewrite <- !app_assoc.
Qed.

Lemma version_here_app major minor patch after :
  major ≠ [] → minor ≠ [] → patch ≠ [] →
  Forall (λ c, is_digit c = true) major →
  Forall (λ c, is_digit c = true) minor →
  Forall (λ c, is_digit c = true) patch →
  version_here ((major ++ [46%N] ++ minor ++ [46%N] ++ patch) ++ after)
  = Some (major ++ [46%N] ++ minor ++ [46%N] ++ patch
            ++ take_while is_digit after,
          drop (length (take_while is_digit after)) after).
Proof.
  intros Hmajor Hminor Hpatch Hmajor' Hminor' Hpatch'. unfold version_here.
  rewrite <- !app_assoc. cbn [app].
  rewrite digits_then_dot_app, digits_then_dot_app by done.
  rewrite (take_while_app _ _ _ Hpatch').
  destruct (patch ++ take_while is_digit after) as [|d ds] eqn:E.
  { by destruct patch. }
  rewrite <- E, length_app, <- drop_drop, drop_app_length. reflexivity.
Qed.

Lemma not_word_not_digit c : is_word_char c = false → is_digit c = false.
Proof.
  unfold is_word_char. destruct (is_digit c); [done|done].
Qed.

Lemma version_here_exact v after :
  is_version v →
  match after with c :: _ => is_digit c = false | [] => True end →
  version_here (v ++ after) = Some (v, after).
Proof.
  intros (major & minor & patch & -> & ? & ? & ? & ? & ? & ?) Hafter.
  rewrite version_here_app by done.
  destruct after as [|c after]; cbn [take_while].
  - cbn. by rewrite !app_nil_r.
  - rewrite Hafter. cbn. by rewrite !app_nil_r.
Qed.

Lemma match_literal_ci_Some literal s rest :
  match_literal_ci literal s = Some rest
  ↔ ∃ name, s = name ++ rest ∧ to_lower_ascii <$> name = literal.
Proof.
  revert s. induction literal as [|c literal IH]; intros s.
  - cbn. split.
    + intros [= ->]. by exists [].
    + intros (name & -> & Hname). by apply fmap_nil_inv in Hname as ->.
  - destruct s as [|d s]; cbn [match_literal_ci].
    + split; [done|]. intros (name & Hs & Hname).
      symmetry in Hs. apply app_eq_nil in Hs as [-> _]. done.
    + destruct (c =? to_lower_ascii d)%N eqn:E.
      * apply N.eqb_eq in E. rewrite IH. split.
        -- intros (name & -> & <-). exists (d :: name). by rewrite E.
        -- intros (name & Hs & Hname). destruct name as [|d' name]; [done|].
           cbn in Hs, Hname. injection Hs as <- ->. injection Hname as _ <-.
           by exists name.
      * apply N.eqb_neq in E. split; [done|].
        intros (name & Hs & Hname). destruct name as [|d' name]; [done|].
        cbn in Hs, Hname. injection Hs as <- ->. injection Hname as Hc _.
        by destruct E.
Qed.

Lemma ua_version_match_eq text :
  ua_version_match text
  = match match_literal_ci ua_prefix text ≫= λ rest, fst <$> version_here rest
    with
    | Some version => Some version
    | None =>
        match text with
        | [] => None
        | _ :: rest => ua_version_match rest
        end
    end.
Proof.
  destruct text; cbn [ua_version_match mbind option_bind];
    by destruct (match_literal_ci ua_prefix _).
Qed.

Lemma version_match_eq previous text :
  version_match previous text
  = match
      (if match previous with
          | Some p => negb (is_word_char p)
          | None => true
          end
       then
         match version_here text with
         | Some (version, rest) =>
             match rest with
             | [] => Some version
             | c :: _ => if is_word_char c then None else Some version
             end
         | None => None
         end
       else None)
    with
    | Some version => Some version
    | None =>
        match text with
        | [] => None
        | c :: rest => version_match (Some c) rest
        end
    end.
Proof. by destruct text. Qed.

Lemma ua_version_match_Some text v :
  ua_version_match text = Some v →
  is_version v ∧ ∃ before after, text = before ++ v ++ after ∧ tagged before.
Proof.
  assert (Hhere : ∀ text,
    match_literal_ci ua_prefix text ≫= (λ rest, fst <$> version_here rest)
      = Some v →
    is_version v ∧ ∃ before after, text = before ++ v ++ after ∧ tagged before).
  { intros t H. destruct (match_literal_ci ua_prefix t) as [rest|] eqn:L;
      [|done]. cbn in H.
    destruct (version_here rest) as [[v' after]|] eqn:V; [|done].
    cbn in H. injection H as ->.
    apply match_literal_ci_Some in L as (name & -> & Hname).
    apply version_here_Some in V as [Hv ->]. split; [done|].
    exists name, after. split; [done|]. by exists [], name. }
  induction text as [|c text IH]; rewrite ua_version_match_eq.
  - destruct (_ ≫= _) eqn:H; [|done]. intros [= ->]. by apply Hhere.
  - destruct (_ ≫= _) eqn:H.
    + intros [= ->]. by apply Hhere.
    + intros (Hv & before & after & -> & front & name & -> & Hname)%IH.
      split; [done|]. exists (c :: front ++ name), after. split; [done|].
      by exists (c :: front), name.
Qed.

Lemma ua_version_match_tagged front name v after :
  to_lower_ascii <$> name = ua_prefix → is_version v →
  is_Some (ua_version_match (front ++ name ++ v ++ after)).
Proof.
  intros Hname (major & minor & patch & -> & ? & ? & ? & ? & ? & ?).
  induction front as [|c front IH]; rewrite ua_version_match_eq.
  - rewrite app_nil_l.
    assert (match_literal_ci ua_prefix
              (name ++ (major ++ [46%N] ++ minor ++ [46%N] ++ patch) ++ after)
            = Some ((major ++ [46%N] ++ minor ++ [46%N] ++ patch) ++ after))
      as -> by (apply match_literal_ci_Some; by exists name).
    cbn [mbind option_bind]. rewrite version_here_app by done. by eexists.
  - destruct (_ ≫= _); [by eexists|]. exact IH.
Qed.

Lemma boundary_before_cons previous c before :
  boundary_before previous (c :: before) ↔ boundary_before (Some c) before.
Proof.
  unfold boundary_before. destruct before as [|d before]; [done|].
  rewrite last_cons_cons. destruct (last (d :: before)) eqn:E; [done|].
  by apply last_None in E.
Qed.

Lemma version_match_Some previous text v :
  version_match previous text = Some v →
  is_version v
  ∧ ∃ before after,
      text = before ++ v ++ after
      ∧ boundary_before previous before ∧ boundary_after after.
Proof.
  revert previous. induction text as [|c text IH]; intros previous;
    rewrite version_match_eq.
  - destruct previous as [p|]; [destruct (is_word_char p) eqn:Hp|]; cbn;
      try done.
    all: destruct (version_here []) as [[v' rest]|] eqn:V; [|done].
    all: apply version_here_Some in V as [Hv Hnil].
    all: symmetry in Hnil; apply app_eq_nil in Hnil as [-> ->].
    all: intros [= ->]; split; [done|]; exists [], [].
    all: by rewrite app_nil_r.
  - match goal with |- context [if ?b then ?x else None] =>
      destruct (if b then x else None) as [v'|] eqn:H end.
    + intros [= ->].
      assert (Hb : boundary_before previous []).
      { destruct previous as [p|]; [|done]. unfold boundary_before. cbn.
        destruct (is_word_char p); [done|done]. }
      assert (Hon : version_here (c :: text) ≠ None).
      { destruct previous as [p|]; [destruct (is_word_char p)|]; cbn in H;
          try done; by destruct (version_here (c :: text)). }
      destruct (version_here (c :: text)) as [[v' rest]|] eqn:V; [|done].
      assert (Hv' : match rest with
                    | [] => Some v'
                    | d :: _ => if is_word_char d then None else Some v'
                    end = Some v).
      { destruct previous as [p|]; [destruct (is_word_char p)|]; cbn in H;
          done. }
      apply version_here_Some in V as [Hv ->].
      assert (v' = v ∧ boundary_after rest) as [-> Hafter].
      { destruct rest as [|d rest]; [by injection Hv' as ->|].
        unfold boundary_after. destruct (is_word_char d); [done|].
        by injection Hv' as ->. }
      split; [done|]. by exists [], rest.
    + intros (Hv & before & after & -> & Hbefore & Hafter)%IH.
      split; [done|]. exists (c :: before), after.
      split; [done|]. split; [by apply boundary_before_cons|done].
Qed.

Lemma version_match_delimited previous before v after :
  is_version v → boundary_before previous before → boundary_after after →
  is_Some (version_match previous (before ++ v ++ after)).
Proof.
  intros Hv Hbefore Hafter. revert previous Hbefore.
  induction before as [|c before IH]; intros previous Hbefore;
    rewrite version_match_eq.
  - cbn [app]. rewrite version_here_exact; [|done|].
    2:{ destruct after as [|d after]; [done|]. by apply not_word_not_digit. }
    assert (match previous with
            | Some p => negb (is_word_char p)
            | None => true
            end = true) as ->.
    { destruct previous as [p|]; [|done]. unfold boundary_before in Hbefore.
      cbn in Hbefore. by rewrite Hbefore. }
    destruct after as [|d after]; [by eexists|].
    unfold boundary_after in Hafter. rewrite Hafter. by eexists.
  - match goal with |- context [if ?b then ?x else None] =>
      destruct (if b then x else None) end; [by eexists|].
    cbn [app]. apply IH. by apply boundary_before_cons in Hbefore.
Qed.

Lemma ua_version_match_digits text :
  Forall (λ c, is_digit c = true ∨ c = 46%N) text →
  ua_version_match text = None.
Proof.
  induction 1 as [|c text Hc _ IH]; rewrite ua_version_match_eq; [done|].
  assert (match_literal_ci ua_prefix (c :: text) = None) as ->; [|done].
  assert (ua_prefix = 97%N :: tail ua_prefix) as -> by reflexivity.
  cbn [match_literal_ci].
  assert ((97 =? to_lower_ascii c)%N = false) as ->; [|done].
  apply N.eqb_neq. unfold to_lower_ascii, is_digit in *.
  destruct Hc as [Hc| ->]; [|done].
  apply andb_true_iff in Hc as [?%N.leb_le ?%N.leb_le].
  destruct (65 <=? c)%N eqn:?; [apply N.leb_le in Heqb; lia|]. cbn. lia.
Qed.

Lemma is_version_digits v :
  is_version v → Forall (λ c, is_digit c = true ∨ c = 46%N) v.
Proof.
  intros (major & minor & patch & -> & _ & _ & _ & H1 & H2 & H3).
  rewrite !Forall_app. repeat split.
  - eapply Forall_impl; [exact H1|]. by left.
  - constructor; [by right|constructor].
  - eapply Forall_impl; [exact H2|]. by left.
  - constructor; [by right|constructor].
  - eapply Forall_impl; [exact H3|]. by left.
Qed.

(** X19: a version that [parseVersionFromText] returns is well formed --
    three non-empty runs of decimal digits separated by dots -- and stands
    in the text as written, either right behind the product name and a
    slash (in any case) or touched by no word character on either side. *)
Theorem parseVersionFromText_sound text v :
  parseVersionFromText text = Some v →
  is_version v
  ∧ ∃ before after,
      text = before ++ v ++ after
      ∧ (tagged before ∨ delimited before after).
Proof.
  unfold parseVersionFromText.
  destruct (ua_version_match text) as [v'|] eqn:U.
  - intros [= ->].
    apply ua_version_match_Some in U as (Hv & before & after & -> & Htag).
    split; [done|]. exists before, after. by split; [|left].
  - intros (Hv & before & after & -> & Hb & Ha)%version_match_Some.
    split; [done|]. exists before, after. split; [done|]. right. by split.
Qed.

Lemma parseVersionFromText_sound_witness :
  parseVersionFromText (units "release 1.16.0 (stable)") = Some (units "1.16.0")
  ∧ is_version (units "1.16.0").
Proof.
  split; [reflexivity|].
  apply (parseVersionFromText_sound (units "release 1.16.0 (stable)")).
  reflexivity.
Defined.

(** X20: [parseVersionFromText] misses no version: a text that holds a well
    formed version behind the product name and a slash, or one touched by
    no word character, is never answered with [null]. *)
Theorem parseVersionFromText_complete before v after :
  is_version v → tagged before ∨ delimited before after →
  parseVersionFromText (before ++ v ++ after) ≠ None.
Proof.
  intros Hv Hplace. unfold parseVersionFromText.
  destruct (ua_version_match (before ++ v ++ after)) as [v'|] eqn:U; [done|].
  destruct Hplace as [(front & name & -> & Hname)|[Hb Ha]].
  - rewrite <- app_assoc in U.
    destruct (ua_version_match_tagged front name v after Hname Hv) as [? E].
    congruence.
  - destruct (version_match_delimited None before v after Hv Hb Ha) as [? E].
    congruence.
Qed.

Lemma parseVersionFromText_complete_witness :
  parseVersionFromText (units "v " ++ units "2.0.11" ++ units ",") ≠ None.
Proof.
  apply (parseVersionFromText_complete (units "v ") (units "2.0.11")
           (units ",")).
  - exists (units "2"), (units "0"), (units "11").
    repeat split; try done; vm_compute; repeat constructor.
  - right. split; reflexivity.
Defined.

(** X21: the user agent carries the version it was built from:
    [parseVersionFromText] reads a well formed cached version back from
    [getAntigravityUserAgent], whatever the platform and the architecture,
    and from the bare version as well. *)
Theorem user_agent_round_trip v platform arch :
  is_version v →
  parseVersionFromText (getAntigravityUserAgent v platform arch) = Some v
  ∧ parseVersionFromText v = Some v.
Proof.
  intros Hv. split; unfold parseVersionFromText.
  - unfold getAntigravityUserAgent. rewrite ua_version_match_eq.
    assert (match_literal_ci ua_prefix
              (units "antigravity/" ++ v ++ units " "
               ++ buildPlatformTag platform arch)
            = Some (v ++ units " " ++ buildPlatformTag platform arch)) as ->.
    { apply match_literal_ci_Some. by exists (units "antigravity/"). }
    cbn [mbind option_bind]. by rewrite version_here_exact.
  - rewrite ua_version_match_digits by by apply is_version_digits.
    rewrite version_match_eq.
    rewrite <- (app_nil_r v) at 1. by rewrite version_here_exact.
Qed.

Lemma user_agent_round_trip_witness :
  parseVersionFromText
    (getAntigravityUserAgent (units "1.15.8") (units "darwin") (units "arm64"))
  = Some (units "1.15.8")
  ∧ parseVersionFromText (units "1.15.8") = Some (units "1.15.8").
Proof.
  apply (user_agent_round_trip (units "1.15.8")).
  exists (units "1"), (units "15"), (units "8").
  repeat split; try done; vm_compute; repeat constructor.
Defined.
